(** * The palette-lookup dictionary generator

    A shallow embedding of
    [ss1/content/movie/internal/compression/PaletteLookupGenerator.go]:
    the 256-bit palette key, the nested packing of keys, the [Generate]
    driver and the per-tile [Lookup] query, followed by the properties
    the specification states about them.

    Conventions of the embedding:
    - a Go [byte] is a [Z] in [0, 256) ([is_byte]); a [uint64] is a [Z] in
      [0, 2^64) with the wrap-around of shifts and complements written out;
      a Go [int] is a [Z] (the sizes and offsets that occur stay far below
      2^63);
    - a Go map is a [gmap], a map used as a set is a [gset]; the order in
      which [range] visits a map and the order in which the results of the
      goroutines arrive are not fixed by Go: they are the parameter [order]
      of the generator section, and every theorem holds for every choice
      of it. *)

From stdpp Require Import gmap list list_numbers sorting.
From Stdlib Require Import ZArith Lia FunctionalExtensionality.
From Stdlib Require String.
Import String.StringSyntax.
Delimit Scope string_scope with string.

Local Open Scope Z_scope.
Set Warnings "-register-all,-clear-no-such-hyp".

(** ** Machine integers *)

Definition is_byte (b : Z) : Prop := 0 <= b < 256.
Definition is_uint64 (w : Z) : Prop := 0 <= w < 2 ^ 64.

(** [^w] on a [uint64]: every one of the 64 bits flipped. *)
Definition not64 (w : Z) : Z := Z.lxor w (Z.ones 64).

(** [w << n] on a [uint64]: the bits shifted out are lost. *)
Definition shl64 (w n : Z) : Z := Z.land (Z.shiftl w n) (Z.ones 64).

(** [uint(x)] for an [int] x. *)
Definition to_uint (x : Z) : Z := x mod 2 ^ 64.

(** [bits.Len]: the number of bits needed to write [x], 0 for 0. *)
Definition bitsLen (x : Z) : Z := if x <=? 0 then 0 else Z.log2 x + 1.

(** The number of set bits among the 64 bits of a word. *)
Definition popcount (w : Z) : Z :=
  Z.of_nat (length (filter (fun i => Z.testbit w i) (seqZ 0 64))).

(** [for i := 0; i < 256; i++ { s = body(i, s) }] *)
Definition for256 {St : Type} (body : Z -> St -> St) (s : St) : St :=
  foldl (fun s i => body i s) s (seqZ 0 256).

(** ** tilePaletteKey *)

(** [usedColors [4]uint64] is a quadruple of words. *)
Record tilePaletteKey : Type := TilePaletteKey {
  usedColors : Z * Z * Z * Z;
  size : Z
}.

Global Instance tilePaletteKey_eq_dec : EqDecision tilePaletteKey.
Proof. solve_decision. Defined.

Global Instance tilePaletteKey_countable : Countable tilePaletteKey.
Proof.
  refine (inj_countable' (fun k => (usedColors k, size k))
            (fun p => TilePaletteKey (fst p) (snd p)) _).
  by intros [].
Defined.

(** [a[i]] and [a[i] = v] on the array of four words. *)
Definition word (a : Z * Z * Z * Z) (i : Z) : Z :=
  let '(a0, a1, a2, a3) := a in
  if i =? 0 then a0 else if i =? 1 then a1 else if i =? 2 then a2 else a3.

Definition set_word (a : Z * Z * Z * Z) (i v : Z) : Z * Z * Z * Z :=
  let '(a0, a1, a2, a3) := a in
  if i =? 0 then (v, a1, a2, a3)
  else if i =? 1 then (a0, v, a2, a3)
  else if i =? 2 then (a0, a1, v, a3)
  else (a0, a1, a2, v).

(** The zero value [tilePaletteKey{}] of [var key tilePaletteKey]. *)
Definition zeroKey : tilePaletteKey := TilePaletteKey (0, 0, 0, 0) 0.

Definition hasColor (key : tilePaletteKey) (index : Z) : bool :=
  negb (Z.land (word (usedColors key) (index / 64))
               (Z.shiftl 1 (index mod 64)) =? 0).

Definition useColor (key : tilePaletteKey) (index : Z) : tilePaletteKey :=
  if hasColor key index then key
  else {| usedColors :=
            set_word (usedColors key) (index / 64)
              (Z.lor (word (usedColors key) (index / 64))
                     (Z.shiftl 1 (index mod 64)));
          size := size key + 1 |}.

Definition buffer (key : tilePaletteKey) : list Z :=
  for256 (fun i result => if hasColor key i then result ++ [i] else result) [].

(** [var key tilePaletteKey; for _, c := range colors { key.useColor(c) }],
    the loop that opens [Lookup] and [Add] and that builds [addedColors]
    and [tempKey]. *)
Definition keyOfColors (colors : list Z) : tilePaletteKey :=
  foldl useColor zeroKey colors.

Definition joinedBuffer (key : tilePaletteKey) (source : list Z) : list Z :=
  let '(addedColors, result) :=
    foldl (fun '(addedColors, result) color =>
             (useColor addedColors color, result ++ [color]))
          (zeroKey, []) source in
  for256 (fun color result =>
            if hasColor key color && negb (hasColor addedColors color)
            then result ++ [color] else result) result.

Definition contains (key other : tilePaletteKey) : bool :=
  (Z.land (not64 (word (usedColors key) 0)) (word (usedColors other) 0) =? 0) &&
  (Z.land (not64 (word (usedColors key) 1)) (word (usedColors other) 1) =? 0) &&
  (Z.land (not64 (word (usedColors key) 2)) (word (usedColors other) 2) =? 0) &&
  (Z.land (not64 (word (usedColors key) 3)) (word (usedColors other) 3) =? 0).

Definition without (key other : tilePaletteKey) : tilePaletteKey :=
  for256 (fun i result =>
            if hasColor key i && negb (hasColor other i)
            then useColor result i else result) zeroKey.

Global Arguments hasColor : simpl never.
Global Arguments useColor : simpl never.
Global Arguments buffer : simpl never.
Global Arguments joinedBuffer : simpl never.
Global Arguments contains : simpl never.
Global Arguments without : simpl never.

(** ** nestedEntry *)

Inductive nestedEntry : Type := NestedEntry {
  key : tilePaletteKey;
  nested : list nestedEntry
}.

Fixpoint byteSize (entry : nestedEntry) : Z :=
  let nestedSize :=
    foldl (fun nestedSize n => nestedSize + byteSize n) 0 (nested entry) in
  size (key entry) + nestedSize.

(** [extractBuffer]: the callback [marker] of the source mutates what its
    closure captured; here it transforms a state [St] that is threaded
    through the traversal in call order. *)
Fixpoint extractBuffer {St : Type} (entry : nestedEntry) (startOffset : Z)
    (marker : tilePaletteKey -> Z -> St -> St) (st : St) : list Z * St :=
  let st := marker (key entry) startOffset st in
  let '(nestedBuffer, relativeOffset, st) :=
    foldl (fun '(nestedBuffer, relativeOffset, st) n =>
             let '(bufferPart, st) :=
               extractBuffer n (startOffset + relativeOffset) marker st in
             (nestedBuffer ++ bufferPart, relativeOffset + size (key n), st))
          ([], 0, st) (nested entry) in
  (joinedBuffer (key entry) nestedBuffer, st).

(** [nestedEntry.buffer]: extraction with a marker that does nothing. *)
Definition entryBuffer (entry : nestedEntry) : list Z :=
  fst (extractBuffer entry 0 (fun _ _ (st : unit) => st) tt).

(** ** PaletteLookup *)

(** The field [buffer] is named after its accessor [Buffer()]. *)
Record PaletteLookup : Type := {
  Buffer : list Z;
  starts : gmap tilePaletteKey Z
}.

(** Modelled from the spec: the constant [PixelPerTile] and the type
    [tileDelta] are declared in a file of the package that is not among the
    sources at hand. The spec gives [PixelPerTile] as 16 and a tile delta as a
    sequence of [PixelPerTile] bytes; a [tileDelta] is a [list Z] that
    satisfies [is_tile]. *)
Definition PixelPerTile : Z := 16.

Definition is_tile (tile : list Z) : Prop :=
  Z.of_nat (length tile) = PixelPerTile /\ Forall is_byte tile.

(** [l[lo:hi]]. Go panics when the bounds leave the slice; the model
    truncates, and [starts_in_bounds] shows that [Lookup] stays inside. *)
Definition slice (l : list Z) (lo hi : Z) : list Z :=
  take (Z.to_nat (hi - lo)) (drop (Z.to_nat lo) l).

(** [for tileIndex := n - 1; tileIndex >= 0; tileIndex-- { ... }] *)
Fixpoint maskLoop (tile mapped : list Z) (bitSize : Z) (n : nat) (mask : Z) : Z :=
  match n with
  | O => mask
  | S tileIndex =>
      let mask := shl64 mask bitSize in
      let mask := Z.lor mask (mapped !!! Z.to_nat (tile !!! tileIndex)) in
      maskLoop tile mapped bitSize tileIndex mask
  end.

(** [var mapped [256]byte; for mappedIndex, b := range pal { ... }]: the
    state is the index of the round and the array. *)
Definition mappedOf (pal : list Z) : list Z :=
  snd (foldl (fun '(mappedIndex, mapped) b =>
                (mappedIndex + 1, <[Z.to_nat b := mappedIndex mod 256]> mapped))
             (0, replicate 256 0) pal).

(** [Lookup]. A key that is not in [starts] leaves [index] at the zero
    value that Go's two-result map read assigns. *)
Definition Lookup (lookup : PaletteLookup) (tile : list Z) : Z * list Z * Z :=
  let key := keyOfColors tile in
  let '(index, pal) :=
    match starts lookup !! key with
    | Some index => (index, slice (Buffer lookup) index (index + size key))
    | None => (0, buffer key)
    end in
  let mapped := mappedOf pal in
  let bitSize := bitsLen (to_uint (size key - 1)) in
  let mask := maskLoop tile mapped bitSize (Z.to_nat PixelPerTile) 0 in
  (index, pal, mask).

(** ** PaletteLookupGenerator *)

(** A nil [keyUses] map reads like the empty map, and [Add] replaces it by
    one before writing: both are the empty [gmap]. *)
Record PaletteLookupGenerator : Type := {
  keyUses : gmap tilePaletteKey Z
}.

Definition newGenerator : PaletteLookupGenerator := {| keyUses := ∅ |}.

Definition Add (gen : PaletteLookupGenerator) (delta : list Z)
  : PaletteLookupGenerator :=
  let key := keyOfColors delta in
  if 2 <? size key
  then {| keyUses := <[key := default 0 (keyUses gen !! key) + 1]> (keyUses gen) |}
  else gen.

Section Generator.

(** The order in which a [range] over a map visits its keys, and in which
    the results of a batch of goroutines arrive: some rearrangement of
    the keys concerned. *)
Variable order : list tilePaletteKey -> list tilePaletteKey.

(** [for key := range m { ... }] visits [rangeKeys m]. *)
Definition rangeKeys (m : gset tilePaletteKey) : list tilePaletteKey :=
  order (elements m).

Section Cache.

(** [nestedEntryCache]: [keys] is the candidate pool; [query] hands the
    populated entry of a key to its callback. The [entries] map of the
    source memoises [query], and its mutex serialises the accesses; an
    entry is a function of its key and the pool, so the model calls
    [query] afresh. *)
Variable keys : gset tilePaletteKey.
Variable query : tilePaletteKey -> nestedEntry.

(** The body of [populateRemaining]'s loop over [keySize]: the goroutines
    are started in the order of the range over [cache.keys], their
    results are received in the order of arrival, and the first received
    among the largest is kept. *)
Definition collectResults (remainingKey : tilePaletteKey) (keySize : Z)
    (acc : Z * option nestedEntry) : Z * option nestedEntry :=
  let queried :=
    filter (fun otherKey =>
              size otherKey = keySize /\ contains remainingKey otherKey)
           (rangeKeys keys) in
  let results := query <$> order queried in
  foldl (fun '(maxByteSize, maxNested) n =>
           let nestedSize := byteSize n in
           if maxByteSize <? nestedSize then (nestedSize, Some n)
           else (maxByteSize, maxNested))
        acc results.

(** [for (keySize > 2) && (maxNested == nil) { ...; keySize-- }]; the loop
    runs at most [startSize] times, which is the fuel it is given. *)
Fixpoint populateRemainingLoop (fuel : nat) (remainingKey : tilePaletteKey)
    (keySize : Z) (acc : Z * option nestedEntry) : Z * option nestedEntry :=
  match fuel with
  | O => acc
  | S fuel' =>
      if (2 <? keySize) && negb (bool_decide (is_Some (snd acc)))
      then populateRemainingLoop fuel' remainingKey (keySize - 1)
             (collectResults remainingKey keySize acc)
      else acc
  end.

Definition populateRemaining (entry : nestedEntry)
    (remainingKey : tilePaletteKey) (startSize : Z)
  : nestedEntry * tilePaletteKey * bool :=
  match snd (populateRemainingLoop (Z.to_nat startSize) remainingKey
               startSize (0, None)) with
  | None => (entry, zeroKey, false)
  | Some maxNested =>
      (NestedEntry (key entry) (nested entry ++ [maxNested]),
       key maxNested, true)
  end.

(** [for remainingKey.size > 2 && foundSomething { ... }] of [populate];
    every round that finds something takes at least three colors out of
    [remainingKey], so [size] of the entry's key is fuel enough. *)
Fixpoint populateLoop (fuel : nat) (entry : nestedEntry)
    (remainingKey : tilePaletteKey) (foundSomething : bool)
    (keySearchSize : Z) : nestedEntry :=
  match fuel with
  | O => entry
  | S fuel' =>
      if (2 <? size remainingKey) && foundSomething
      then
        let '(entry, lastAddedKey, foundSomething) :=
          populateRemaining entry remainingKey keySearchSize in
        let remainingKey := without remainingKey lastAddedKey in
        populateLoop fuel' entry remainingKey foundSomething (size remainingKey)
      else entry
  end.

End Cache.

(** [populate]. The entry of a key that [query] populates has a smaller
    key than the one being populated, so the recursion is at most
    [size] of the key deep: [depth]. *)
Fixpoint populateDepth (depth : nat) (keys : gset tilePaletteKey)
    (entry : nestedEntry) : nestedEntry :=
  match depth with
  | O => entry
  | S depth' =>
      let query := fun k => populateDepth depth' keys (NestedEntry k []) in
      populateLoop keys query (Z.to_nat (size (key entry))) entry (key entry)
        true (size (key entry) - 1)
  end.

Definition populate (keys : gset tilePaletteKey) (entry : nestedEntry)
  : nestedEntry :=
  populateDepth (Z.to_nat (size (key entry))) keys entry.

(** The scan of [Generate] for a window of the buffer that holds [k]:
    [for start := 0; start < (len(buffer)-k.size) && !wasRemoved; start++],
    with [len(buffer)] rounds at most. The state is [earlyRemoved] and
    [lookup.starts]. *)
Fixpoint scavengeLoop (buf : list Z) (k : tilePaletteKey) (fuel : nat)
    (start : Z) (wasRemoved : bool)
    (st : list tilePaletteKey * gmap tilePaletteKey Z)
  : list tilePaletteKey * gmap tilePaletteKey Z :=
  match fuel with
  | O => st
  | S fuel' =>
      if (start <? Z.of_nat (length buf) - size k) && negb wasRemoved
      then
        let tempKey := keyOfColors (slice buf start (start + size k)) in
        if contains tempKey k
        then scavengeLoop buf k fuel' (start + 1) true
               (fst st ++ [k], <[k := start]> (snd st))
        else scavengeLoop buf k fuel' (start + 1) wasRemoved st
      else st
  end.

(** The first block of a size pass: keys of the current size that some
    window of the buffer already holds. *)
Definition scavenge (lookup : PaletteLookup) (remainder : gset tilePaletteKey)
    (sz : Z) : PaletteLookup * gset tilePaletteKey :=
  let '(earlyRemoved, starts') :=
    foldl (fun st k =>
             if size k =? sz
             then scavengeLoop (Buffer lookup) k (length (Buffer lookup)) 0 false st
             else st)
          ([], starts lookup) (rangeKeys remainder) in
  ({| Buffer := Buffer lookup; starts := starts' |},
   foldl (fun r k => r ∖ {[k]}) remainder earlyRemoved).

(** The marker that [Generate] passes to [extractBuffer]. *)
Definition markPlaced (nestedKey : tilePaletteKey) (offset : Z)
    (st : list tilePaletteKey * gmap tilePaletteKey Z)
  : list tilePaletteKey * gmap tilePaletteKey Z :=
  (fst st ++ [nestedKey], <[nestedKey := offset]> (snd st)).

(** The body of [for _, key := range keysInSize]. The cache aliases
    [remainder], which does not change while the entry is populated. *)
Definition placeKey (st : PaletteLookup * gset tilePaletteKey)
    (k : tilePaletteKey) : PaletteLookup * gset tilePaletteKey :=
  let '(lookup, remainder) := st in
  let nestedRoot := populate remainder (NestedEntry k []) in
  let '(bytes, (toRemove, starts')) :=
    extractBuffer nestedRoot (Z.of_nat (length (Buffer lookup))) markPlaced
      ([], starts lookup) in
  ({| Buffer := Buffer lookup ++ bytes; starts := starts' |},
   foldl (fun r k => r ∖ {[k]}) remainder toRemove).

(** The body of [for size := PixelPerTile; size > 2; size--]. *)
Definition sizePass (st : PaletteLookup * gset tilePaletteKey) (sz : Z)
  : PaletteLookup * gset tilePaletteKey :=
  let '(lookup, remainder) := scavenge (fst st) (snd st) sz in
  let keysInSize := filter (fun k => size k = sz) (rangeKeys remainder) in
  foldl placeKey (lookup, remainder) keysInSize.

(** The sizes the pass loop goes through, [PixelPerTile] down to 3. *)
Definition passSizes : list Z := reverse (seqZ 3 (PixelPerTile - 2)).

(** The closing loop: [for key := range remainder { ... }]. *)
Definition placeLeftover (lookup : PaletteLookup) (k : tilePaletteKey)
  : PaletteLookup :=
  {| Buffer := Buffer lookup ++ buffer k;
     starts := <[k := Z.of_nat (length (Buffer lookup))]> (starts lookup) |}.

(** The state of [Generate] after its pass loop. *)
Definition generatePasses (gen : PaletteLookupGenerator)
  : PaletteLookup * gset tilePaletteKey :=
  foldl sizePass ({| Buffer := []; starts := ∅ |}, dom (keyUses gen)) passSizes.

Definition Generate (gen : PaletteLookupGenerator) : PaletteLookup :=
  let '(lookup, remainder) := generatePasses gen in
  foldl placeLeftover lookup (rangeKeys remainder).

End Generator.

(** ** Predicates used by the statements *)

(** The four words of a key are [uint64] values. *)
Definition key_in_range (k : tilePaletteKey) : Prop :=
  forall i, is_uint64 (word (usedColors k) i).

(** The invariant of a key: the cached [size] counts the colors. *)
Definition wf (k : tilePaletteKey) : Prop :=
  key_in_range k /\ size k = Z.of_nat (length (buffer k)).

(** The keys that the operations of the source can build. *)
Inductive constructed : tilePaletteKey -> Prop :=
| constructed_zero : constructed zeroKey
| constructed_useColor k c :
    constructed k -> is_byte c -> constructed (useColor k c)
| constructed_without a b :
    constructed a -> constructed b -> constructed (without a b).

(** The union of two keys, for the bitset laws: the colors of [b] put
    into [a]. *)
Definition keyUnion (a b : tilePaletteKey) : tilePaletteKey :=
  foldl useColor a (buffer b).

(** The colors that two keys share. *)
Definition commonColors (a b : tilePaletteKey) : list Z :=
  filter (fun c => hasColor a c && hasColor b c) (seqZ 0 256).

(** The sum of the population counts of the four words. *)
Definition totalPopcount (k : tilePaletteKey) : Z :=
  popcount (word (usedColors k) 0) + popcount (word (usedColors k) 1)
  + popcount (word (usedColors k) 2) + popcount (word (usedColors k) 3).

(** The decoder's reading of a tile, in the words of the specification:
    pixel [i] is [pal[(mask >> (i*bitSize)) & ((1 << bitSize) - 1)]], for
    [i] from 0 to [PixelPerTile - 1]; [None] when an index leaves [pal]. *)
Definition pixelIndex (mask bitSize : Z) (i : nat) : Z :=
  Z.land (Z.shiftr mask (Z.of_nat i * bitSize)) (Z.shiftl 1 bitSize - 1).

Definition reconstruct (pal : list Z) (mask bitSize : Z) : option (list Z) :=
  mapM (fun i => pal !! Z.to_nat (pixelIndex mask bitSize i))
       (seq 0 (Z.to_nat PixelPerTile)).

(** The bytes that [extractBuffer] returns and the calls of the marker
    that it makes, in order, as functions of the entry alone. *)
Fixpoint bytesOf (entry : nestedEntry) : list Z :=
  joinedBuffer (key entry) (concat (map bytesOf (nested entry))).

Fixpoint marksOf (entry : nestedEntry) (startOffset : Z)
  : list (tilePaletteKey * Z) :=
  (key entry, startOffset)
  :: (fix childMarks (ns : list nestedEntry) (offset : Z) :=
        match ns with
        | [] => []
        | n :: ns' => marksOf n offset ++ childMarks ns' (offset + size (key n))
        end) (nested entry) startOffset.

Definition childMarks : list nestedEntry -> Z -> list (tilePaletteKey * Z) :=
  fix childMarks (ns : list nestedEntry) (offset : Z) :=
    match ns with
    | [] => []
    | n :: ns' => marksOf n offset ++ childMarks ns' (offset + size (key n))
    end.

(** The colors of the children of an entry, child after child. *)
Definition childColors (ns : list nestedEntry) : list Z :=
  concat (map (fun n => buffer (key n)) ns).

(** An entry packed over a pool: every key in it is well formed; the
    children of a node are keys of the pool, smaller than the node, with
    colors of the node, and no two children share a color. *)
Inductive packed (pool : gset tilePaletteKey) : nestedEntry -> Prop :=
| packed_node k ns :
    wf k ->
    Forall (packed pool) ns ->
    Forall (fun n => key n ∈ pool /\ size (key n) < size k) ns ->
    NoDup (childColors ns) ->
    (forall c, c ∈ childColors ns -> c ∈ buffer k) ->
    packed pool (NestedEntry k ns).

(** What a mark of a packed entry says: the key is the entry's own or a
    smaller key of the pool, and its offset points at a window of the
    entry's bytes that is a rearrangement of the key's colors. *)
Definition goodMark (pool : gset tilePaletteKey) (e : nestedEntry) (off : Z)
    (p : tilePaletteKey * Z) : Prop :=
  wf (fst p)
  /\ (fst p = key e \/ (fst p ∈ pool /\ size (fst p) < size (key e)))
  /\ off <= snd p
  /\ snd p - off + size (fst p) <= size (key e)
  /\ slice (bytesOf e) (snd p - off) (snd p - off + size (fst p)) ≡ₚ buffer (fst p).

(** The sum of the sizes of a set of keys. *)
Definition sumSizes (X : gset tilePaletteKey) : Z :=
  foldr (fun k acc => size k + acc) 0 (elements X).

(** The layout that packs nothing: the colors of every distinct key that
    was registered, key after key. *)
Definition naiveLayout (gen : PaletteLookupGenerator) : list Z :=
  concat (map buffer (elements (dom (keyUses gen)))).

(** The window of the buffer that a start offset gives to a key. *)
Definition window (lookup : PaletteLookup) (k : tilePaletteKey) (s : Z) : list Z :=
  slice (Buffer lookup) s (s + size k).

(** The keys that [Generate] works on: well formed, of three colors or
    more. *)
Definition goodKeys (X : gset tilePaletteKey) : Prop :=
  forall k, k ∈ X -> wf k /\ 3 <= size k.

(** The invariant of [Generate] over the registered keys [regs]: a key is
    still to be placed or has a start; a start gives a window inside the
    buffer that is a rearrangement of the key's colors; the buffer holds
    bytes; and the buffer is no longer than the sizes of the keys placed
    so far. *)
Record generateInv (regs : gset tilePaletteKey)
    (st : PaletteLookup * gset tilePaletteKey) : Prop := {
  inv_placed : forall k, k ∈ regs -> k ∈ snd st \/ is_Some (starts (fst st) !! k);
  inv_window : forall k s, starts (fst st) !! k = Some s ->
    0 <= s /\ s + size k <= Z.of_nat (length (Buffer (fst st)))
    /\ window (fst st) k s ≡ₚ buffer k;
  inv_remainder : snd st ⊆ regs;
  inv_bytes : Forall is_byte (Buffer (fst st));
  inv_length :
    Z.of_nat (length (Buffer (fst st))) + sumSizes (snd st) <= sumSizes regs
}.

(** The generator after [Add] was called on each tile of a list. *)
Definition registerAll (tiles : list (list Z)) : PaletteLookupGenerator :=
  foldl Add newGenerator tiles.

(** The keys that are registered in a generator. *)
Definition registered (gen : PaletteLookupGenerator) : gset tilePaletteKey :=
  dom (keyUses gen).

(** The state of [Generate] when it enters the pass of size [sz]. *)
Definition stateBeforePass (order : list tilePaletteKey -> list tilePaletteKey)
    (gen : PaletteLookupGenerator) (sz : Z)
  : PaletteLookup * gset tilePaletteKey :=
  foldl (sizePass order) ({| Buffer := []; starts := ∅ |}, dom (keyUses gen))
        (filter (fun s => sz < s) passSizes).

(** An order that is [order] except that it is spelled out on the list
    [L] and on the lists of one key or none, which have one order only. *)
Definition fixedOrder (order : list tilePaletteKey -> list tilePaletteKey)
    (L p : list tilePaletteKey) (l : list tilePaletteKey) : list tilePaletteKey :=
  if bool_decide (l = L) then p
  else match l with
       | [] => []
       | [x] => [x]
       | _ => order l
       end.

(** ** Example inputs *)

(** A tile of the colors 3, 7 and 9. *)
Definition tile379 : list Z := [7; 3; 7; 9; 3; 7; 9; 3; 7; 3; 7; 9; 3; 7; 9; 3].

(** A tile of the two colors 5 and 6. *)
Definition tile56 : list Z := [5; 6; 5; 6; 5; 6; 5; 6; 5; 6; 5; 6; 5; 6; 5; 6].

(** Tiles of the colors K1 = {10,20,30,40,50} and K2 = {10,30,50}. *)
Definition tileK1 : list Z :=
  [10; 20; 30; 40; 50; 10; 20; 30; 40; 50; 10; 20; 30; 40; 50; 10].
Definition tileK2 : list Z :=
  [10; 30; 50; 10; 30; 50; 10; 30; 50; 10; 30; 50; 10; 30; 50; 10].

(** Tiles of the colors {1,2,3,4,5}, {1,2,3,4} and {3,4,5}. *)
Definition tile12345 : list Z := [1; 2; 3; 4; 5; 1; 2; 3; 4; 5; 1; 2; 3; 4; 5; 1].
Definition tile1234 : list Z := [1; 2; 3; 4; 1; 2; 3; 4; 1; 2; 3; 4; 1; 2; 3; 4].
Definition tile345 : list Z := [3; 4; 5; 3; 4; 5; 3; 4; 5; 3; 4; 5; 3; 4; 5; 3].

(** The order that visits the keys as [elements] lists them. *)
Definition listedOrder (l : list tilePaletteKey) : list tilePaletteKey := l.

(** A state of [Generate] that holds nothing foreign: the keys with a
    start are registered keys, and the bytes of the buffer are colors of
    registered keys. *)
Definition onlyRegistered (regs : gset tilePaletteKey)
    (st : PaletteLookup * gset tilePaletteKey) : Prop :=
  (forall k, is_Some (starts (fst st) !! k) -> k ∈ regs)
  /\ (forall c, c ∈ Buffer (fst st) -> exists k, k ∈ regs /\ c ∈ buffer k).

(** * Localized resources

    Package [world]: the language of a resource file, told from the name
    of the file. [Language] is a byte; [strings.ToLower] and the order in
    which [range] visits [localizedFilenames] are left open. *)

Definition LangAny : Z := 255.
Definition LangDefault : Z := 0.
Definition LangFrench : Z := 1.
Definition LangGerman : Z := 2.

Definition Languages : list Z := [LangDefault; LangFrench; LangGerman].

Record languageSpecificFilenames := {
  cybstrng : String.string;
  mfdart : String.string;
  citalog : String.string;
  citbark : String.string
}.

Definition hasFilename (spec : languageSpecificFilenames)
    (filename : String.string) : bool :=
  String.eqb (cybstrng spec) filename.

Definition localizedFilenames : gmap Z languageSpecificFilenames :=
  <[LangDefault := {| cybstrng := "cybstrng.res"%string; mfdart := "mfdart.res"%string;
                      citalog := "citalog.res"%string; citbark := "citbark.res"%string |}]>
  (<[LangFrench := {| cybstrng := "frnstrng.res"%string; mfdart := "mfdfrn.res"%string;
                      citalog := "frnalog.res"%string; citbark := "frnbark.res"%string |}]>
  (<[LangGerman := {| cybstrng := "gerstrng.res"%string; mfdart := "mfdger.res"%string;
                      citalog := "geralog.res"%string; citbark := "gerbark.res"%string |}]>
   ∅)).

Section Localize.

(** [resource.Provider]. *)
Variable resourceProvider : Type.

(** [strings.ToLower]. *)
Variable ToLower : String.string -> String.string.

(** The order in which [range localizedFilenames] visits the entries. *)
Variable rangeOrder :
  list (Z * languageSpecificFilenames) -> list (Z * languageSpecificFilenames).

Record LocalizedResources := {
  ID : String.string;
  Language : Z;
  Provider : resourceProvider
}.

Definition LocalizeResourcesByFilename (provider : resourceProvider)
    (filename : String.string) : LocalizedResources :=
  foldl (fun res entry =>
           if hasFilename (snd entry) (ToLower filename)
           then {| ID := ID res; Language := fst entry; Provider := Provider res |}
           else res)
        {| ID := filename; Language := LangAny; Provider := provider |}
        (rangeOrder (map_to_list localizedFilenames)).

End Localize.

Arguments ID {_} _.
Arguments Language {_} _.
Arguments Provider {_} _.

(** * Properties *)

(** ** Words and bits *)

Lemma land_shiftl1 w n :
  0 <= n -> (Z.land w (Z.shiftl 1 n) =? 0) = negb (Z.testbit w n).
Proof.
  intros Hn. destruct (Z.testbit w n) eqn:Hb; simpl.
  - apply Z.eqb_neq. intros H0.
    assert (Hc : Z.testbit (Z.land w (Z.shiftl 1 n)) n = true).
    { rewrite Z.land_spec, Hb, Z.shiftl_spec by lia.
      by rewrite Z.sub_diag. }
    rewrite H0, Z.bits_0 in Hc. discriminate.
  - apply Z.eqb_eq, Z.bits_inj'. intros i Hi.
    rewrite Z.land_spec, Z.bits_0, Z.shiftl_spec by lia.
    destruct (decide (i = n)) as [->|Hne]; [by rewrite Hb|].
    destruct (decide (i < n)) as [Hlt|Hge].
    + rewrite (Z.testbit_neg_r 1) by lia. apply andb_false_r.
    + rewrite (Z.bits_above_log2 1 (i - n)) by (simpl; lia).
      apply andb_false_r.
Qed.
Lemma hasColor_testbit k c :
  hasColor k c = Z.testbit (word (usedColors k) (c / 64)) (c mod 64).
Proof.
  unfold hasColor. rewrite land_shiftl1 by (apply Z.mod_pos_bound; lia).
  apply negb_involutive.
Qed.

Lemma word_set_word a i j v :
  0 <= i < 4 -> 0 <= j < 4 ->
  word (set_word a i v) j = if decide (i = j) then v else word a j.
Proof.
  intros Hi Hj. destruct a as [[[a0 a1] a2] a3]. unfold word, set_word.
  assert (i = 0 \/ i = 1 \/ i = 2 \/ i = 3) as [-> | [-> | [-> | ->]]] by lia;
    assert (j = 0 \/ j = 1 \/ j = 2 \/ j = 3) as [-> | [-> | [-> | ->]]] by lia;
    reflexivity.
Qed.

Lemma word_index_other a i :
  ~ 0 <= i < 4 -> word a i = word a 3.
Proof.
  intros Hi. destruct a as [[[a0 a1] a2] a3]. unfold word.
  repeat case_match; try reflexivity; lia.
Qed.

Lemma byte_word_index c : is_byte c -> 0 <= c / 64 < 4.
Proof.
  intros [Hlo Hhi]. split; [apply Z.div_pos; lia|].
  apply Z.div_lt_upper_bound; lia.
Qed.

Lemma byte_bit_index c : 0 <= c mod 64 < 64.
Proof. apply Z.mod_pos_bound. lia. Qed.

Lemma byte_split c c' : c / 64 = c' / 64 -> c mod 64 = c' mod 64 -> c = c'.
Proof.
  intros Hd Hm. rewrite (Z.div_mod c 64), (Z.div_mod c' 64) by lia. congruence.
Qed.

Lemma hasColor_zeroKey c : hasColor zeroKey c = false.
Proof.
  rewrite hasColor_testbit. simpl. unfold word.
  repeat case_match; apply Z.bits_0.
Qed.

Lemma testbit_lor_shiftl1 w n i :
  0 <= n -> 0 <= i ->
  Z.testbit (Z.lor w (Z.shiftl 1 n)) i = Z.testbit w i || bool_decide (i = n).
Proof.
  intros Hn Hi. rewrite Z.lor_spec, Z.shiftl_spec by lia. f_equal.
  case_bool_decide as Heq.
  - subst. by rewrite Z.sub_diag.
  - destruct (decide (i < n)).
    + apply Z.testbit_neg_r. lia.
    + apply Z.bits_above_log2; simpl; lia.
Qed.

Lemma hasColor_useColor k c c' :
  is_byte c -> is_byte c' ->
  hasColor (useColor k c) c' = hasColor k c' || bool_decide (c' = c).
Proof.
  intros Hc Hc'. unfold useColor. destruct (hasColor k c) eqn:Hk.
  - case_bool_decide; subst; [by rewrite Hk | by rewrite orb_false_r].
  - rewrite !hasColor_testbit. simpl.
    rewrite word_set_word by by apply byte_word_index.
    pose proof (byte_bit_index c). pose proof (byte_bit_index c').
    case_decide as Hw.
    + rewrite testbit_lor_shiftl1 by lia. rewrite Hw. f_equal.
      apply bool_decide_ext. split; [intros; by apply byte_split | by intros ->].
    + rewrite (bool_decide_eq_false_2 (c' = c)) by congruence.
      by rewrite orb_false_r.
Qed.

Lemma key_in_range_zeroKey : key_in_range zeroKey.
Proof.
  intros i. unfold zeroKey, word; simpl. unfold is_uint64.
  repeat case_match; lia.
Qed.

Lemma is_uint64_testbit w :
  0 <= w -> (forall i, 64 <= i -> Z.testbit w i = false) -> is_uint64 w.
Proof.
  intros Hw Hb. split; [done|].
  destruct (decide (w = 0)) as [-> | Hne]; [lia|].
  apply Z.log2_lt_pow2; [lia|].
  destruct (decide (Z.log2 w < 64)) as [|Hge]; [done|].
  pose proof (Z.bit_log2 w ltac:(lia)) as Hl.
  rewrite Hb in Hl; [discriminate | lia].
Qed.

Lemma testbit_uint64_high w i :
  is_uint64 w -> 64 <= i -> Z.testbit w i = false.
Proof.
  intros [Hlo Hhi] Hi. destruct (decide (w = 0)) as [-> | Hne]; [apply Z.bits_0|].
  apply Z.bits_above_log2; [done|].
  assert (Z.log2 w < 64) by (apply Z.log2_lt_pow2; lia). lia.
Qed.

Lemma key_in_range_useColor k c :
  is_byte c -> key_in_range k -> key_in_range (useColor k c).
Proof.
  intros Hc Hk i. unfold useColor. destruct (hasColor k c); [apply Hk|]. simpl.
  pose proof (byte_word_index c Hc) as Hci. pose proof (byte_bit_index c) as Hcb.
  assert (Hnew : is_uint64 (Z.lor (word (usedColors k) (c / 64))
                                  (Z.shiftl 1 (c mod 64)))).
  { apply is_uint64_testbit.
    - apply Z.lor_nonneg. split; [apply Hk | apply Z.shiftl_nonneg; lia].
    - intros j Hj. rewrite testbit_lor_shiftl1 by lia.
      rewrite (testbit_uint64_high _ _ (Hk _) Hj).
      apply bool_decide_eq_false_2. lia. }
  destruct (decide (0 <= i < 4)) as [Hi|Hi].
  - rewrite word_set_word by done. case_decide; [done | apply Hk].
  - rewrite word_index_other by done. rewrite word_set_word by (done || lia).
    case_decide; [done | apply Hk].
Qed.
Lemma land_not64_zero a b :
  is_uint64 b ->
  (Z.land (not64 a) b =? 0) = true <->
  (forall i, 0 <= i < 64 -> Z.testbit b i = true -> Z.testbit a i = true).
Proof.
  intros Hb. rewrite Z.eqb_eq. split.
  - intros H0 i Hi Hbi.
    assert (Hc : Z.testbit (Z.land (not64 a) b) i = false)
      by (rewrite H0; apply Z.bits_0).
    unfold not64 in Hc.
    rewrite Z.land_spec, Z.lxor_spec, Z.ones_spec_low, Hbi in Hc by lia.
    by destruct (Z.testbit a i).
  - intros H. apply Z.bits_inj'. intros i Hi. rewrite Z.bits_0, Z.land_spec.
    destruct (decide (i < 64)) as [Hlt|Hge].
    + destruct (Z.testbit b i) eqn:Hbi; [|apply andb_false_r].
      unfold not64. rewrite Z.lxor_spec, Z.ones_spec_low, (H i) by (done || lia).
      done.
    + rewrite (testbit_uint64_high b i) by (done || lia). apply andb_false_r.
Qed.

Lemma byte_of_word_bit j i :
  0 <= j < 4 -> 0 <= i < 64 ->
  is_byte (64 * j + i) /\ (64 * j + i) / 64 = j /\ (64 * j + i) mod 64 = i.
Proof.
  intros Hj Hi. unfold is_byte. split; [lia|]. split.
  - symmetry. apply (Z.div_unique _ _ _ i); lia.
  - symmetry. apply (Z.mod_unique _ _ j); lia.
Qed.

Lemma contains_spec a b :
  key_in_range b ->
  contains a b = true <->
  (forall c, is_byte c -> hasColor b c = true -> hasColor a c = true).
Proof.
  intros Hb. unfold contains. rewrite !andb_true_iff.
  rewrite !(land_not64_zero _ _ (Hb _)). split.
  - intros [[[H0 H1] H2] H3] c Hc. rewrite !hasColor_testbit.
    pose proof (byte_word_index c Hc) as Hj. pose proof (byte_bit_index c) as Hi.
    assert (c / 64 = 0 \/ c / 64 = 1 \/ c / 64 = 2 \/ c / 64 = 3)
      as [-> | [-> | [-> | ->]]] by lia; auto.
  - intros H. repeat split; intros i Hi.
    + destruct (byte_of_word_bit 0 i) as (Hc & Hd & Hm); [lia | done |].
      specialize (H _ Hc). by rewrite !hasColor_testbit, Hd, Hm in H.
    + destruct (byte_of_word_bit 1 i) as (Hc & Hd & Hm); [lia | done |].
      specialize (H _ Hc). by rewrite !hasColor_testbit, Hd, Hm in H.
    + destruct (byte_of_word_bit 2 i) as (Hc & Hd & Hm); [lia | done |].
      specialize (H _ Hc). by rewrite !hasColor_testbit, Hd, Hm in H.
    + destruct (byte_of_word_bit 3 i) as (Hc & Hd & Hm); [lia | done |].
      specialize (H _ Hc). by rewrite !hasColor_testbit, Hd, Hm in H.
Qed.

(** ** The colors of a key *)

Lemma foldl_append_filter (P : Z -> bool) (l acc : list Z) :
  foldl (fun result i => if P i then result ++ [i] else result) acc l
  = acc ++ filter (fun i => P i) l.
Proof.
  revert acc. induction l as [|x l IH]; intros acc; simpl.
  - by rewrite app_nil_r.
  - rewrite IH. rewrite filter_cons. destruct (P x); simpl.
    + by rewrite <- app_assoc.
    + done.
Qed.

Lemma buffer_filter k :
  buffer k = filter (fun c => hasColor k c) (seqZ 0 256).
Proof. unfold buffer, for256. by rewrite foldl_append_filter. Qed.

Lemma elem_of_buffer k c : c ∈ buffer k <-> is_byte c /\ hasColor k c = true.
Proof.
  rewrite buffer_filter, list_elem_of_filter, elem_of_seqZ, Is_true_true.
  unfold is_byte. intuition lia.
Qed.

Lemma NoDup_buffer k : NoDup (buffer k).
Proof. rewrite buffer_filter. apply NoDup_filter, NoDup_seqZ. Qed.

Lemma Forall_byte_buffer k : Forall is_byte (buffer k).
Proof. apply Forall_forall. intros c Hc. by apply elem_of_buffer in Hc as [? _]. Qed.

Lemma length_buffer_le k : (length (buffer k) <= 256)%nat.
Proof.
  rewrite buffer_filter. etrans; [apply length_filter|].
  by rewrite length_seqZ.
Qed.

Lemma wf_zeroKey : wf zeroKey.
Proof. split; [apply key_in_range_zeroKey | by vm_compute]. Qed.

(** Adding a color that a key lacks puts one more byte into [buffer]. *)
Lemma buffer_useColor_new k c :
  is_byte c -> hasColor k c = false ->
  buffer (useColor k c) ≡ₚ c :: buffer k.
Proof.
  intros Hc Hk. apply NoDup_Permutation.
  - apply NoDup_buffer.
  - constructor; [|apply NoDup_buffer]. rewrite elem_of_buffer. intros [_ ?]. congruence.
  - intros x. rewrite elem_of_cons, !elem_of_buffer. split.
    + intros [Hx Hh]. rewrite hasColor_useColor in Hh by done.
      apply orb_true_iff in Hh as [Hh|Hh]; [by right|].
      left. by apply bool_decide_eq_true in Hh.
    + intros [->|[Hx Hh]]; (split; [done|]); rewrite hasColor_useColor by done.
      * rewrite bool_decide_eq_true_2 by done. apply orb_true_r.
      * by rewrite Hh.
Qed.

Lemma useColor_old k c : hasColor k c = true -> useColor k c = k.
Proof. intros H. unfold useColor. by rewrite H. Qed.

Lemma size_useColor_new k c :
  hasColor k c = false -> size (useColor k c) = size k + 1.
Proof. intros H. unfold useColor. by rewrite H. Qed.

Lemma wf_useColor k c : is_byte c -> wf k -> wf (useColor k c).
Proof.
  intros Hc [Hr Hs]. destruct (hasColor k c) eqn:Hk.
  - by rewrite useColor_old.
  - split; [by apply key_in_range_useColor|].
    rewrite size_useColor_new, (buffer_useColor_new k c) by done.
    rewrite length_cons. lia.
Qed.

Lemma wf_foldl_useColor k l :
  Forall is_byte l -> wf k -> wf (foldl useColor k l).
Proof.
  intros Hl. revert k. induction Hl as [|c l Hc Hl IH]; intros k Hk; simpl.
  - done.
  - apply IH. by apply wf_useColor.
Qed.

Lemma hasColor_foldl_useColor k l c :
  Forall is_byte l -> is_byte c ->
  hasColor (foldl useColor k l) c = hasColor k c || bool_decide (c ∈ l).
Proof.
  intros Hl Hc. revert k. induction Hl as [|x l Hx Hl IH]; intros k; cbn [foldl].
  - rewrite bool_decide_eq_false_2 by apply not_elem_of_nil.
    by rewrite orb_false_r.
  - rewrite IH, hasColor_useColor by done. rewrite <- orb_assoc. f_equal.
    apply eq_true_iff_eq.
    rewrite orb_true_iff, !bool_decide_eq_true, elem_of_cons. done.
Qed.

Lemma wf_keyOfColors l : Forall is_byte l -> wf (keyOfColors l).
Proof. intros Hl. apply wf_foldl_useColor; [done | apply wf_zeroKey]. Qed.

Lemma hasColor_keyOfColors l c :
  Forall is_byte l -> is_byte c ->
  hasColor (keyOfColors l) c = bool_decide (c ∈ l).
Proof.
  intros Hl Hc. unfold keyOfColors.
  by rewrite hasColor_foldl_useColor, hasColor_zeroKey.
Qed.

Lemma elem_of_buffer_keyOfColors l c :
  Forall is_byte l -> c ∈ buffer (keyOfColors l) <-> c ∈ l.
Proof.
  intros Hl. rewrite elem_of_buffer. split.
  - intros [Hc Hh]. rewrite hasColor_keyOfColors in Hh by done.
    by apply bool_decide_eq_true in Hh.
  - intros Hin. assert (is_byte c) by (by eapply Forall_forall in Hl).
    split; [done|]. rewrite hasColor_keyOfColors by done.
    by apply bool_decide_eq_true.
Qed.

Lemma buffer_keyOfColors_NoDup l :
  Forall is_byte l -> NoDup l -> buffer (keyOfColors l) ≡ₚ l.
Proof.
  intros Hl Hnd. apply NoDup_Permutation; [apply NoDup_buffer | done |].
  intros c. by apply elem_of_buffer_keyOfColors.
Qed.

Lemma size_keyOfColors_le l :
  Forall is_byte l -> size (keyOfColors l) <= Z.of_nat (length l).
Proof.
  intros Hl. destruct (wf_keyOfColors l Hl) as [_ ->].
  apply inj_le. apply submseteq_length, NoDup_submseteq; [apply NoDup_buffer|].
  intros c. by rewrite elem_of_buffer_keyOfColors.
Qed.
(** ** Difference and joined buffers *)

Lemma foldl_useColor_filter (P : Z -> bool) (l : list Z) k :
  foldl (fun result i => if P i then useColor result i else result) k l
  = foldl useColor k (filter (fun i => P i) l).
Proof.
  revert k. induction l as [|x l IH]; intros k; [done|].
  cbn [foldl]. rewrite IH, filter_cons. by destruct (P x).
Qed.

Lemma without_keyOfColors a b :
  without a b
  = keyOfColors (filter (fun i => hasColor a i && negb (hasColor b i))
                        (seqZ 0 256)).
Proof. unfold without, for256, keyOfColors. apply foldl_useColor_filter. Qed.

Lemma Forall_byte_filter_seqZ (P : Z -> Prop) `{!forall x, Decision (P x)} :
  Forall is_byte (filter P (seqZ 0 256)).
Proof.
  apply Forall_forall. intros c Hc.
  apply list_elem_of_filter in Hc as [_ Hc]. apply elem_of_seqZ in Hc.
  unfold is_byte. lia.
Qed.

Lemma wf_without a b : wf (without a b).
Proof.
  rewrite without_keyOfColors. apply wf_keyOfColors, Forall_byte_filter_seqZ.
Qed.

Lemma hasColor_without a b c :
  is_byte c ->
  hasColor (without a b) c = hasColor a c && negb (hasColor b c).
Proof.
  intros Hc. rewrite without_keyOfColors.
  rewrite hasColor_keyOfColors by (done || apply Forall_byte_filter_seqZ).
  apply eq_true_iff_eq.
  rewrite bool_decide_eq_true, list_elem_of_filter, elem_of_seqZ, Is_true_true.
  unfold is_byte in Hc. intuition lia.
Qed.

Lemma size_without a b :
  size (without a b)
  = Z.of_nat (length (filter (fun i => hasColor a i && negb (hasColor b i))
                             (seqZ 0 256))).
Proof.
  destruct (wf_without a b) as [_ ->]. f_equal.
  rewrite without_keyOfColors. apply Permutation_length.
  apply buffer_keyOfColors_NoDup; [apply Forall_byte_filter_seqZ|].
  apply NoDup_filter, NoDup_seqZ.
Qed.

Lemma length_filter_split (P Q : Z -> bool) (l : list Z) :
  length (filter (fun i => P i) l)
  = (length (filter (fun i => P i && Q i) l)
     + length (filter (fun i => P i && negb (Q i)) l))%nat.
Proof.
  induction l as [|x l IH]; [done|].
  rewrite !filter_cons. destruct (P x), (Q x); simpl; lia.
Qed.

Lemma size_without_common a b :
  wf a ->
  size (without a b) = size a - Z.of_nat (length (commonColors a b)).
Proof.
  intros [_ Ha]. rewrite size_without, Ha, buffer_filter. unfold commonColors.
  rewrite (length_filter_split (hasColor a) (hasColor b)). lia.
Qed.

Lemma foldl_joined a0 r0 src :
  foldl (fun '(addedColors, result) color =>
           (useColor addedColors color, result ++ [color]))
        (a0, r0) src
  = (foldl useColor a0 src, r0 ++ src).
Proof.
  revert a0 r0. induction src as [|x src IH]; intros a0 r0; cbn [foldl].
  - by rewrite app_nil_r.
  - rewrite IH. by rewrite <- app_assoc.
Qed.

Lemma joinedBuffer_eq k src :
  joinedBuffer k src
  = src ++ filter (fun c => hasColor k c && negb (hasColor (keyOfColors src) c))
                  (seqZ 0 256).
Proof.
  unfold joinedBuffer. rewrite foldl_joined. unfold for256.
  by rewrite foldl_append_filter.
Qed.

(** A source without repetition made of colors of the key is completed to
    a rearrangement of the key's colors. *)
Lemma joinedBuffer_perm k src :
  NoDup src -> (forall c, c ∈ src -> c ∈ buffer k) ->
  joinedBuffer k src ≡ₚ buffer k.
Proof.
  intros Hnd Hsub.
  assert (Hb : Forall is_byte src).
  { apply Forall_forall. intros c Hc. by apply Hsub, elem_of_buffer in Hc as [? _]. }
  assert (Hin : forall c,
    c ∈ filter (fun c => hasColor k c && negb (hasColor (keyOfColors src) c))
               (seqZ 0 256) <-> c ∈ buffer k /\ c ∉ src).
  { intros c. rewrite list_elem_of_filter, elem_of_seqZ, elem_of_buffer, Is_true_true.
    rewrite andb_true_iff, negb_true_iff. split.
    - intros [[Hk Hs] Hc]. assert (is_byte c) by (unfold is_byte; lia).
      rewrite hasColor_keyOfColors in Hs by done.
      apply bool_decide_eq_false in Hs. done.
    - intros [[Hc Hk] Hs]. rewrite hasColor_keyOfColors by done.
      rewrite bool_decide_eq_false. unfold is_byte in Hc. intuition lia. }
  rewrite joinedBuffer_eq. apply NoDup_Permutation.
  - apply NoDup_app. split; [done|]. split; [|apply NoDup_filter, NoDup_seqZ].
    intros c Hc Hf. apply Hin in Hf as [_ Hf]. done.
  - apply NoDup_buffer.
  - intros c. rewrite elem_of_app, Hin. split.
    + intros [Hc|[Hc _]]; [by apply Hsub | done].
    + intros Hc. destruct (decide (c ∈ src)); [by left | by right].
Qed.

Lemma joinedBuffer_prefix k src :
  take (length src) (joinedBuffer k src) = src.
Proof. rewrite joinedBuffer_eq. apply take_app_length. Qed.

(** ** Population count *)

Lemma hasColor_word_bit k j i :
  0 <= j < 4 -> 0 <= i < 64 ->
  hasColor k (64 * j + i) = Z.testbit (word (usedColors k) j) i.
Proof.
  intros Hj Hi. destruct (byte_of_word_bit j i Hj Hi) as (_ & Hd & Hm).
  by rewrite hasColor_testbit, Hd, Hm.
Qed.

Lemma length_filter_chunk k j :
  0 <= j < 4 ->
  Z.of_nat (length (filter (fun c => hasColor k c) (seqZ (64 * j) 64)))
  = popcount (word (usedColors k) j).
Proof.
  intros Hj. unfold popcount. f_equal.
  replace (64 * j) with (64 * j + 0) at 1 by lia.
  rewrite <- fmap_add_seqZ.
  assert (Hgen : forall l : list Z, Forall (fun i => 0 <= i < 64) l ->
    length (filter (fun c => hasColor k c) (Z.add (64 * j) <$> l))
    = length (filter (fun i => Z.testbit (word (usedColors k) j) i) l)).
  { induction 1 as [|x l Hx Hl IH]; [done|].
    rewrite fmap_cons, !filter_cons, hasColor_word_bit by done.
    destruct (Z.testbit _ x); simpl; by rewrite IH. }
  apply Hgen, Forall_seqZ. lia.
Qed.

Lemma length_buffer_popcount k :
  Z.of_nat (length (buffer k))
  = popcount (word (usedColors k) 0) + popcount (word (usedColors k) 1)
    + popcount (word (usedColors k) 2) + popcount (word (usedColors k) 3).
Proof.
  rewrite buffer_filter.
  change 256 with (64 + (64 + (64 + 64))).
  rewrite (seqZ_app 0 64), (seqZ_app (0 + 64) 64),
    (seqZ_app (0 + 64 + 64) 64 64) by lia.
  rewrite !filter_app, !length_app.
  rewrite !Nat2Z.inj_add.
  pose proof (length_filter_chunk k 0 ltac:(lia)) as H0.
  pose proof (length_filter_chunk k 1 ltac:(lia)) as H1.
  pose proof (length_filter_chunk k 2 ltac:(lia)) as H2.
  pose proof (length_filter_chunk k 3 ltac:(lia)) as H3.
  change (64 * 0) with 0 in H0. change (64 * 1) with (0 + 64) in H1.
  change (64 * 2) with (0 + 64 + 64) in H2.
  change (64 * 3) with (0 + 64 + 64 + 64) in H3. lia.
Qed.

Lemma wf_constructed k : constructed k -> wf k.
Proof.
  induction 1 as [|k c Hk IH Hc|a b Ha IHa Hb IHb].
  - apply wf_zeroKey.
  - by apply wf_useColor.
  - apply wf_without.
Qed.

Lemma keyUnion_contains a b :
  key_in_range b -> contains a b = true -> keyUnion a b = a.
Proof.
  intros Hb Hc. unfold keyUnion.
  pose proof (proj1 (contains_spec a b Hb) Hc) as Hsub.
  assert (Hall : Forall (fun c => hasColor a c = true) (buffer b)).
  { apply Forall_forall. intros c Hin. apply elem_of_buffer in Hin as [? ?]. auto. }
  induction Hall as [|c l Hc' Hl IH]; [done|].
  cbn [foldl]. by rewrite useColor_old.
Qed.

Lemma contains_keyUnion a b :
  key_in_range b -> keyUnion a b = a -> contains a b = true.
Proof.
  intros Hb Hu. apply contains_spec; [done|]. intros c Hc Hbc.
  rewrite <- Hu. unfold keyUnion.
  rewrite hasColor_foldl_useColor by (done || apply Forall_byte_buffer).
  rewrite (bool_decide_eq_true_2 (c ∈ buffer b)); [apply orb_true_r|].
  by apply elem_of_buffer.
Qed.
(** ** The mask of a lookup *)

Lemma bitsLen_nonneg x : 0 <= bitsLen x.
Proof.
  unfold bitsLen. case_match; [lia|]. pose proof (Z.log2_nonneg x). lia.
Qed.

Lemma bitsLen_lt_pow2 x : 0 <= x -> x < 2 ^ bitsLen x.
Proof.
  intros Hx. unfold bitsLen. destruct (x <=? 0) eqn:Hle.
  - apply Z.leb_le in Hle. replace x with 0 by lia. done.
  - apply Z.leb_gt in Hle. apply Z.log2_spec. done.
Qed.

Lemma bitsLen_le_4 x : x <= 15 -> bitsLen x <= 4.
Proof.
  intros Hx. unfold bitsLen. case_match; [lia|].
  pose proof (Z.log2_le_mono x 15 Hx) as Hl. change (Z.log2 15) with 3 in Hl. lia.
Qed.

Lemma to_uint_small x : 0 <= x < 2 ^ 64 -> to_uint x = x.
Proof. intros Hx. unfold to_uint. by apply Z.mod_small. Qed.

Lemma land_shiftl_low a v bs :
  0 <= bs -> 0 <= v < 2 ^ bs -> Z.land (Z.shiftl a bs) v = 0.
Proof.
  intros Hbs Hv. apply Z.bits_inj'. intros i Hi.
  rewrite Z.land_spec, Z.bits_0. destruct (decide (i < bs)) as [Hlt|Hge].
  - rewrite Z.shiftl_spec_low by done. done.
  - destruct (decide (v = 0)) as [->|Hne]; [rewrite Z.bits_0; apply andb_false_r|].
    rewrite (Z.bits_above_log2 v i); [apply andb_false_r | lia |].
    assert (Z.log2 v < bs) by (apply Z.log2_lt_pow2; lia). lia.
Qed.

(** One round of the mask loop appends a field below the mask. *)
Lemma mask_step mask v bs m :
  0 <= bs -> 0 <= v < 2 ^ bs -> 0 <= m -> 0 <= mask < 2 ^ m -> m + bs <= 64 ->
  Z.lor (shl64 mask bs) v = mask * 2 ^ bs + v.
Proof.
  intros Hbs Hv Hm Hmask Hle. unfold shl64.
  assert (Hpow : 2 ^ m * 2 ^ bs <= 2 ^ 64).
  { rewrite <- Z.pow_add_r by lia. apply Z.pow_le_mono_r; lia. }
  assert (Hsh : Z.shiftl mask bs = mask * 2 ^ bs) by (apply Z.shiftl_mul_pow2; lia).
  rewrite Z.land_ones by lia. rewrite Z.mod_small.
  - rewrite <- Z.lxor_lor by (by apply land_shiftl_low).
    rewrite <- Z.add_nocarry_lxor by (by apply land_shiftl_low). by rewrite Hsh.
  - rewrite Hsh. nia.
Qed.

Section MaskLoop.

Variables (tile mapped : list Z) (bs : Z).
Hypothesis Hbs : 0 <= bs.

Lemma maskLoop_shiftr (n : nat) :
  (forall i, (i < n)%nat -> 0 <= mapped !!! Z.to_nat (tile !!! i) < 2 ^ bs) ->
  Z.of_nat n * bs <= 64 ->
  forall mask, 0 <= mask < 2 ^ (64 - Z.of_nat n * bs) ->
  Z.shiftr (maskLoop tile mapped bs n mask) (Z.of_nat n * bs) = mask.
Proof.
  induction n as [|n IH]; intros Hf Hn mask Hmask.
  - simpl. apply Z.shiftr_0_r.
  - cbn [maskLoop].
    assert (Hv : 0 <= mapped !!! Z.to_nat (tile !!! n) < 2 ^ bs) by (apply Hf; lia).
    pose proof (mask_step mask (mapped !!! Z.to_nat (tile !!! n)) bs (64 - Z.of_nat (S n) * bs)
                  Hbs Hv ltac:(lia) Hmask ltac:(lia)) as Hstep.
    replace (Z.of_nat (S n) * bs) with (Z.of_nat n * bs + bs) by lia.
    rewrite <- Z.shiftr_shiftr by lia.
    rewrite IH.
    + rewrite Hstep, Z.shiftr_div_pow2 by lia.
      rewrite Z.div_add_l by lia. rewrite Z.div_small by lia. lia.
    + intros i Hi. apply Hf. lia.
    + lia.
    + rewrite Hstep.
      assert (2 ^ (64 - Z.of_nat n * bs)
              = 2 ^ (64 - Z.of_nat (S n) * bs) * 2 ^ bs) as ->.
      { rewrite <- Z.pow_add_r by lia. f_equal. lia. }
      nia.
Qed.

Lemma maskLoop_field (n : nat) :
  (forall i, (i < n)%nat -> 0 <= mapped !!! Z.to_nat (tile !!! i) < 2 ^ bs) ->
  Z.of_nat n * bs <= 64 ->
  forall mask i, 0 <= mask < 2 ^ (64 - Z.of_nat n * bs) -> (i < n)%nat ->
  pixelIndex (maskLoop tile mapped bs n mask) bs i = mapped !!! Z.to_nat (tile !!! i).
Proof.
  induction n as [|n IH]; intros Hf Hn mask i Hmask Hi; [lia|].
  cbn [maskLoop].
  assert (Hv : 0 <= mapped !!! Z.to_nat (tile !!! n) < 2 ^ bs) by (apply Hf; lia).
  pose proof (mask_step mask (mapped !!! Z.to_nat (tile !!! n)) bs (64 - Z.of_nat (S n) * bs)
                Hbs Hv ltac:(lia) Hmask ltac:(lia)) as Hstep.
  assert (Hmask' : 0 <= Z.lor (shl64 mask bs) (mapped !!! Z.to_nat (tile !!! n))
                   < 2 ^ (64 - Z.of_nat n * bs)).
  { rewrite Hstep.
    assert (2 ^ (64 - Z.of_nat n * bs)
            = 2 ^ (64 - Z.of_nat (S n) * bs) * 2 ^ bs) as ->.
    { rewrite <- Z.pow_add_r by lia. f_equal. lia. }
    nia. }
  destruct (decide (i = n)) as [->|Hne].
  - unfold pixelIndex. rewrite maskLoop_shiftr; [| intros; apply Hf; lia | lia | done].
    rewrite Z.shiftl_1_l.
    replace (2 ^ bs - 1) with (Z.ones bs) by (rewrite Z.ones_equiv; lia).
    rewrite Z.land_ones by lia.
    rewrite Hstep, Z.add_comm, Z.mod_add by lia. apply Z.mod_small. done.
  - apply IH; [intros; apply Hf; lia | lia | done | lia].
Qed.

End MaskLoop.

Lemma mappedOf_loop pal : forall (n : Z) (m : list Z) (c : Z),
  NoDup pal -> Forall is_byte pal -> length m = 256%nat -> is_byte c ->
  let r := snd (foldl (fun '(mappedIndex, mapped) b =>
                (mappedIndex + 1, <[Z.to_nat b := mappedIndex mod 256]> mapped))
             (n, m) pal) in
  (forall j, pal !! j = Some c -> r !!! Z.to_nat c = (n + Z.of_nat j) mod 256)
  /\ (c ∉ pal -> r !!! Z.to_nat c = m !!! Z.to_nat c).
Proof.
  induction pal as [|b pal IH]; intros n m c Hnd Hb Hm Hc r.
  - split; [intros j Hj; by rewrite lookup_nil in Hj | done].
  - apply NoDup_cons in Hnd as [Hnb Hnd]. apply Forall_cons in Hb as [Hbb Hb].
    subst r. cbn [foldl].
    destruct (IH (n + 1) (<[Z.to_nat b := n mod 256]> m) c Hnd Hb
                ltac:(by rewrite length_insert) Hc) as [IH1 IH2].
    split.
    + intros [|j] Hj.
      * simpl in Hj. injection Hj as ->. rewrite IH2 by done.
        rewrite list_lookup_total_insert_eq by (unfold is_byte in Hc; lia).
        f_equal. lia.
      * simpl in Hj. rewrite (IH1 j Hj). f_equal. lia.
    + intros Hnin. apply not_elem_of_cons in Hnin as [Hne Hnin].
      rewrite IH2 by done. apply list_lookup_total_insert_ne.
      unfold is_byte in *. lia.
Qed.

Lemma mappedOf_lookup pal j c :
  NoDup pal -> Forall is_byte pal -> (length pal <= 256)%nat ->
  pal !! j = Some c -> mappedOf pal !!! Z.to_nat c = Z.of_nat j.
Proof.
  intros Hnd Hb Hlen Hj.
  assert (Hc : is_byte c).
  { eapply Forall_forall in Hb; [done|]. by eapply list_elem_of_lookup_2. }
  destruct (mappedOf_loop pal 0 (replicate 256 0) c Hnd Hb
              ltac:(by rewrite length_replicate) Hc) as [H1 _].
  unfold mappedOf. rewrite (H1 j Hj). apply lookup_lt_Some in Hj.
  apply Z.mod_small. lia.
Qed.
(** The mask that [Lookup] builds for a tile over a palette that lists the
    tile's colors once each reads back as the tile. *)
Lemma mask_roundtrip pal tile :
  is_tile tile -> NoDup pal -> Forall is_byte pal ->
  (forall c, c ∈ tile -> c ∈ pal) ->
  Z.of_nat (length pal) = size (keyOfColors tile) ->
  reconstruct pal
    (maskLoop tile (mappedOf pal)
       (bitsLen (to_uint (size (keyOfColors tile) - 1)))
       (Z.to_nat PixelPerTile) 0)
    (bitsLen (size (keyOfColors tile) - 1)) = Some tile.
Proof.
  intros [Hlen Hbytes] Hnd Hpal Hsub Hsize.
  set (s := size (keyOfColors tile)) in *.
  pose proof (size_keyOfColors_le tile Hbytes) as Hle. fold s in Hle.
  unfold PixelPerTile in *.
  assert (Hs1 : 1 <= s).
  { destruct tile as [|c tile]; [simpl in Hlen; lia|].
    pose proof (Hsub c ltac:(left)) as Hin.
    destruct pal; [by apply elem_of_nil in Hin | simpl in Hsize; lia]. }
  rewrite to_uint_small by lia.
  set (bs := bitsLen (s - 1)).
  assert (Hbs0 : 0 <= bs) by apply bitsLen_nonneg.
  assert (Hbs4 : bs <= 4) by (apply bitsLen_le_4; lia).
  assert (Hpow : s - 1 < 2 ^ bs) by (apply bitsLen_lt_pow2; lia).
  assert (Hfield : forall i c, tile !! i = Some c ->
    exists j, pal !! j = Some c /\
              mappedOf pal !!! Z.to_nat (tile !!! i) = Z.of_nat j /\
              0 <= Z.of_nat j < 2 ^ bs).
  { intros i c Hi. pose proof (Hsub c (list_elem_of_lookup_2 _ _ _ Hi)) as Hin.
    apply list_elem_of_lookup_1 in Hin as [j Hj]. exists j. split; [done|].
    rewrite (list_lookup_total_correct _ _ _ Hi).
    rewrite (mappedOf_lookup pal j c) by (done || lia).
    apply lookup_lt_Some in Hj. lia. }
  unfold reconstruct, PixelPerTile. apply mapM_Some.
  apply Forall2_same_length_lookup_2; [rewrite length_seq; lia|].
  intros i x c Hx Hi. apply lookup_seq in Hx as [Hx Hlt].
  simpl in Hx, Hlt. subst x.
  rewrite (maskLoop_field tile (mappedOf pal) bs Hbs0 (Z.to_nat 16)).
  - destruct (Hfield i c Hi) as (j & Hj & -> & _). by rewrite Nat2Z.id.
  - intros i' Hi'. destruct (lookup_lt_is_Some_2 tile i' ltac:(lia)) as [c' Hc'].
    destruct (Hfield i' c' Hc') as (j & _ & -> & Hb). done.
  - lia.
  - split; [lia|]. apply Z.pow_pos_nonneg; lia.
  - lia.
Qed.

Lemma constructed_keyOfColors l : Forall is_byte l -> constructed (keyOfColors l).
Proof.
  intros Hl. unfold keyOfColors.
  assert (Hgen : forall k, constructed k -> constructed (foldl useColor k l)).
  { induction Hl as [|c l Hc Hl IH]; intros k Hk; [done|].
    cbn [foldl]. apply IH. by constructor. }
  apply Hgen. constructor.
Qed.

(** C7. Bitset laws: for keys built by the operations of the source,
    [a.contains(b)] holds exactly when the union of [a] and [b] is [a];
    the size of [a.without(b)] is the size of [a] less the number of
    colors that [a] and [b] share; and the cached size of every such key is
    the population count of its four words. *)
Theorem bitset_laws (a b : tilePaletteKey) :
  constructed a -> constructed b ->
  (contains a b = true <-> keyUnion a b = a)
  /\ size (without a b) = size a - Z.of_nat (length (commonColors a b))
  /\ (forall k, constructed k -> size k = totalPopcount k).
Proof.
  intros Ha Hb. pose proof (wf_constructed a Ha) as Hwa.
  pose proof (wf_constructed b Hb) as [Hrb _]. repeat split.
  - by apply keyUnion_contains.
  - by apply contains_keyUnion.
  - by apply size_without_common.
  - intros k Hk. destruct (wf_constructed k Hk) as [_ ->].
    apply length_buffer_popcount.
Qed.

Lemma bitset_laws_witness :
  (constructed (keyOfColors [10; 20; 30; 40; 50])
   /\ constructed (keyOfColors [10; 30; 50; 70]))
  /\ ((contains (keyOfColors [10; 20; 30; 40; 50]) (keyOfColors [10; 30; 50; 70])
       = true
       <-> keyUnion (keyOfColors [10; 20; 30; 40; 50]) (keyOfColors [10; 30; 50; 70])
           = keyOfColors [10; 20; 30; 40; 50])
      /\ size (without (keyOfColors [10; 20; 30; 40; 50])
                       (keyOfColors [10; 30; 50; 70]))
         = size (keyOfColors [10; 20; 30; 40; 50])
           - Z.of_nat (length (commonColors (keyOfColors [10; 20; 30; 40; 50])
                                            (keyOfColors [10; 30; 50; 70])))
      /\ (forall k, constructed k -> size k = totalPopcount k)).
Proof.
  assert (H1 : constructed (keyOfColors [10; 20; 30; 40; 50])).
  { apply constructed_keyOfColors. repeat constructor; unfold is_byte; lia. }
  assert (H2 : constructed (keyOfColors [10; 30; 50; 70])).
  { apply constructed_keyOfColors. repeat constructor; unfold is_byte; lia. }
  split; [by split|]. exact (bitset_laws _ _ H1 H2).
Defined.
Lemma StronglySorted_seqZ (len : nat) :
  forall m, StronglySorted Z.lt (seqZ m (Z.of_nat len)).
Proof.
  induction len as [|len IH]; intros m.
  - rewrite seqZ_nil by lia. constructor.
  - rewrite seqZ_cons by lia.
    replace (Z.pred (Z.of_nat (S len))) with (Z.of_nat len) by lia.
    constructor; [apply IH|]. apply Forall_seqZ. lia.
Qed.

Lemma StronglySorted_filter_lt (P : Z -> Prop) `{!forall x, Decision (P x)} l :
  StronglySorted Z.lt l -> StronglySorted Z.lt (filter P l).
Proof.
  induction 1 as [|x l Hl IH Hx]; [constructor|].
  rewrite filter_cons. case_decide; [|done].
  constructor; [done|]. apply Forall_forall. intros y Hy.
  apply list_elem_of_filter in Hy as [_ Hy].
  by eapply Forall_forall in Hx.
Qed.

Lemma buffer_sorted k : StronglySorted Z.lt (buffer k).
Proof.
  rewrite buffer_filter. apply StronglySorted_filter_lt.
  apply (StronglySorted_seqZ 256).
Qed.

(** C10. A tile whose key is not in [starts] is still reproduced by what
    [Lookup] returns: the palette is [key.buffer()], the tile's distinct
    colors in ascending order, and reading [PixelPerTile] fields of
    [bitLength(key.size - 1)] bits from the mask gives back the tile. *)
Theorem lookup_miss_roundtrip (lookup : PaletteLookup) (tile : list Z) :
  is_tile tile ->
  starts lookup !! keyOfColors tile = None ->
  let '(_, pal, mask) := Lookup lookup tile in
  pal = buffer (keyOfColors tile)
  /\ StronglySorted Z.lt pal
  /\ (forall c, c ∈ pal <-> c ∈ tile)
  /\ reconstruct pal mask (bitsLen (size (keyOfColors tile) - 1)) = Some tile.
Proof.
  intros Htile Hmiss. unfold Lookup. rewrite Hmiss.
  pose proof Htile as [_ Hbytes].
  split; [done|]. split; [apply buffer_sorted|].
  split; [intros c; by apply elem_of_buffer_keyOfColors|].
  apply mask_roundtrip.
  - done.
  - apply NoDup_buffer.
  - apply Forall_byte_buffer.
  - intros c Hc. by apply elem_of_buffer_keyOfColors.
  - by destruct (wf_keyOfColors tile Hbytes) as [_ ->].
Qed.
(** ** Nested entries *)

Lemma nestedEntry_nested_ind (P : nestedEntry -> Prop) :
  (forall k ns, Forall P ns -> P (NestedEntry k ns)) -> forall e, P e.
Proof.
  intros Hnode. fix IH 1. intros [k ns]. apply Hnode.
  induction ns as [|n ns IHns]; constructor; [apply IH | exact IHns].
Qed.

Lemma marksOf_unfold e off :
  marksOf e off = (key e, off) :: childMarks (nested e) off.
Proof. by destruct e. Qed.

Lemma bytesOf_unfold e :
  bytesOf e = joinedBuffer (key e) (concat (map bytesOf (nested e))).
Proof. by destruct e. Qed.

Lemma extractBuffer_spec {St : Type} (marker : tilePaletteKey -> Z -> St -> St) e :
  forall off st,
  extractBuffer e off marker st
  = (bytesOf e, foldl (fun st p => marker (fst p) (snd p) st) st (marksOf e off)).
Proof.
  induction e as [k ns IH] using nestedEntry_nested_ind. intros off st.
  rewrite marksOf_unfold, bytesOf_unfold. cbn [extractBuffer key nested foldl fst snd].
  set (st0 := marker k off st). clearbody st0.
  assert (Hloop : forall nb rel st1,
    foldl (fun '(nestedBuffer, relativeOffset, st) n =>
             let '(bufferPart, st) :=
               extractBuffer n (off + relativeOffset) marker st in
             (nestedBuffer ++ bufferPart, relativeOffset + size (key n), st))
          (nb, rel, st1) ns
    = (nb ++ concat (map bytesOf ns),
       rel + foldr (fun n acc => size (key n) + acc) 0 ns,
       foldl (fun st p => marker (fst p) (snd p) st) st1
             (childMarks ns (off + rel)))).
  { induction IH as [|n ns Hn Hns IHns]; intros nb rel st1.
    - cbn. rewrite app_nil_r. do 2 f_equal. lia.
    - cbn [foldl map concat foldr childMarks]. rewrite Hn, IHns.
      replace (off + (rel + size (key n))) with (off + rel + size (key n))
        by lia.
      rewrite foldl_app, <- app_assoc. f_equal. f_equal. lia. }
  rewrite Hloop. cbn [app]. by rewrite Z.add_0_r.
Qed.

Lemma entryBuffer_bytesOf e : entryBuffer e = bytesOf e.
Proof. unfold entryBuffer. by rewrite extractBuffer_spec. Qed.

Lemma slice_length l lo hi :
  0 <= lo -> lo <= hi -> hi <= Z.of_nat (length l) ->
  Z.of_nat (length (slice l lo hi)) = hi - lo.
Proof.
  intros. unfold slice. rewrite length_take, length_drop. lia.
Qed.

Lemma slice_app_l l1 l2 lo hi :
  0 <= lo -> hi <= Z.of_nat (length l1) ->
  slice (l1 ++ l2) lo hi = slice l1 lo hi.
Proof.
  intros H0 Hhi. unfold slice. destruct (decide (lo <= hi)) as [Hle|Hgt].
  - rewrite drop_app_le by lia. rewrite take_app_le; [done|].
    rewrite length_drop. lia.
  - replace (Z.to_nat (hi - lo)) with 0%nat by lia. done.
Qed.

Lemma slice_app_r l1 l2 lo hi :
  0 <= lo ->
  slice (l1 ++ l2) (Z.of_nat (length l1) + lo) (Z.of_nat (length l1) + hi)
  = slice l2 lo hi.
Proof.
  intros Hlo. unfold slice.
  replace (Z.of_nat (length l1) + hi - (Z.of_nat (length l1) + lo))
    with (hi - lo) by lia.
  replace (Z.to_nat (Z.of_nat (length l1) + lo))
    with (length l1 + Z.to_nat lo)%nat by lia.
  by rewrite drop_app_add.
Qed.

Lemma slice_all l : slice l 0 (Z.of_nat (length l)) = l.
Proof.
  unfold slice. rewrite Z.sub_0_r, Nat2Z.id. simpl. rewrite drop_0.
  apply firstn_all.
Qed.

Lemma wf_size_length k : wf k -> size k = Z.of_nat (length (buffer k)).
Proof. by intros [_ ?]. Qed.

Lemma childColors_cons n ns :
  childColors (n :: ns) = buffer (key n) ++ childColors ns.
Proof. done. Qed.

Lemma childColors_snoc ns n :
  childColors (ns ++ [n]) = childColors ns ++ buffer (key n).
Proof.
  unfold childColors. rewrite map_app, concat_app. cbn [map concat].
  by rewrite app_nil_r.
Qed.

Lemma packed_inv pool k ns :
  packed pool (NestedEntry k ns) ->
  wf k /\ Forall (packed pool) ns
  /\ Forall (fun n => key n ∈ pool /\ size (key n) < size k) ns
  /\ NoDup (childColors ns)
  /\ (forall c, c ∈ childColors ns -> c ∈ buffer k).
Proof. by inversion 1. Qed.

Lemma packed_wf pool e : packed pool e -> wf (key e).
Proof. by inversion 1. Qed.

(** The bytes of a packed entry are the colors of its key, each once. *)
Lemma bytesOf_perm pool e : packed pool e -> bytesOf e ≡ₚ buffer (key e).
Proof.
  induction e as [k ns IH] using nestedEntry_nested_ind. intros Hp.
  apply packed_inv in Hp as (Hk & Hns & _ & Hnd & Hsub).
  rewrite bytesOf_unfold. cbn [key nested].
  assert (Hperm : concat (map bytesOf ns) ≡ₚ childColors ns).
  { clear Hnd Hsub. unfold childColors.
    induction IH as [|n ns Hn _ IHns]; [done|].
    apply Forall_cons in Hns as [Hpn Hns]. cbn [map concat].
    by rewrite (Hn Hpn), (IHns Hns). }
  apply joinedBuffer_perm.
  - by rewrite Hperm.
  - intros c Hc. apply Hsub. by rewrite <- Hperm.
Qed.

Lemma bytesOf_length pool e :
  packed pool e -> Z.of_nat (length (bytesOf e)) = size (key e).
Proof.
  intros Hp. rewrite (bytesOf_perm pool e Hp).
  symmetry. apply wf_size_length. by eapply packed_wf.
Qed.

Lemma childMarks_good pool k ns :
  Forall (fun n => forall off p, p ∈ marksOf n off -> goodMark pool n off p) ns ->
  Forall (packed pool) ns ->
  Forall (fun n => key n ∈ pool /\ size (key n) < size k) ns ->
  forall off p, p ∈ childMarks ns off ->
  wf (fst p) /\ (fst p ∈ pool /\ size (fst p) < size k)
  /\ off <= snd p
  /\ snd p - off + size (fst p) <= Z.of_nat (length (concat (map bytesOf ns)))
  /\ slice (concat (map bytesOf ns)) (snd p - off) (snd p - off + size (fst p))
     ≡ₚ buffer (fst p).
Proof.
  induction 1 as [|n ns Hn _ IH]; intros Hp Hk off p Hin.
  - by apply elem_of_nil in Hin.
  - apply Forall_cons in Hp as [Hpn Hp]. apply Forall_cons in Hk as [[Hkn Hsn] Hk].
    pose proof (bytesOf_length pool n Hpn) as Hlen.
    pose proof (packed_wf pool n Hpn) as Hwn.
    assert (0 <= size (key n)) by (rewrite (wf_size_length _ Hwn); lia).
    cbn [childMarks map concat] in *. rewrite length_app.
    apply elem_of_app in Hin as [Hin|Hin].
    + destruct (Hn off p Hin) as (Hw & Hor & Hoff & Hend & Hsl).
      split; [done|]. split.
      { destruct Hor as [->|[? ?]]; [done | split; [done | lia]]. }
      split; [done|]. split; [lia|].
      rewrite slice_app_l by lia. done.
    + destruct (IH Hp Hk _ p Hin) as (Hw & Hor & Hoff & Hend & Hsl).
      split; [done|]. split; [done|]. split; [lia|]. split; [lia|].
      replace (snd p - off)
        with (Z.of_nat (length (bytesOf n)) + (snd p - (off + size (key n))))
        by lia.
      rewrite <- Z.add_assoc, slice_app_r by lia. done.
Qed.

Lemma marksOf_good pool e :
  packed pool e -> forall off p, p ∈ marksOf e off -> goodMark pool e off p.
Proof.
  induction e as [k ns IH] using nestedEntry_nested_ind. intros Hp off p Hin.
  pose proof (bytesOf_length pool _ Hp) as Hlen.
  pose proof (bytesOf_perm pool _ Hp) as Hperm.
  pose proof Hp as (Hk & Hns & Hkeys & Hnd & Hsub)%packed_inv.
  assert (IH' : Forall (fun n => forall off p, p ∈ marksOf n off ->
                          goodMark pool n off p) ns).
  { apply Forall_forall. intros n Hn off' p' Hp'.
    eapply Forall_forall in IH; [|done]. apply IH; [|done].
    by eapply Forall_forall in Hns. }
  rewrite marksOf_unfold in Hin. cbn [key nested] in *.
  apply elem_of_cons in Hin as [->|Hin]; unfold goodMark; cbn [fst snd key].
  - split; [done|]. split; [by left|]. split; [lia|]. split; [lia|].
    rewrite Z.sub_diag, Z.add_0_l, <- Hlen, slice_all. done.
  - destruct (childMarks_good pool k ns IH' Hns Hkeys off p Hin)
      as (Hw & Hor & Hoff & Hend & Hsl).
    rewrite bytesOf_unfold in Hlen |- *. cbn [key nested] in *.
    rewrite joinedBuffer_eq in Hlen |- *. rewrite length_app in Hlen.
    split; [done|]. split; [by right|]. split; [done|]. split; [lia|].
    rewrite slice_app_l by lia. done.
Qed.

Lemma marksOf_head e off : (key e, off) ∈ marksOf e off.
Proof. rewrite marksOf_unfold. left. Qed.
(** ** Populating an entry *)

Section PopulateProperties.

Variable order : list tilePaletteKey -> list tilePaletteKey.
Hypothesis order_perm : forall l, order l ≡ₚ l.

Lemma elem_of_order l x : x ∈ order l <-> x ∈ l.
Proof. by rewrite order_perm. Qed.

Lemma elem_of_rangeKeys (m : gset tilePaletteKey) x :
  x ∈ rangeKeys order m <-> x ∈ m.
Proof. unfold rangeKeys. by rewrite elem_of_order, elem_of_elements. Qed.

Lemma NoDup_rangeKeys (m : gset tilePaletteKey) : NoDup (rangeKeys order m).
Proof. unfold rangeKeys. rewrite order_perm. apply NoDup_elements. Qed.

Lemma keep_largest_spec (results : list nestedEntry) acc :
  let r := foldl (fun '(maxByteSize, maxNested) n =>
                    let nestedSize := byteSize n in
                    if maxByteSize <? nestedSize then (nestedSize, Some n)
                    else (maxByteSize, maxNested)) acc results in
  r = acc \/ exists n, n ∈ results /\ snd r = Some n.
Proof.
  induction results as [|x results IH] using rev_ind; [by left|].
  cbn zeta in *. rewrite foldl_app. cbn [foldl].
  destruct (foldl _ acc results) as [mb mn] eqn:Hf.
  destruct (mb <? byteSize x).
  - right. exists x. split; [|done]. apply elem_of_app. right. left.
  - destruct IH as [->|(n & Hn & Hs)]; [by left|].
    right. exists n. split; [|done]. apply elem_of_app. by left.
Qed.

Section Cache.

Variable keys : gset tilePaletteKey.
Variable query : tilePaletteKey -> nestedEntry.

Lemma collectResults_spec remainingKey keySize acc :
  let r := collectResults order keys query remainingKey keySize acc in
  r = acc \/
  exists o, o ∈ keys /\ size o = keySize /\ contains remainingKey o = true
            /\ snd r = Some (query o).
Proof.
  unfold collectResults.
  destruct (keep_largest_spec
    (query <$> order (filter (fun otherKey =>
        size otherKey = keySize /\ contains remainingKey otherKey)
        (rangeKeys order keys))) acc) as [H|(n & Hn & Hs)]; [by left|].
  right. apply list_elem_of_fmap in Hn as (o & -> & Ho).
  apply elem_of_order, list_elem_of_filter in Ho as [[Hsz Hc] Ho].
  apply elem_of_rangeKeys in Ho. apply Is_true_true in Hc. by exists o.
Qed.

Lemma populateRemainingLoop_found fuel remainingKey keySize acc :
  is_Some (snd acc) ->
  populateRemainingLoop order keys query fuel remainingKey keySize acc = acc.
Proof.
  intros Hs. destruct fuel; [done|]. cbn [populateRemainingLoop].
  rewrite (bool_decide_eq_true_2 _ Hs). by rewrite andb_false_r.
Qed.

Lemma populateRemainingLoop_spec fuel remainingKey : forall keySize acc,
  snd acc = None ->
  let r := populateRemainingLoop order keys query fuel remainingKey keySize acc in
  snd r = None \/
  exists o, o ∈ keys /\ 2 < size o <= keySize /\ contains remainingKey o = true
            /\ snd r = Some (query o).
Proof.
  induction fuel as [|fuel IH]; intros keySize acc Hacc; [by left|].
  cbn [populateRemainingLoop]. rewrite Hacc.
  rewrite bool_decide_eq_false_2 by (by intros [? ?]). rewrite andb_true_r.
  destruct (2 <? keySize) eqn:Hk; [|by left]. apply Z.ltb_lt in Hk.
  destruct (collectResults_spec remainingKey keySize acc)
    as [->|(o & Ho & Hsz & Hc & Hs)].
  - destruct (IH (keySize - 1) acc Hacc) as [H|(o & Ho & Hsz & Hc & Hs)];
      [by left|].
    right. exists o. repeat split; try done; lia.
  - rewrite populateRemainingLoop_found by (by rewrite Hs).
    right. exists o. repeat split; try done; lia.
Qed.

Lemma populateRemaining_spec entry remainingKey startSize :
  populateRemaining order keys query entry remainingKey startSize
  = (entry, zeroKey, false)
  \/ exists o, o ∈ keys /\ 2 < size o <= startSize
       /\ contains remainingKey o = true
       /\ populateRemaining order keys query entry remainingKey startSize
          = (NestedEntry (key entry) (nested entry ++ [query o]),
             key (query o), true).
Proof.
  unfold populateRemaining.
  destruct (populateRemainingLoop_spec (Z.to_nat startSize) remainingKey
              startSize (0, None) eq_refl) as [->|(o & Ho & Hsz & Hc & ->)].
  - by left.
  - right. by exists o.
Qed.

Lemma populateLoop_stopped fuel entry remainingKey keySearchSize :
  populateLoop order keys query fuel entry remainingKey false keySearchSize
  = entry.
Proof. destruct fuel; [done|]. cbn [populateLoop]. by rewrite andb_false_r. Qed.

Hypothesis keys_wf : forall o, o ∈ keys -> wf o.
Hypothesis query_packed :
  forall o, wf o -> packed keys (query o) /\ key (query o) = o.

Lemma populateLoop_packed k fuel : forall entry remainingKey keySearchSize,
  key entry = k -> packed keys entry -> wf remainingKey ->
  (forall c, c ∈ buffer remainingKey ->
             c ∈ buffer k /\ c ∉ childColors (nested entry)) ->
  keySearchSize < size k -> size remainingKey <= size k ->
  let r := populateLoop order keys query fuel entry remainingKey true
             keySearchSize in
  packed keys r /\ key r = k.
Proof.
  induction fuel as [|fuel IH];
    intros entry rk ss Hkey Hp Hrk Hcol Hss Hsz; [done|].
  cbn [populateLoop]. rewrite andb_true_r.
  destruct (2 <? size rk); [|done].
  destruct (populateRemaining_spec entry rk ss)
    as [->|(o & Ho & Hso & Hc & ->)].
  - by rewrite populateLoop_stopped.
  - destruct (query_packed o (keys_wf o Ho)) as [Hpo Hko]. rewrite Hko.
    destruct entry as [k' ns]. cbn [key nested] in *. subst k'.
    apply packed_inv in Hp as (Hk & Hns & Hkeys & Hnd & Hsub).
    pose proof (keys_wf o Ho) as [Hro Hsizeo].
    assert (Hsubo : forall c, c ∈ buffer o -> c ∈ buffer rk).
    { intros c [Hc1 Hc2]%elem_of_buffer. apply elem_of_buffer. split; [done|].
      by apply (proj1 (contains_spec rk o Hro) Hc). }
    assert (Hcommon : (1 <= length (commonColors rk o))%nat).
    { assert (Hex : exists c, c ∈ buffer o).
      { destruct (buffer o) as [|c l]; [simpl in Hsizeo; lia|]. exists c. left. }
      destruct Hex as [c Hco].
      assert (Hin : c ∈ commonColors rk o).
      { pose proof (Hsubo c Hco) as [Hc1 Hc2]%elem_of_buffer.
        apply elem_of_buffer in Hco as [_ Hc3].
        unfold commonColors. apply list_elem_of_filter. split.
        - apply Is_true_true. by rewrite Hc2, Hc3.
        - apply elem_of_seqZ. unfold is_byte in Hc1. lia. }
      destruct (commonColors rk o); [by apply elem_of_nil in Hin | simpl; lia]. }
    pose proof (size_without_common rk o Hrk) as Hsw.
    apply IH; cbn [key nested].
    + done.
    + constructor.
      * done.
      * apply Forall_app. split; [done | by constructor].
      * apply Forall_app. split; [done|]. constructor; [|done].
        rewrite Hko. split; [done | lia].
      * rewrite childColors_snoc, Hko. apply NoDup_app. split; [done|].
        split; [|apply NoDup_buffer].
        intros c Hc1 Hc2. by destruct (Hcol c (Hsubo c Hc2)).
      * intros c. rewrite childColors_snoc, Hko, elem_of_app.
        intros [Hc1|Hc1]; [by apply Hsub|]. by destruct (Hcol c (Hsubo c Hc1)).
    + apply wf_without.
    + intros c [Hc1 Hc2]%elem_of_buffer.
      rewrite hasColor_without in Hc2 by done.
      apply andb_true_iff in Hc2 as [Hc2 Hc3]. apply negb_true_iff in Hc3.
      assert (Hcrk : c ∈ buffer rk) by (by apply elem_of_buffer).
      destruct (Hcol c Hcrk) as [Hck Hcn]. split; [done|].
      rewrite childColors_snoc, Hko, elem_of_app. intros [?|Hco]; [done|].
      apply elem_of_buffer in Hco as [_ Hco]. congruence.
    + lia.
    + lia.
Qed.

End Cache.

Lemma packed_leaf pool k : wf k -> packed pool (NestedEntry k []).
Proof.
  intros Hk. constructor; try done.
  - constructor.
  - intros c Hc. by apply elem_of_nil in Hc.
Qed.

Lemma populateDepth_packed pool depth :
  (forall o, o ∈ pool -> wf o) ->
  forall k, wf k ->
  packed pool (populateDepth order depth pool (NestedEntry k []))
  /\ key (populateDepth order depth pool (NestedEntry k [])) = k.
Proof.
  intros Hpool. induction depth as [|depth IH]; intros k Hk.
  - split; [by apply packed_leaf | done].
  - cbn [populateDepth key]. apply populateLoop_packed; try done.
    + by apply packed_leaf.
    + intros c Hc. split; [done|]. apply not_elem_of_nil.
    + lia.
Qed.

Lemma populate_packed pool k :
  (forall o, o ∈ pool -> wf o) -> wf k ->
  packed pool (populate order pool (NestedEntry k []))
  /\ key (populate order pool (NestedEntry k [])) = k.
Proof. intros Hpool Hk. by apply populateDepth_packed. Qed.

End PopulateProperties.
(** ** Sets of keys *)

Lemma sum_sizes_perm (l l' : list tilePaletteKey) :
  l ≡ₚ l' ->
  foldr (fun k acc => size k + acc) 0 l = foldr (fun k acc => size k + acc) 0 l'.
Proof.
  induction 1 as [|x l l' _ IH|x y l|l1 l2 l3 _ IH1 _ IH2]; cbn [foldr];
    [done | by rewrite IH | lia | by rewrite IH1].
Qed.

Lemma sum_sizes_app (l l' : list tilePaletteKey) :
  foldr (fun k acc => size k + acc) 0 (l ++ l')
  = foldr (fun k acc => size k + acc) 0 l
    + foldr (fun k acc => size k + acc) 0 l'.
Proof. induction l as [|x l IH]; cbn [foldr app]; [done | rewrite IH; lia]. Qed.

Lemma sum_sizes_nonneg (l : list tilePaletteKey) :
  (forall k, k ∈ l -> 0 <= size k) ->
  0 <= foldr (fun k acc => size k + acc) 0 l.
Proof.
  induction l as [|x l IH]; intros Hl; cbn [foldr]; [done|].
  pose proof (Hl x ltac:(left)).
  assert (0 <= foldr (fun k acc => size k + acc) 0 l)
    by (apply IH; intros k Hk; apply Hl; by right).
  lia.
Qed.

Lemma sumSizes_disj_union (X Y : gset tilePaletteKey) :
  X ## Y -> sumSizes (X ∪ Y) = sumSizes X + sumSizes Y.
Proof.
  intros Hd. unfold sumSizes.
  rewrite (sum_sizes_perm _ _ (elements_disj_union X Y Hd)).
  apply sum_sizes_app.
Qed.

Lemma sumSizes_singleton k : sumSizes {[k]} = size k.
Proof. unfold sumSizes. rewrite elements_singleton. cbn [foldr]. lia. Qed.

Lemma sumSizes_nonneg (X : gset tilePaletteKey) :
  (forall k, k ∈ X -> wf k) -> 0 <= sumSizes X.
Proof.
  intros HX. apply sum_sizes_nonneg. intros k Hk%elem_of_elements.
  rewrite (wf_size_length k (HX k Hk)). lia.
Qed.

Lemma sumSizes_subseteq (X Y : gset tilePaletteKey) :
  X ⊆ Y -> (forall k, k ∈ Y -> wf k) -> sumSizes X <= sumSizes Y.
Proof.
  intros Hsub HY. rewrite (union_difference_L X Y Hsub).
  rewrite sumSizes_disj_union by set_solver.
  assert (0 <= sumSizes (Y ∖ X)) by (apply sumSizes_nonneg; set_solver).
  lia.
Qed.

Lemma sumSizes_remove (X : gset tilePaletteKey) k :
  k ∈ X -> sumSizes X = size k + sumSizes (X ∖ {[k]}).
Proof.
  intros Hk. rewrite (union_difference_L {[k]} X) at 1 by set_solver.
  by rewrite sumSizes_disj_union, sumSizes_singleton by set_solver.
Qed.

Lemma elem_of_remove_all (l : list tilePaletteKey) :
  forall (r : gset tilePaletteKey) k,
  k ∈ foldl (fun r k => r ∖ {[k]}) r l <-> k ∈ r /\ k ∉ l.
Proof.
  induction l as [|x l IH]; intros r k; cbn [foldl].
  - rewrite elem_of_nil. tauto.
  - rewrite IH, elem_of_difference, elem_of_singleton, not_elem_of_cons. tauto.
Qed.

(** ** A window that holds a key *)

(** A window as long as a key that holds every color of the key is a
    rearrangement of the key's colors. *)
Lemma window_contains_perm w k :
  Forall is_byte w -> wf k -> Z.of_nat (length w) = size k ->
  contains (keyOfColors w) k = true -> w ≡ₚ buffer k.
Proof.
  intros Hw [Hr Hs] Hlen Hc. symmetry.
  apply submseteq_length_Permutation; [|lia].
  apply NoDup_submseteq; [apply NoDup_buffer|].
  intros c [Hc1 Hc2]%elem_of_buffer.
  pose proof (proj1 (contains_spec _ _ Hr) Hc c Hc1 Hc2) as Hin.
  rewrite hasColor_keyOfColors in Hin by done.
  by apply bool_decide_eq_true in Hin.
Qed.

Lemma Forall_byte_slice l lo hi : Forall is_byte l -> Forall is_byte (slice l lo hi).
Proof. intros Hl. unfold slice. by apply Forall_take, Forall_drop. Qed.

Lemma scavengeLoop_stopped buf k fuel start st :
  scavengeLoop buf k fuel start true st = st.
Proof. destruct fuel; [done|]. cbn [scavengeLoop]. by rewrite andb_false_r. Qed.

Lemma scavengeLoop_spec buf k fuel : forall start st,
  scavengeLoop buf k fuel start false st = st
  \/ exists s, start <= s < Z.of_nat (length buf) - size k
       /\ contains (keyOfColors (slice buf s (s + size k))) k = true
       /\ scavengeLoop buf k fuel start false st
          = (fst st ++ [k], <[k := s]> (snd st)).
Proof.
  induction fuel as [|fuel IH]; intros start st; [by left|].
  cbn [scavengeLoop negb]. rewrite andb_true_r.
  destruct (start <? Z.of_nat (length buf) - size k) eqn:Hlt; [|by left].
  apply Z.ltb_lt in Hlt.
  destruct (contains (keyOfColors (slice buf start (start + size k))) k) eqn:Hc.
  - right. exists start. rewrite scavengeLoop_stopped. split; [lia|]. done.
  - destruct (IH (start + 1) st) as [->|(s & Hs & Hcs & ->)]; [by left|].
    right. exists s. split; [lia|]. done.
Qed.
(** ** The invariant of Generate *)

Lemma foldl_markPlaced (ms : list (tilePaletteKey * Z)) : forall st,
  foldl (fun st p => markPlaced (fst p) (snd p) st) st ms
  = (fst st ++ map fst ms,
     foldl (fun m p => <[fst p := snd p]> m) (snd st) ms).
Proof.
  induction ms as [|p ms IH]; intros [tr m]; cbn [foldl map fst snd].
  - by rewrite app_nil_r.
  - rewrite IH. unfold markPlaced. cbn [fst snd]. by rewrite <- app_assoc.
Qed.

Lemma lookup_marks (ms : list (tilePaletteKey * Z)) :
  forall (m : gmap tilePaletteKey Z) k s,
  foldl (fun m p => <[fst p := snd p]> m) m ms !! k = Some s ->
  (k, s) ∈ ms \/ m !! k = Some s.
Proof.
  induction ms as [|[k' s'] ms IH]; intros m k s Hl; cbn [foldl fst snd] in Hl.
  - by right.
  - apply IH in Hl as [Hl|Hl]; [left; by right|].
    apply lookup_insert_Some in Hl as [[-> ->]|[_ Hl]]; [left; left | by right].
Qed.

Lemma lookup_marks_is_Some (ms : list (tilePaletteKey * Z)) :
  forall (m : gmap tilePaletteKey Z) k,
  k ∈ map fst ms \/ is_Some (m !! k) ->
  is_Some (foldl (fun m p => <[fst p := snd p]> m) m ms !! k).
Proof.
  induction ms as [|[k' s'] ms IH]; intros m k Hk; cbn [foldl fst snd map] in *.
  - destruct Hk as [Hk|Hk]; [by apply elem_of_nil in Hk | done].
  - apply IH. destruct Hk as [Hk|Hk].
    + apply elem_of_cons in Hk as [->|Hk]; [right | by left].
      rewrite lookup_insert_eq. by eexists.
    + right. destruct (decide (k' = k)) as [->|Hne].
      * rewrite lookup_insert_eq. by eexists.
      * by rewrite lookup_insert_ne.
Qed.

Section GenerateProperties.

Variable order : list tilePaletteKey -> list tilePaletteKey.
Hypothesis order_perm : forall l, order l ≡ₚ l.

Variable regs : gset tilePaletteKey.
Hypothesis regs_good : goodKeys regs.

Lemma regs_wf k : k ∈ regs -> wf k.
Proof. intros Hk. by destruct (regs_good k Hk). Qed.

(** The scan for windows, key after key: [starts] only grows, by keys of
    the remainder and windows that hold them, and [earlyRemoved] lists
    keys that have a start. *)
Lemma scavenge_fold buf (rem : gset tilePaletteKey) sz (l : list tilePaletteKey) :
  (forall k, k ∈ l -> k ∈ rem) ->
  forall st,
  let r := foldl (fun st k =>
                    if size k =? sz
                    then scavengeLoop buf k (length buf) 0 false st
                    else st) st l in
  (forall k, is_Some (snd st !! k) -> is_Some (snd r !! k))
  /\ (forall k, k ∈ fst r -> k ∈ fst st \/ (k ∈ rem /\ is_Some (snd r !! k)))
  /\ (forall k s, snd r !! k = Some s ->
        snd st !! k = Some s
        \/ (k ∈ rem /\ 0 <= s < Z.of_nat (length buf) - size k
            /\ contains (keyOfColors (slice buf s (s + size k))) k = true)).
Proof.
  induction l as [|k l IH]; intros Hl st; cbn [foldl].
  - cbn zeta. split; [done|]. split; [by left | by left].
  - assert (Hl' : forall k, k ∈ l -> k ∈ rem) by (intros; apply Hl; by right).
    pose proof (Hl k ltac:(left)) as Hk.
    set (st1 := if size k =? sz
                then scavengeLoop buf k (length buf) 0 false st else st).
    destruct (IH Hl' st1) as (H1 & H2 & H3).
    assert (Hst1 : st1 = st \/ exists s,
      0 <= s < Z.of_nat (length buf) - size k
      /\ contains (keyOfColors (slice buf s (s + size k))) k = true
      /\ st1 = (fst st ++ [k], <[k := s]> (snd st))).
    { subst st1. destruct (size k =? sz); [|by left].
      destruct (scavengeLoop_spec buf k (length buf) 0 st)
        as [->|(s & Hs & Hc & ->)]; [by left|]. right. by exists s. }
    cbn zeta in *. destruct Hst1 as [Heq|(s & Hs & Hc & Heq)]; rewrite Heq in *.
    + done.
    + cbn [fst snd] in *. split; [|split].
      * intros k' Hk'. apply H1. destruct (decide (k = k')) as [->|Hne].
        -- rewrite lookup_insert_eq. by eexists.
        -- by rewrite lookup_insert_ne.
      * intros k' Hk'. destruct (H2 k' Hk') as [Hin|Hin]; [|by right].
        apply elem_of_app in Hin as [Hin|Hin]; [by left|].
        apply list_elem_of_singleton in Hin as ->. right. split; [done|].
        apply H1. rewrite lookup_insert_eq. by eexists.
      * intros k' s' Hk'. destruct (H3 k' s' Hk') as [Hin|Hin]; [|by right].
        apply lookup_insert_Some in Hin as [[<- <-]|[_ Hin]]; [|by left].
        right. done.
Qed.

Lemma scavenge_inv lookup rem sz :
  generateInv regs (lookup, rem) ->
  generateInv regs (scavenge order lookup rem sz)
  /\ Buffer (fst (scavenge order lookup rem sz)) = Buffer lookup
  /\ snd (scavenge order lookup rem sz) ⊆ rem.
Proof.
  intros [Hplaced Hwin Hrem Hbytes Hlen]. cbn [fst snd] in *.
  unfold scavenge.
  destruct (scavenge_fold (Buffer lookup) rem sz (rangeKeys order rem)
              ltac:(intros k; by rewrite elem_of_rangeKeys)
              ([], starts lookup)) as (H1 & H2 & H3).
  cbn zeta in *.
  destruct (foldl _ ([], starts lookup) (rangeKeys order rem))
    as [earlyRemoved starts'] eqn:Hfold.
  cbn [fst snd] in *.
  assert (Hsub : foldl (fun r k => r ∖ {[k]}) rem earlyRemoved ⊆ rem).
  { intros k Hk. by apply elem_of_remove_all in Hk as [? _]. }
  split; [|split; [done | done]].
  constructor; cbn [fst snd Buffer starts].
  - intros k Hk. destruct (Hplaced k Hk) as [Hin|Hin]; [|right; by apply H1].
    destruct (decide (k ∈ earlyRemoved)) as [Her|Her].
    + right. destruct (H2 k Her) as [Hnil|[_ ?]]; [by apply elem_of_nil in Hnil|done].
    + left. by apply elem_of_remove_all.
  - intros k s Hs. destruct (H3 k s Hs) as [Hold|(Hk & Hrange & Hc)].
    + by apply Hwin.
    + assert (Hwk : wf k) by (apply regs_wf; by apply Hrem).
      assert (0 <= size k) by (rewrite (wf_size_length k Hwk); lia).
      split; [lia|]. split; [lia|]. unfold window. cbn [Buffer].
      apply window_contains_perm; [by apply Forall_byte_slice | done | | done].
      rewrite slice_length by lia. lia.
  - by etrans.
  - done.
  - pose proof (sumSizes_subseteq _ _ Hsub
                  ltac:(intros k Hk; apply regs_wf; by apply Hrem)). lia.
Qed.

(** Placing one key of the remainder. *)
Lemma placeKey_inv lookup (rem : gset tilePaletteKey) k :
  generateInv regs (lookup, rem) -> k ∈ rem ->
  generateInv regs (placeKey order (lookup, rem) k)
  /\ (forall k', k' ∈ rem -> k' ≠ k -> size k <= size k' ->
                k' ∈ snd (placeKey order (lookup, rem) k)).
Proof.
  intros [Hplaced Hwin Hrem Hbytes Hlen] Hk. cbn [fst snd] in *.
  assert (Hpool : forall o, o ∈ rem -> wf o) by (intros; by apply regs_wf, Hrem).
  destruct (populate_packed order order_perm rem k Hpool (Hpool k Hk))
    as [Hpacked Hkey].
  unfold placeKey. set (root := populate order rem (NestedEntry k [])) in *.
  rewrite extractBuffer_spec, foldl_markPlaced. cbn [fst snd app].
  set (len := Z.of_nat (length (Buffer lookup))) in *.
  pose proof (marksOf_good rem root Hpacked len) as Hgood.
  pose proof (bytesOf_length rem root Hpacked) as Hblen.
  pose proof (bytesOf_perm rem root Hpacked) as Hbperm.
  rewrite Hkey in Hblen, Hbperm.
  split.
  - constructor; cbn [fst snd Buffer starts].
    + intros k' Hk'. destruct (Hplaced k' Hk') as [Hin|Hin].
      * destruct (decide (k' ∈ map fst (marksOf root len))) as [Hm|Hm].
        -- right. apply lookup_marks_is_Some. by left.
        -- left. by apply elem_of_remove_all.
      * right. apply lookup_marks_is_Some. by right.
    + intros k' s Hs. rewrite length_app. unfold window. cbn [Buffer].
      apply lookup_marks in Hs as [Hs|Hs].
      * destruct (Hgood _ Hs) as (Hw & _ & Hoff & Hend & Hsl).
        cbn [fst snd] in *. rewrite Hkey in Hend.
        assert (0 <= size k') by (rewrite (wf_size_length k' Hw); lia).
        split; [lia|]. split; [lia|].
        replace s with (len + (s - len)) at 1 by lia.
        replace (s + size k') with (len + (s - len + size k')) by lia.
        unfold len. rewrite slice_app_r by lia. done.
      * destruct (Hwin k' s Hs) as (H0 & Hend & Hperm).
        split; [done|]. split; [lia|].
        rewrite slice_app_l by (done || lia). done.
    + etrans; [|done]. intros k' Hk'. by apply elem_of_remove_all in Hk' as [? _].
    + apply Forall_app. split; [done|]. rewrite Hbperm. apply Forall_byte_buffer.
    + rewrite length_app, Nat2Z.inj_add, Hblen.
      assert (Hsub : foldl (fun r k0 => r ∖ {[k0]}) rem (map fst (marksOf root len))
                     ⊆ rem ∖ {[k]}).
      { intros k' Hk'. apply elem_of_remove_all in Hk' as [Hin Hnot].
        apply elem_of_difference. split; [done|].
        rewrite elem_of_singleton. intros ->. apply Hnot.
        apply (list_elem_of_fmap_2 fst _ (k, len)). rewrite <- Hkey.
        apply marksOf_head. }
      pose proof (sumSizes_subseteq _ _ Hsub
                    ltac:(intros k' Hk'; apply Hpool;
                          by apply elem_of_difference in Hk' as [? _])).
      pose proof (sumSizes_remove rem k Hk). lia.
  - intros k' Hk' Hne Hsz. apply elem_of_remove_all. split; [done|].
    intros Hm. apply list_elem_of_fmap in Hm as ([k2 s2] & -> & Hm).
    destruct (Hgood _ Hm) as (_ & Hor & _). cbn [fst snd] in *.
    rewrite Hkey in Hor. destruct Hor as [->|[_ ?]]; [done | lia].
Qed.

Lemma foldl_placeKey_inv sz (l : list tilePaletteKey) : forall st,
  generateInv regs st -> NoDup l ->
  (forall k, k ∈ l -> k ∈ snd st /\ size k = sz) ->
  generateInv regs (foldl (placeKey order) st l).
Proof.
  induction l as [|k l IH]; intros [lookup rem] Hinv Hnd Hl; cbn [foldl]; [done|].
  apply NoDup_cons in Hnd as [Hnk Hnd].
  destruct (Hl k ltac:(left)) as [Hk Hsz]. cbn [snd] in Hk.
  destruct (placeKey_inv lookup rem k Hinv Hk) as [Hinv' Hkeep].
  apply IH; [done | done |].
  intros k' Hk'. destruct (Hl k' ltac:(by right)) as [Hin Hsz'].
  split; [|done]. apply Hkeep; [done | | lia]. intros ->. done.
Qed.

Lemma sizePass_inv st sz :
  generateInv regs st -> generateInv regs (sizePass order st sz).
Proof.
  intros Hinv. unfold sizePass. destruct st as [lookup rem]. cbn [fst snd].
  destruct (scavenge_inv lookup rem sz Hinv) as (Hinv1 & _ & _).
  destruct (scavenge order lookup rem sz) as [lookup1 rem1].
  apply (foldl_placeKey_inv sz); [done | |].
  - apply NoDup_filter, NoDup_rangeKeys, order_perm.
  - intros k Hk. apply list_elem_of_filter in Hk as [Hsz Hk].
    apply elem_of_rangeKeys in Hk; done.
Qed.

Lemma placeLeftover_inv lookup (rem : gset tilePaletteKey) k :
  generateInv regs (lookup, rem) -> k ∈ rem ->
  generateInv regs (placeLeftover lookup k, rem ∖ {[k]}).
Proof.
  intros [Hplaced Hwin Hrem Hbytes Hlen] Hk. cbn [fst snd] in *.
  assert (Hwk : wf k) by (by apply regs_wf, Hrem).
  pose proof (wf_size_length k Hwk) as Hsz.
  constructor; cbn [fst snd placeLeftover Buffer starts].
  - intros k' Hk'. destruct (decide (k' = k)) as [->|Hne].
    + right. rewrite lookup_insert_eq. by eexists.
    + rewrite lookup_insert_ne by done.
      destruct (Hplaced k' Hk') as [Hin|Hin]; [|by right].
      left. apply elem_of_difference. split; [done|]. by rewrite elem_of_singleton.
  - intros k' s Hs. rewrite length_app. unfold window, placeLeftover.
    cbn [Buffer].
    apply lookup_insert_Some in Hs as [[<- <-]|[_ Hs]].
    + split; [lia|]. split; [lia|].
      replace (Z.of_nat (length (Buffer lookup)))
        with (Z.of_nat (length (Buffer lookup)) + 0) at 1 by lia.
      rewrite slice_app_r by lia. rewrite Hsz, slice_all. done.
    + destruct (Hwin k' s Hs) as (H0 & Hend & Hperm).
      split; [done|]. split; [lia|].
      rewrite slice_app_l by (done || lia). done.
  - intros k' Hk'. apply Hrem. by apply elem_of_difference in Hk' as [? _].
  - apply Forall_app. split; [done | apply Forall_byte_buffer].
  - rewrite length_app, Nat2Z.inj_add, <- Hsz.
    pose proof (sumSizes_remove rem k Hk). lia.
Qed.

Lemma foldl_placeLeftover_inv (l : list tilePaletteKey) :
  forall lookup (rem : gset tilePaletteKey),
  generateInv regs (lookup, rem) -> NoDup l -> (forall k, k ∈ l -> k ∈ rem) ->
  generateInv regs (foldl placeLeftover lookup l,
                    foldl (fun r k => r ∖ {[k]}) rem l).
Proof.
  induction l as [|k l IH]; intros lookup rem Hinv Hnd Hl; cbn [foldl]; [done|].
  apply NoDup_cons in Hnd as [Hnk Hnd].
  apply IH; [apply placeLeftover_inv; [done | apply Hl; left] | done |].
  intros k' Hk'. apply elem_of_difference. split; [apply Hl; by right|].
  rewrite elem_of_singleton. by intros ->.
Qed.

End GenerateProperties.
(** ** Registered keys *)

Lemma elem_of_registered_Add gen delta k :
  k ∈ registered (Add gen delta)
  <-> k ∈ registered gen \/ (k = keyOfColors delta /\ 2 < size k).
Proof.
  unfold registered, Add. destruct (2 <? size (keyOfColors delta)) eqn:Hsz.
  - apply Z.ltb_lt in Hsz. cbn [keyUses].
    rewrite dom_insert, elem_of_union, elem_of_singleton. split.
    + intros [->|Hk]; [right; by split | by left].
    + intros [Hk|[-> _]]; [by right | by left].
  - apply Z.ltb_ge in Hsz. split; [by left|].
    intros [Hk|[-> Hk]]; [done | lia].
Qed.

Lemma elem_of_registered_foldl tiles : forall gen k,
  k ∈ registered (foldl Add gen tiles)
  <-> k ∈ registered gen
      \/ exists t, t ∈ tiles /\ k = keyOfColors t /\ 2 < size k.
Proof.
  induction tiles as [|t tiles IH]; intros gen k; cbn [foldl].
  - split; [by left|]. intros [Hk|(t & Ht & _)]; [done|].
    by apply elem_of_nil in Ht.
  - rewrite IH, elem_of_registered_Add. split.
    + intros [[Hk|[-> Hk]]|(t' & Ht' & Hk)].
      * by left.
      * right. exists t. split; [left | done].
      * right. exists t'. split; [by right | done].
    + intros [Hk|(t' & Ht' & Hk)]; [left; by left|].
      apply elem_of_cons in Ht' as [->|Ht'].
      * left. right. done.
      * right. by exists t'.
Qed.

Lemma elem_of_registerAll tiles k :
  k ∈ registered (registerAll tiles)
  <-> exists t, t ∈ tiles /\ k = keyOfColors t /\ 2 < size k.
Proof.
  unfold registerAll. rewrite elem_of_registered_foldl.
  unfold registered, newGenerator. cbn [keyUses]. rewrite dom_empty.
  split; [intros [Hk|Hk]; [by apply elem_of_empty in Hk | done] | by right].
Qed.

Lemma goodKeys_registerAll tiles :
  Forall is_tile tiles -> goodKeys (registered (registerAll tiles)).
Proof.
  intros Htiles k (t & Ht & -> & Hsz)%elem_of_registerAll.
  eapply Forall_forall in Htiles as [_ Hb]; [|done].
  split; [by apply wf_keyOfColors | lia].
Qed.

(** ** Generate *)

Section GenerateTheorems.

Variable order : list tilePaletteKey -> list tilePaletteKey.
Hypothesis order_perm : forall l, order l ≡ₚ l.

Lemma generatePasses_inv gen :
  goodKeys (registered gen) ->
  generateInv (registered gen) (generatePasses order gen).
Proof.
  intros Hgood. unfold generatePasses.
  assert (Hfold : forall l st, generateInv (registered gen) st ->
            generateInv (registered gen) (foldl (sizePass order) st l)).
  { induction l as [|sz l IH]; intros st Hst; cbn [foldl]; [done|].
    apply IH. by apply sizePass_inv. }
  apply Hfold. constructor; cbn [fst snd Buffer starts].
  - intros k Hk. by left.
  - intros k s Hs. by rewrite lookup_empty in Hs.
  - done.
  - constructor.
  - change (Z.of_nat (length (@nil Z))) with 0. unfold registered. lia.
Qed.

(** After [Generate] nothing is left to place. *)
Lemma Generate_inv gen :
  goodKeys (registered gen) ->
  generateInv (registered gen) (Generate order gen, ∅).
Proof.
  intros Hgood. pose proof (generatePasses_inv gen Hgood) as Hinv.
  unfold Generate. destruct (generatePasses order gen) as [lookup rem].
  pose proof (foldl_placeLeftover_inv (registered gen) Hgood
                (rangeKeys order rem) lookup rem Hinv
                (NoDup_rangeKeys order order_perm rem)
                ltac:(intros k; by rewrite (elem_of_rangeKeys order order_perm)))
    as Hfin.
  assert (Hempty : foldl (fun r k => r ∖ {[k]}) rem (rangeKeys order rem) = ∅).
  { apply set_eq. intros k.
    rewrite elem_of_remove_all, (elem_of_rangeKeys order order_perm).
    split; [tauto | by intros ?%elem_of_empty]. }
  by rewrite Hempty in Hfin.
Qed.

Lemma Generate_start gen k :
  goodKeys (registered gen) -> k ∈ registered gen ->
  exists s, starts (Generate order gen) !! k = Some s.
Proof.
  intros Hgood Hk. destruct (Generate_inv gen Hgood) as [Hplaced _ _ _ _].
  destruct (Hplaced k Hk) as [Hin|[s Hs]]; [by apply elem_of_empty in Hin|].
  by exists s.
Qed.

Lemma Generate_window gen k s :
  goodKeys (registered gen) ->
  starts (Generate order gen) !! k = Some s ->
  0 <= s /\ s + size k <= Z.of_nat (length (Buffer (Generate order gen)))
  /\ window (Generate order gen) k s ≡ₚ buffer k.
Proof.
  intros Hgood Hs. destruct (Generate_inv gen Hgood) as [_ Hwin _ _ _].
  by apply Hwin.
Qed.

End GenerateTheorems.
(** ** The claims about Generate and Lookup *)

(** C2. Dictionary completeness: after [Generate], every registered key
    (its size is at least 3) has an entry in [starts], and the bytes of
    its window are the colors of the key: the window holds every color of
    the key, and nothing else. *)
Theorem dictionary_complete (order : list tilePaletteKey -> list tilePaletteKey)
    (tiles : list (list Z)) (k : tilePaletteKey) :
  (forall l, order l ≡ₚ l) -> Forall is_tile tiles ->
  k ∈ registered (registerAll tiles) ->
  3 <= size k
  /\ exists s, starts (Generate order (registerAll tiles)) !! k = Some s
       /\ (forall c, c ∈ buffer k ->
                     c ∈ window (Generate order (registerAll tiles)) k s)
       /\ (forall c, c ∈ window (Generate order (registerAll tiles)) k s
                     <-> c ∈ buffer k).
Proof.
  intros Hperm Htiles Hk.
  pose proof (goodKeys_registerAll tiles Htiles) as Hgood.
  split; [by destruct (Hgood k Hk)|].
  destruct (Generate_start order Hperm _ k Hgood Hk) as [s Hs]. exists s.
  destruct (Generate_window order Hperm _ k s Hgood Hs) as (_ & _ & Hw).
  split; [done|]. split; intros c; by rewrite Hw.
Qed.

(** C3. The window of a registered key has no duplicate bytes: it is a
    rearrangement of the colors of the key, and it is as long as the key
    is large. *)
Theorem window_no_duplicates (order : list tilePaletteKey -> list tilePaletteKey)
    (tiles : list (list Z)) (k : tilePaletteKey) (s : Z) :
  (forall l, order l ≡ₚ l) -> Forall is_tile tiles ->
  k ∈ registered (registerAll tiles) ->
  starts (Generate order (registerAll tiles)) !! k = Some s ->
  window (Generate order (registerAll tiles)) k s ≡ₚ buffer k
  /\ NoDup (window (Generate order (registerAll tiles)) k s)
  /\ Z.of_nat (length (window (Generate order (registerAll tiles)) k s)) = size k.
Proof.
  intros Hperm Htiles Hk Hs.
  pose proof (goodKeys_registerAll tiles Htiles) as Hgood.
  destruct (Generate_window order Hperm _ k s Hgood Hs) as (_ & _ & Hw).
  split; [done|]. rewrite Hw. split; [apply NoDup_buffer|].
  symmetry. apply wf_size_length. by destruct (Hgood k Hk).
Qed.

(** C9. Every entry of [starts] lies inside the buffer, so the slice that
    [Lookup] takes for a key of [starts] is in bounds. *)
Theorem starts_in_bounds (order : list tilePaletteKey -> list tilePaletteKey)
    (tiles : list (list Z)) (k : tilePaletteKey) (s : Z) :
  (forall l, order l ≡ₚ l) -> Forall is_tile tiles ->
  starts (Generate order (registerAll tiles)) !! k = Some s ->
  0 <= s
  /\ s + size k <= Z.of_nat (length (Buffer (Generate order (registerAll tiles)))).
Proof.
  intros Hperm Htiles Hs.
  pose proof (goodKeys_registerAll tiles Htiles) as Hgood.
  destruct (Generate_window order Hperm _ k s Hgood Hs) as (H0 & Hend & _).
  done.
Qed.

Lemma length_naive (l : list tilePaletteKey) :
  (forall k, k ∈ l -> wf k) ->
  Z.of_nat (length (concat (map buffer l)))
  = foldr (fun k acc => size k + acc) 0 l.
Proof.
  induction l as [|k l IH]; intros Hl; cbn [map concat foldr]; [done|].
  rewrite length_app, Nat2Z.inj_add, IH by (intros; apply Hl; by right).
  rewrite (wf_size_length k) by (apply Hl; left). done.
Qed.

(** C6. Monotone compression: the buffer that [Generate] produces is no
    longer than the sizes of the distinct registered keys taken together,
    which is the length of the layout that writes [buffer()] of each of
    them. *)
Theorem monotone_compression (order : list tilePaletteKey -> list tilePaletteKey)
    (tiles : list (list Z)) :
  (forall l, order l ≡ₚ l) -> Forall is_tile tiles ->
  Z.of_nat (length (Buffer (Generate order (registerAll tiles))))
  <= sumSizes (registered (registerAll tiles))
  /\ sumSizes (registered (registerAll tiles))
     = Z.of_nat (length (naiveLayout (registerAll tiles))).
Proof.
  intros Hperm Htiles.
  pose proof (goodKeys_registerAll tiles Htiles) as Hgood.
  destruct (Generate_inv order Hperm _ Hgood) as [_ _ _ _ Hlen].
  cbn [fst snd] in Hlen. split.
  - assert (sumSizes (∅ : gset tilePaletteKey) = 0) as Hempty by done.
    lia.
  - unfold naiveLayout, sumSizes, registered. symmetry. apply length_naive.
    intros k Hk%elem_of_elements. by destruct (Hgood k Hk).
Qed.

(** C1. Round trip: for a registered tile (its key has three colors or
    more), [Lookup] on the generated dictionary returns the start of the
    key, and reading [PixelPerTile] fields of [bitLength(key.size - 1)]
    bits from the mask through the palette gives back the tile. *)
Theorem lookup_roundtrip (order : list tilePaletteKey -> list tilePaletteKey)
    (tiles : list (list Z)) (tile : list Z) :
  (forall l, order l ≡ₚ l) -> Forall is_tile tiles ->
  tile ∈ tiles -> 3 <= size (keyOfColors tile) ->
  exists index pal mask,
    Lookup (Generate order (registerAll tiles)) tile = (index, pal, mask)
    /\ starts (Generate order (registerAll tiles)) !! keyOfColors tile
       = Some index
    /\ reconstruct pal mask (bitsLen (size (keyOfColors tile) - 1)) = Some tile.
Proof.
  intros Hperm Htiles Hin Hsz.
  pose proof (goodKeys_registerAll tiles Htiles) as Hgood.
  assert (Htile : is_tile tile) by (by eapply Forall_forall in Htiles).
  assert (Hk : keyOfColors tile ∈ registered (registerAll tiles)).
  { apply elem_of_registerAll. exists tile. split; [done|]. split; [done | lia]. }
  destruct (Generate_start order Hperm _ _ Hgood Hk) as [s Hs].
  destruct (Generate_window order Hperm _ _ s Hgood Hs) as (H0 & Hend & Hw).
  unfold window in Hw. unfold Lookup. rewrite Hs.
  eexists _, _, _. split; [done|]. split; [done|].
  destruct Htile as [Hlen Hbytes].
  apply mask_roundtrip.
  - done.
  - rewrite Hw. apply NoDup_buffer.
  - rewrite Hw. apply Forall_byte_buffer.
  - intros c Hc. rewrite Hw. by apply elem_of_buffer_keyOfColors.
  - rewrite Hw. symmetry. apply wf_size_length. by apply wf_keyOfColors.
Qed.
(** ** Concrete runs *)

Lemma perm2_cases {A} (a b : A) l :
  l ≡ₚ [a; b] -> l = [a; b] \/ l = [b; a].
Proof. intros H. symmetry in H. by apply Permutation_length_2_inv in H. Qed.

Lemma perm3_cases {A} (a b c : A) l :
  l ≡ₚ [a; b; c] ->
  l = [a; b; c] \/ l = [a; c; b] \/ l = [b; a; c]
  \/ l = [b; c; a] \/ l = [c; a; b] \/ l = [c; b; a].
Proof.
  intros H. apply Permutation_cons_inv_r in H as (l1 & l2 & -> & H).
  symmetry in H. apply perm2_cases in H.
  destruct l1 as [|x [|y [|z l1]]]; cbn [app] in *;
    destruct H as [H|H]; simplify_eq; try (destruct l1; discriminate); tauto.
Qed.

Lemma order_nil order : (forall l : list tilePaletteKey, order l ≡ₚ l) -> order [] = [].
Proof. intros H. by apply Permutation_nil_r. Qed.

Lemma order_singleton order x :
  (forall l : list tilePaletteKey, order l ≡ₚ l) -> order [x] = [x].
Proof. intros H. by apply Permutation_singleton_r. Qed.

Lemma fixedOrder_eq order L p :
  (forall l, order l ≡ₚ l) -> order L = p -> order = fixedOrder order L p.
Proof.
  intros Hperm HL. apply functional_extensionality. intros l.
  unfold fixedOrder. case_bool_decide as Hl; [by subst|].
  destruct l as [|x [|y l]]; [by apply order_nil | by apply order_singleton | done].
Qed.

(** C8. With the two keys K1 = {10,20,30,40,50} and K2 = {10,30,50}
    registered, K2 becomes the nested child of K1, the buffer is
    [10,30,50,20,40], and both keys start at 0: in whatever order the maps
    are visited. *)
Theorem nested_packing_example
    (order : list tilePaletteKey -> list tilePaletteKey) :
  (forall l, order l ≡ₚ l) ->
  elements (registered (registerAll [tileK1; tileK2]))
    ≡ₚ [keyOfColors tileK1; keyOfColors tileK2]
  /\ buffer (keyOfColors tileK1) = [10; 20; 30; 40; 50]
  /\ buffer (keyOfColors tileK2) = [10; 30; 50]
  /\ populate order (registered (registerAll [tileK1; tileK2]))
       (NestedEntry (keyOfColors tileK1) [])
     = NestedEntry (keyOfColors tileK1) [NestedEntry (keyOfColors tileK2) []]
  /\ Buffer (Generate order (registerAll [tileK1; tileK2])) = [10; 30; 50; 20; 40]
  /\ starts (Generate order (registerAll [tileK1; tileK2])) !! keyOfColors tileK2
     = Some 0
  /\ starts (Generate order (registerAll [tileK1; tileK2])) !! keyOfColors tileK1
     = Some 0.
Proof.
  intros Hperm.
  split.
  { assert (E : elements (registered (registerAll [tileK1; tileK2]))
                = [keyOfColors tileK2; keyOfColors tileK1])
      by (vm_compute; reflexivity).
    rewrite E. apply perm_swap. }
  split; [vm_compute; reflexivity|]. split; [vm_compute; reflexivity|].
  destruct (perm2_cases _ _ _ (Hperm [keyOfColors tileK2; keyOfColors tileK1]))
    as [Ho|Ho]; rewrite (fixedOrder_eq order _ _ Hperm Ho);
    vm_compute; repeat split; reflexivity.
Qed.

Lemma listedOrder_perm l : listedOrder l ≡ₚ l.
Proof. done. Qed.

Lemma nested_packing_example_witness :
  Buffer (Generate listedOrder (registerAll [tileK1; tileK2]))
  = [10; 30; 50; 20; 40].
Proof.
  exact (proj1 (proj2 (proj2 (proj2 (proj2
           (nested_packing_example listedOrder listedOrder_perm)))))).
Defined.

(** C4, as the code has it. With the keys {1,2,3,4,5}, {1,2,3,4} and
    {3,4,5} registered, the pass of size 3 starts with the buffer
    [1,2,3,4,5] and the key {3,4,5} unplaced; the window at the last legal
    start, [len(buffer) - 3 = 2], is [3,4,5] and holds the key; the scan
    leaves the key where it is, and the key is packed again at the end of
    the buffer. *)
Theorem scavenging_misses_last_window
    (order : list tilePaletteKey -> list tilePaletteKey) :
  (forall l, order l ≡ₚ l) ->
  let gen := registerAll [tile12345; tile1234; tile345] in
  let k := keyOfColors tile345 in
  let st := stateBeforePass order gen 3 in
  Buffer (fst st) = [1; 2; 3; 4; 5]
  /\ elements (snd st) = [k]
  /\ size k = 3
  /\ 2 = Z.of_nat (length (Buffer (fst st))) - size k
  /\ slice (Buffer (fst st)) 2 (2 + size k) = [3; 4; 5]
  /\ contains (keyOfColors (slice (Buffer (fst st)) 2 (2 + size k))) k = true
  /\ starts (fst (scavenge order (fst st) (snd st) 3)) !! k = None
  /\ elements (snd (scavenge order (fst st) (snd st) 3)) = [k]
  /\ Buffer (Generate order gen) = [1; 2; 3; 4; 5; 3; 4; 5]
  /\ starts (Generate order gen) !! k = Some 5.
Proof.
  intros Hperm.
  destruct (perm3_cases _ _ _ _
    (Hperm [keyOfColors tile345; keyOfColors tile12345; keyOfColors tile1234]))
    as [Ho|[Ho|[Ho|[Ho|[Ho|Ho]]]]];
    rewrite (fixedOrder_eq order _ _ Hperm Ho);
    vm_compute; repeat split; reflexivity.
Qed.

Lemma scavenging_misses_last_window_witness :
  Buffer (Generate listedOrder (registerAll [tile12345; tile1234; tile345]))
  = [1; 2; 3; 4; 5; 3; 4; 5].
Proof.
  exact (proj1 (proj2 (proj2 (proj2 (proj2 (proj2 (proj2 (proj2 (proj2
           (scavenging_misses_last_window listedOrder listedOrder_perm)))))))))).
Defined.

(** C5, as the code has it: the index of a miss is 0, the start of the
    registered key {3,7,9} in the dictionary built from that key alone;
    a miss is not told apart from a hit at offset 0 by its index. *)
Lemma lookup_miss_index_is_valid_offset :
  ~ (forall s,
       starts (Generate listedOrder (registerAll [tile379])) !! keyOfColors tile379
       = Some s ->
       starts (Generate listedOrder (registerAll [tile379])) !! keyOfColors tile56
       = None ->
       fst (fst (Lookup (Generate listedOrder (registerAll [tile379])) tile56))
       <> s).
Proof.
  intros H. apply (H 0); vm_compute; reflexivity.
Qed.

(** C5, amended. A tile whose key is not in [starts] gets the index 0 and
    the palette [key.buffer()], the distinct colors of the tile in
    ascending order; a tile of the two colors 5 and 6 is not registered by
    [Add], and its palette is [5,6]. *)
Theorem lookup_miss_result (lookup : PaletteLookup) (tile : list Z) :
  Forall is_byte tile ->
  starts lookup !! keyOfColors tile = None ->
  fst (fst (Lookup lookup tile)) = 0
  /\ snd (fst (Lookup lookup tile)) = buffer (keyOfColors tile)
  /\ StronglySorted Z.lt (snd (fst (Lookup lookup tile)))
  /\ (forall c, c ∈ snd (fst (Lookup lookup tile)) <-> c ∈ tile)
  /\ (forall gen, Add gen tile56 = gen)
  /\ buffer (keyOfColors tile56) = [5; 6].
Proof.
  intros Hbytes Hmiss. unfold Lookup. rewrite Hmiss. cbn [fst snd].
  split; [done|]. split; [done|]. split; [apply buffer_sorted|].
  split; [intros c; by apply elem_of_buffer_keyOfColors|].
  split; [|vm_compute; reflexivity].
  intros gen. unfold Add.
  replace (2 <? size (keyOfColors tile56)) with false by (vm_compute; reflexivity).
  done.
Qed.

Lemma is_tile_tile56 : is_tile tile56.
Proof. split; [reflexivity|]. repeat constructor; (unfold is_byte; lia). Qed.

Lemma is_tile_tile379 : is_tile tile379.
Proof. split; [reflexivity|]. repeat constructor; (unfold is_byte; lia). Qed.

Lemma lookup_miss_result_witness :
  fst (fst (Lookup (Generate listedOrder (registerAll [tile379])) tile56)) = 0
  /\ snd (fst (Lookup (Generate listedOrder (registerAll [tile379])) tile56))
     = buffer (keyOfColors tile56).
Proof.
  pose proof (lookup_miss_result
                (Generate listedOrder (registerAll [tile379])) tile56
                (proj2 is_tile_tile56) ltac:(vm_compute; reflexivity)) as H.
  exact (conj (proj1 H) (proj1 (proj2 H))).
Defined.

Lemma lookup_miss_roundtrip_witness :
  let '(_, pal, mask) :=
    Lookup (Generate listedOrder (registerAll [tile379])) tile56 in
  pal = buffer (keyOfColors tile56)
  /\ StronglySorted Z.lt pal
  /\ (forall c, c ∈ pal <-> c ∈ tile56)
  /\ reconstruct pal mask (bitsLen (size (keyOfColors tile56) - 1)) = Some tile56.
Proof.
  exact (lookup_miss_roundtrip
           (Generate listedOrder (registerAll [tile379])) tile56
           is_tile_tile56 ltac:(vm_compute; reflexivity)).
Defined.

Lemma registered_tile379 :
  keyOfColors tile379 ∈ registered (registerAll [tile379]).
Proof.
  apply elem_of_registerAll. exists tile379.
  split; [left|]. split; [reflexivity | vm_compute; reflexivity].
Qed.

Lemma tiles379 : Forall is_tile [tile379].
Proof. repeat constructor; (reflexivity || (unfold is_byte; lia)). Qed.

Lemma start_tile379 :
  starts (Generate listedOrder (registerAll [tile379])) !! keyOfColors tile379
  = Some 0.
Proof. vm_compute. reflexivity. Qed.

Lemma dictionary_complete_witness :
  3 <= size (keyOfColors tile379)
  /\ exists s,
       starts (Generate listedOrder (registerAll [tile379])) !! keyOfColors tile379
       = Some s
       /\ (forall c, c ∈ buffer (keyOfColors tile379) ->
             c ∈ window (Generate listedOrder (registerAll [tile379]))
                   (keyOfColors tile379) s)
       /\ (forall c,
             c ∈ window (Generate listedOrder (registerAll [tile379]))
                   (keyOfColors tile379) s
             <-> c ∈ buffer (keyOfColors tile379)).
Proof.
  exact (dictionary_complete listedOrder [tile379] (keyOfColors tile379)
           listedOrder_perm tiles379 registered_tile379).
Defined.

Lemma window_no_duplicates_witness :
  window (Generate listedOrder (registerAll [tile379])) (keyOfColors tile379) 0
    ≡ₚ buffer (keyOfColors tile379)
  /\ NoDup (window (Generate listedOrder (registerAll [tile379]))
              (keyOfColors tile379) 0)
  /\ Z.of_nat (length (window (Generate listedOrder (registerAll [tile379]))
                         (keyOfColors tile379) 0))
     = size (keyOfColors tile379).
Proof.
  exact (window_no_duplicates listedOrder [tile379] (keyOfColors tile379) 0
           listedOrder_perm tiles379 registered_tile379 start_tile379).
Defined.

Lemma starts_in_bounds_witness :
  0 <= 0
  /\ 0 + size (keyOfColors tile379)
     <= Z.of_nat (length (Buffer (Generate listedOrder (registerAll [tile379])))).
Proof.
  exact (starts_in_bounds listedOrder [tile379] (keyOfColors tile379) 0
           listedOrder_perm tiles379 start_tile379).
Defined.

Lemma monotone_compression_witness :
  Z.of_nat (length (Buffer (Generate listedOrder (registerAll [tile379]))))
  <= sumSizes (registered (registerAll [tile379]))
  /\ sumSizes (registered (registerAll [tile379]))
     = Z.of_nat (length (naiveLayout (registerAll [tile379]))).
Proof.
  exact (monotone_compression listedOrder [tile379] listedOrder_perm tiles379).
Defined.

Lemma lookup_roundtrip_witness :
  exists index pal mask,
    Lookup (Generate listedOrder (registerAll [tile379])) tile379
    = (index, pal, mask)
    /\ starts (Generate listedOrder (registerAll [tile379])) !! keyOfColors tile379
       = Some index
    /\ reconstruct pal mask (bitsLen (size (keyOfColors tile379) - 1))
       = Some tile379.
Proof.
  exact (lookup_roundtrip listedOrder [tile379] tile379
           listedOrder_perm tiles379 ltac:(left) ltac:(vm_compute; discriminate)).
Defined.
(** ** The fuel of the loops is enough

    The loops of the source are written with a number of rounds that
    bounds them. A round more changes nothing, so no loop of the model
    stops for lack of rounds. *)

Lemma scavengeLoop_enough buf k fuel : forall start wasRemoved st,
  Z.of_nat (length buf) - size k - start <= Z.of_nat fuel ->
  scavengeLoop buf k (S fuel) start wasRemoved st
  = scavengeLoop buf k fuel start wasRemoved st.
Proof.
  induction fuel as [|fuel IH]; intros start wr st Hf.
  - cbn [scavengeLoop].
    replace (start <? Z.of_nat (length buf) - size k) with false
      by (symmetry; apply Z.ltb_ge; lia).
    done.
  - remember (S fuel) as n eqn:Hn. cbn [scavengeLoop]. subst n.
    cbn [scavengeLoop].
    destruct ((start <? Z.of_nat (length buf) - size k) && negb wr); [|done].
    destruct (contains _ k); apply IH; lia.
Qed.

Lemma scavengeLoop_more buf k (extra : nat) :
  0 <= size k ->
  scavengeLoop buf k (length buf + extra)%nat 0 false
  = scavengeLoop buf k (length buf) 0 false.
Proof.
  intros Hk. induction extra as [|extra IH]; [by rewrite Nat.add_0_r|].
  rewrite Nat.add_succ_r. apply functional_extensionality. intros st.
  rewrite scavengeLoop_enough by lia. by rewrite IH.
Qed.

Lemma filter_bool_ext (P Q : Z -> bool) (l : list Z) :
  (forall x, x ∈ l -> P x = Q x) ->
  filter (fun x => P x) l = filter (fun x => Q x) l.
Proof.
  induction l as [|x l IH]; intros H; [done|].
  rewrite !filter_cons, (H x) by left.
  rewrite IH by (intros; apply H; by right). done.
Qed.

Lemma commonColors_contains a b :
  key_in_range b -> contains a b = true -> commonColors a b = buffer b.
Proof.
  intros Hb Hc. rewrite buffer_filter. unfold commonColors.
  apply (filter_bool_ext (fun c => hasColor a c && hasColor b c) (hasColor b)).
  intros c Hin%elem_of_seqZ.
  assert (Hbyte : is_byte c) by (unfold is_byte; lia).
  destruct (hasColor b c) eqn:Hbc; [|apply andb_false_r].
  by rewrite (proj1 (contains_spec a b Hb) Hc c Hbyte Hbc).
Qed.

Lemma size_without_contains a b :
  wf a -> wf b -> contains a b = true -> size (without a b) = size a - size b.
Proof.
  intros Ha [Hrb Hsb] Hc.
  rewrite size_without_common, commonColors_contains by done. lia.
Qed.

Section FuelEnough.

Variable order : list tilePaletteKey -> list tilePaletteKey.
Hypothesis order_perm : forall l, order l ≡ₚ l.
Variable keys : gset tilePaletteKey.
Hypothesis keys_wf : forall o, o ∈ keys -> wf o.

Lemma populateRemainingLoop_enough query fuel remainingKey :
  forall keySize acc,
  keySize - 2 <= Z.of_nat fuel ->
  populateRemainingLoop order keys query (S fuel) remainingKey keySize acc
  = populateRemainingLoop order keys query fuel remainingKey keySize acc.
Proof.
  induction fuel as [|fuel IH]; intros keySize acc Hf.
  - cbn [populateRemainingLoop].
    replace (2 <? keySize) with false by (symmetry; apply Z.ltb_ge; lia).
    done.
  - remember (S fuel) as n eqn:Hn. cbn [populateRemainingLoop]. subst n.
    cbn [populateRemainingLoop].
    destruct ((2 <? keySize) && _); [|done]. apply IH. lia.
Qed.

Lemma populateRemainingLoop_more query remainingKey startSize acc (extra : nat) :
  populateRemainingLoop order keys query (Z.to_nat startSize + extra)%nat
    remainingKey startSize acc
  = populateRemainingLoop order keys query (Z.to_nat startSize)
      remainingKey startSize acc.
Proof.
  induction extra as [|extra IH]; [by rewrite Nat.add_0_r|].
  rewrite Nat.add_succ_r, populateRemainingLoop_enough by lia. done.
Qed.

Lemma populateLoop_S query fuel entry remainingKey foundSomething keySearchSize :
  populateLoop order keys query (S fuel) entry remainingKey foundSomething
    keySearchSize
  = if (2 <? size remainingKey) && foundSomething
    then
      let '(entry, lastAddedKey, foundSomething) :=
        populateRemaining order keys query entry remainingKey keySearchSize in
      let remainingKey := without remainingKey lastAddedKey in
      populateLoop order keys query fuel entry remainingKey foundSomething
        (size remainingKey)
    else entry.
Proof. done. Qed.

Lemma populateLoop_enough query fuel :
  (forall o, o ∈ keys -> key (query o) = o) ->
  forall entry remainingKey foundSomething keySearchSize,
  wf remainingKey -> size remainingKey <= Z.of_nat fuel ->
  populateLoop order keys query (S fuel) entry remainingKey foundSomething
    keySearchSize
  = populateLoop order keys query fuel entry remainingKey foundSomething
      keySearchSize.
Proof.
  intros Hq. induction fuel as [|fuel IH]; intros entry rk found ss Hrk Hf.
  - cbn [populateLoop].
    replace (2 <? size rk) with false by (symmetry; apply Z.ltb_ge; lia).
    done.
  - rewrite (populateLoop_S query (S fuel)), (populateLoop_S query fuel).
    destruct ((2 <? size rk) && found); [|done].
    destruct (populateRemaining_spec order order_perm keys query entry rk ss)
      as [->|(o & Ho & Hso & Hc & ->)].
    + by rewrite !populateLoop_stopped.
    + cbn zeta. rewrite (Hq o Ho). apply IH; [apply wf_without|].
      rewrite size_without_contains by (done || by apply keys_wf). lia.
Qed.

Lemma populateLoop_more query entry foundSomething keySearchSize (extra : nat) :
  (forall o, o ∈ keys -> key (query o) = o) -> wf (key entry) ->
  populateLoop order keys query (Z.to_nat (size (key entry)) + extra)%nat
    entry (key entry) foundSomething keySearchSize
  = populateLoop order keys query (Z.to_nat (size (key entry)))
      entry (key entry) foundSomething keySearchSize.
Proof.
  intros Hq Hk. induction extra as [|extra IH]; [by rewrite Nat.add_0_r|].
  rewrite Nat.add_succ_r, populateLoop_enough by (done || lia). done.
Qed.

Lemma collectResults_ext query1 query2 remainingKey keySize acc :
  (forall o, o ∈ keys -> size o = keySize -> query1 o = query2 o) ->
  collectResults order keys query1 remainingKey keySize acc
  = collectResults order keys query2 remainingKey keySize acc.
Proof.
  intros Hq. unfold collectResults. f_equal.
  apply list_fmap_ext. intros i o Ho%list_elem_of_lookup_2.
  apply (elem_of_order order order_perm), list_elem_of_filter in Ho
    as [[Hsz _] Ho].
  apply (elem_of_rangeKeys order order_perm) in Ho. by apply Hq.
Qed.

Lemma populateRemainingLoop_ext query1 query2 fuel remainingKey :
  forall keySize acc,
  (forall o, o ∈ keys -> size o <= keySize -> query1 o = query2 o) ->
  populateRemainingLoop order keys query1 fuel remainingKey keySize acc
  = populateRemainingLoop order keys query2 fuel remainingKey keySize acc.
Proof.
  induction fuel as [|fuel IH]; intros keySize acc Hq; [done|].
  cbn [populateRemainingLoop]. destruct ((2 <? keySize) && _); [|done].
  rewrite (collectResults_ext query1 query2)
    by (intros o Ho Hsz; apply Hq; [done | lia]).
  apply IH. intros o Ho Hsz. apply Hq; [done | lia].
Qed.

Lemma populateLoop_ext query1 query2 k fuel :
  (forall o, o ∈ keys -> key (query1 o) = o) ->
  (forall o, o ∈ keys -> size o < size k -> query1 o = query2 o) ->
  forall entry remainingKey foundSomething keySearchSize,
  wf remainingKey -> size remainingKey <= size k -> keySearchSize < size k ->
  populateLoop order keys query1 fuel entry remainingKey foundSomething
    keySearchSize
  = populateLoop order keys query2 fuel entry remainingKey foundSomething
      keySearchSize.
Proof.
  intros Hkey Hq. induction fuel as [|fuel IH];
    intros entry rk found ss Hrk Hsz Hss; [done|].
  cbn [populateLoop]. destruct ((2 <? size rk) && found); [|done].
  assert (Heq : populateRemaining order keys query1 entry rk ss
                = populateRemaining order keys query2 entry rk ss).
  { unfold populateRemaining.
    rewrite (populateRemainingLoop_ext query1 query2)
      by (intros o Ho Hso; apply Hq; [done | lia]).
    destruct (snd _) as [n|] eqn:Hn; [|done]. done. }
  rewrite <- Heq.
  destruct (populateRemaining_spec order order_perm keys query1 entry rk ss)
    as [->|(o & Ho & Hso & Hc & ->)].
  - by rewrite !populateLoop_stopped.
  - rewrite (Hkey o Ho).
    pose proof (size_without_contains rk o Hrk (keys_wf o Ho) Hc) as Hsw.
    apply IH; [apply wf_without | lia | lia].
Qed.

Lemma populateDepth_enough depth : forall k,
  wf k -> size k <= Z.of_nat depth ->
  populateDepth order (S depth) keys (NestedEntry k [])
  = populateDepth order depth keys (NestedEntry k []).
Proof.
  induction depth as [|depth IH]; intros k Hk Hsz.
  - cbn [populateDepth key]. replace (Z.to_nat (size k)) with 0%nat by lia. done.
  - remember (S depth) as n eqn:Hn. cbn [populateDepth]. subst n.
    cbn [populateDepth key].
    apply (populateLoop_ext _ _ k); [| |done|lia|lia].
    + intros o Ho.
      by destruct (populateDepth_packed order order_perm keys (S depth)
                     keys_wf o (keys_wf o Ho)).
    + intros o Ho Hso. apply IH; [by apply keys_wf | lia].
Qed.

(** [populate] gives its recursion as many levels as the key is large;
    more levels give the same entry. *)
Lemma populate_depth_enough k (extra : nat) :
  wf k ->
  populateDepth order (Z.to_nat (size k) + extra)%nat keys (NestedEntry k [])
  = populate order keys (NestedEntry k []).
Proof.
  intros Hk. unfold populate. cbn [key].
  induction extra as [|extra IH]; [by rewrite Nat.add_0_r|].
  rewrite Nat.add_succ_r, populateDepth_enough by (done || lia). done.
Qed.

End FuelEnough.
(** ** More on keys *)

Lemma word_ext w w' :
  is_uint64 w -> is_uint64 w' ->
  (forall i, 0 <= i < 64 -> Z.testbit w i = Z.testbit w' i) -> w = w'.
Proof.
  intros Hw Hw' Hbits. apply Z.bits_inj'. intros i Hi.
  destruct (decide (i < 64)) as [Hlt|Hge]; [apply Hbits; lia|].
  by rewrite !testbit_uint64_high by (done || lia).
Qed.

(** Two well-formed keys with the same colors are the same key. *)
Lemma key_ext a b :
  wf a -> wf b ->
  (forall c, is_byte c -> hasColor a c = hasColor b c) -> a = b.
Proof.
  intros [Hra Hsa] [Hrb Hsb] Hcol.
  assert (Hbuf : buffer a = buffer b).
  { rewrite !buffer_filter. apply filter_bool_ext.
    intros c Hc%elem_of_seqZ. apply Hcol. unfold is_byte. lia. }
  assert (Hword : forall j, 0 <= j < 4 ->
            word (usedColors a) j = word (usedColors b) j).
  { intros j Hj. apply word_ext; [apply Hra | apply Hrb |].
    intros i Hi. rewrite <- !hasColor_word_bit by done.
    apply Hcol. by apply byte_of_word_bit. }
  assert (Hsize : size a = size b).
  { etrans; [exact Hsa|]. rewrite Hbuf. symmetry. exact Hsb. }
  clear Hsa Hsb Hbuf Hcol Hra Hrb.
  destruct a as [[[[a0 a1] a2] a3] sa], b as [[[[b0 b1] b2] b3] sb].
  cbn [size usedColors] in *.
  pose proof (Hword 0 ltac:(lia)) as H0. pose proof (Hword 1 ltac:(lia)) as H1.
  pose proof (Hword 2 ltac:(lia)) as H2. pose proof (Hword 3 ltac:(lia)) as H3.
  cbn in H0, H1, H2, H3. subst. reflexivity.
Qed.

(** X1. [useColor] then [hasColor]: the color put in is there, every other
    color is as it was; putting a color in twice is putting it in once;
    the size grows by one for a new color and not at all for an old one. *)
Theorem useColor_lookup (k : tilePaletteKey) (c c' : Z) :
  is_byte c -> is_byte c' ->
  hasColor (useColor k c) c' = hasColor k c' || bool_decide (c' = c)
  /\ useColor (useColor k c) c = useColor k c
  /\ size (useColor k c) = size k + (if hasColor k c then 0 else 1).
Proof.
  intros Hc Hc'. split; [by apply hasColor_useColor|]. split.
  - apply useColor_old. rewrite hasColor_useColor by done.
    rewrite bool_decide_eq_true_2 by done. apply orb_true_r.
  - unfold useColor. destruct (hasColor k c); cbn [size]; lia.
Qed.

Lemma useColor_lookup_witness :
  hasColor (useColor zeroKey 200) 7 = hasColor zeroKey 7 || bool_decide (7 = 200)
  /\ useColor (useColor zeroKey 200) 200 = useColor zeroKey 200
  /\ size (useColor zeroKey 200)
     = size zeroKey + (if hasColor zeroKey 200 then 0 else 1).
Proof.
  apply (useColor_lookup zeroKey 200 7); unfold is_byte; lia.
Defined.

Lemma keyOfColors_ext (l1 l2 : list Z) :
  Forall is_byte l1 -> Forall is_byte l2 ->
  (forall c, c ∈ l1 <-> c ∈ l2) -> keyOfColors l1 = keyOfColors l2.
Proof.
  intros H1 H2 Hsame. apply key_ext; [by apply wf_keyOfColors..|].
  intros c Hc. rewrite !hasColor_keyOfColors by done.
  apply bool_decide_ext, Hsame.
Qed.

(** X2. The key of a tile is a function of the set of its colors: two
    sequences of bytes have the same key exactly when they have the same
    colors, however often and in whichever order. *)
Theorem keyOfColors_same_colors (l1 l2 : list Z) :
  Forall is_byte l1 -> Forall is_byte l2 ->
  keyOfColors l1 = keyOfColors l2 <-> (forall c, c ∈ l1 <-> c ∈ l2).
Proof.
  intros H1 H2. split.
  - intros Heq c.
    by rewrite <- (elem_of_buffer_keyOfColors l1), <- (elem_of_buffer_keyOfColors l2),
      Heq by done.
  - by apply keyOfColors_ext.
Qed.

Lemma keyOfColors_same_colors_witness :
  keyOfColors [3; 7; 9; 7] = keyOfColors [9; 3; 7]
  <-> (forall c, c ∈ [3; 7; 9; 7] <-> c ∈ [9; 3; 7]).
Proof.
  apply (keyOfColors_same_colors [3; 7; 9; 7] [9; 3; 7]);
    repeat constructor; unfold is_byte; lia.
Defined.

(** X3. [buffer] lists the colors of a key in ascending order, each once:
    a byte is in it exactly when [hasColor] holds, and for a key built by
    the operations its length is the cached size. *)
Theorem buffer_lists_colors (k : tilePaletteKey) :
  constructed k ->
  StronglySorted Z.lt (buffer k)
  /\ NoDup (buffer k)
  /\ (forall c, c ∈ buffer k <-> is_byte c /\ hasColor k c = true)
  /\ Z.of_nat (length (buffer k)) = size k.
Proof.
  intros Hk. split; [apply buffer_sorted|]. split; [apply NoDup_buffer|].
  split; [apply elem_of_buffer|].
  symmetry. by apply wf_size_length, wf_constructed.
Qed.

Lemma constructed_example : constructed (keyOfColors [30; 10; 50; 10]).
Proof.
  apply constructed_keyOfColors. repeat constructor; unfold is_byte; lia.
Qed.

Lemma buffer_lists_colors_witness :
  StronglySorted Z.lt (buffer (keyOfColors [30; 10; 50; 10]))
  /\ NoDup (buffer (keyOfColors [30; 10; 50; 10]))
  /\ (forall c, c ∈ buffer (keyOfColors [30; 10; 50; 10])
        <-> is_byte c /\ hasColor (keyOfColors [30; 10; 50; 10]) c = true)
  /\ Z.of_nat (length (buffer (keyOfColors [30; 10; 50; 10])))
     = size (keyOfColors [30; 10; 50; 10]).
Proof. exact (buffer_lists_colors _ constructed_example). Defined.

(** X4. Round trip: the key of the bytes of [buffer] is the key again. *)
Theorem keyOfColors_buffer (k : tilePaletteKey) :
  constructed k -> keyOfColors (buffer k) = k.
Proof.
  intros Hk%wf_constructed.
  apply key_ext; [apply wf_keyOfColors, Forall_byte_buffer | done |].
  intros c Hc. rewrite hasColor_keyOfColors by (done || apply Forall_byte_buffer).
  apply eq_true_iff_eq. rewrite bool_decide_eq_true, elem_of_buffer. tauto.
Qed.

Lemma keyOfColors_buffer_witness :
  keyOfColors (buffer (keyOfColors [30; 10; 50; 10]))
  = keyOfColors [30; 10; 50; 10].
Proof. exact (keyOfColors_buffer _ constructed_example). Defined.

(** X5. [contains] orders the keys: every key contains itself, a key that
    contains a second that contains a third contains the third, two keys
    that contain each other are the same key, and a key is at least as
    large as a key it contains. *)
Theorem contains_partial_order (a b c : tilePaletteKey) :
  constructed a -> constructed b -> constructed c ->
  contains a a = true
  /\ (contains a b = true -> contains b c = true -> contains a c = true)
  /\ (contains a b = true -> contains b a = true -> a = b)
  /\ (contains a b = true -> size b <= size a).
Proof.
  intros Ha%wf_constructed Hb%wf_constructed Hc%wf_constructed.
  pose proof Ha as [Hra _]. pose proof Hb as [Hrb _]. pose proof Hc as [Hrc _].
  split; [by apply contains_spec|]. split; [|split].
  - intros Hab Hbc. apply contains_spec; [done|]. intros x Hx Hcx.
    apply (proj1 (contains_spec a b Hrb) Hab x Hx).
    by apply (proj1 (contains_spec b c Hrc) Hbc x Hx).
  - intros Hab Hba. apply key_ext; [done..|]. intros x Hx.
    apply eq_true_iff_eq. split.
    + by apply (proj1 (contains_spec b a Hra) Hba x Hx).
    + by apply (proj1 (contains_spec a b Hrb) Hab x Hx).
  - intros Hab. rewrite (wf_size_length a Ha), (wf_size_length b Hb).
    apply inj_le, submseteq_length, NoDup_submseteq; [apply NoDup_buffer|].
    intros x [Hx Hbx]%elem_of_buffer. apply elem_of_buffer. split; [done|].
    by apply (proj1 (contains_spec a b Hrb) Hab x Hx).
Qed.

Lemma contains_partial_order_witness :
  contains (keyOfColors [30; 10; 50; 10]) (keyOfColors [30; 10; 50; 10]) = true.
Proof.
  exact (proj1 (contains_partial_order _ _ _ constructed_example
                  constructed_example constructed_example)).
Defined.

(** X6. [without] is the difference of the color sets: a color is in
    [a.without(b)] exactly when it is in [a] and not in [b]; the result is
    contained in [a] and shares no color with [b]; taking a key from
    itself leaves the zero key, and taking the zero key away changes
    nothing. *)
Theorem without_difference (a b : tilePaletteKey) :
  constructed a -> constructed b ->
  (forall c, is_byte c ->
     hasColor (without a b) c = hasColor a c && negb (hasColor b c))
  /\ contains a (without a b) = true
  /\ commonColors (without a b) b = []
  /\ without a a = zeroKey
  /\ without a zeroKey = a.
Proof.
  intros Ha%wf_constructed Hb%wf_constructed.
  pose proof (wf_without a b) as Hw. pose proof Hw as [Hrw _].
  split; [intros c Hc; by apply hasColor_without|]. split; [|split; [|split]].
  - apply contains_spec; [done|]. intros c Hc. rewrite hasColor_without by done.
    by intros [? _]%andb_true_iff.
  - unfold commonColors.
    rewrite (filter_bool_ext
               (fun c => hasColor (without a b) c && hasColor b c)
               (fun _ => false)).
    + induction (seqZ 0 256) as [|x l IH]; [done|]. by rewrite filter_cons.
    + intros c Hc%elem_of_seqZ.
      rewrite hasColor_without by (unfold is_byte; lia).
      by destruct (hasColor a c), (hasColor b c).
  - apply key_ext; [apply wf_without | apply wf_zeroKey |].
    intros c Hc. rewrite hasColor_without, hasColor_zeroKey by done.
    by destruct (hasColor a c).
  - apply key_ext; [apply wf_without | done |].
    intros c Hc. rewrite hasColor_without, hasColor_zeroKey by done.
    by destruct (hasColor a c).
Qed.

Lemma without_difference_witness :
  contains (keyOfColors [30; 10; 50; 10])
    (without (keyOfColors [30; 10; 50; 10]) (keyOfColors [30; 10; 50; 10]))
  = true.
Proof.
  exact (proj1 (proj2 (without_difference _ _ constructed_example
                         constructed_example))).
Defined.

(** X7. [joinedBuffer] keeps the source as it is at the front and appends,
    in ascending order, the colors of the key that the source lacks: the
    result holds the bytes of the source and the colors of the key, and
    nothing appended repeats a byte of the source. With no source it is
    [buffer]. *)
Theorem joinedBuffer_completes (k : tilePaletteKey) (source : list Z) :
  Forall is_byte source ->
  take (length source) (joinedBuffer k source) = source
  /\ StronglySorted Z.lt (drop (length source) (joinedBuffer k source))
  /\ (forall c, c ∈ joinedBuffer k source <-> c ∈ source \/ c ∈ buffer k)
  /\ (forall c, c ∈ drop (length source) (joinedBuffer k source) -> c ∉ source)
  /\ joinedBuffer k [] = buffer k.
Proof.
  intros Hsrc.
  assert (Hin : forall c,
    c ∈ filter (fun c => hasColor k c && negb (hasColor (keyOfColors source) c))
               (seqZ 0 256) <-> c ∈ buffer k /\ c ∉ source).
  { intros c. rewrite list_elem_of_filter, elem_of_seqZ, elem_of_buffer, Is_true_true.
    rewrite andb_true_iff, negb_true_iff. split.
    - intros [[Hk Hs] Hc]. assert (is_byte c) by (unfold is_byte; lia).
      rewrite hasColor_keyOfColors in Hs by done.
      apply bool_decide_eq_false in Hs. done.
    - intros [[Hc Hk] Hs]. rewrite hasColor_keyOfColors by done.
      rewrite bool_decide_eq_false. unfold is_byte in Hc. intuition lia. }
  split; [apply joinedBuffer_prefix|].
  rewrite joinedBuffer_eq, drop_app_length.
  split; [apply StronglySorted_filter_lt, (StronglySorted_seqZ 256)|].
  split; [|split].
  - intros c. rewrite elem_of_app, Hin.
    destruct (decide (c ∈ source)); tauto.
  - intros c Hc. by apply Hin in Hc as [_ ?].
  - rewrite joinedBuffer_eq, buffer_filter. cbn [app].
    apply filter_bool_ext. intros c Hc.
    change (keyOfColors []) with zeroKey. rewrite hasColor_zeroKey.
    apply andb_true_r.
Qed.

Lemma joinedBuffer_completes_witness :
  take (length [50; 10]) (joinedBuffer (keyOfColors [10; 20; 30; 40; 50]) [50; 10])
  = [50; 10].
Proof.
  apply (joinedBuffer_completes (keyOfColors [10; 20; 30; 40; 50]) [50; 10]).
  repeat constructor; unfold is_byte; lia.
Defined.
(** ** More on Lookup *)

Lemma maskLoop_bound tile mapped bs (n : nat) :
  0 <= bs ->
  (forall i, (i < n)%nat -> 0 <= mapped !!! Z.to_nat (tile !!! i) < 2 ^ bs) ->
  forall m mask, 0 <= m -> m + Z.of_nat n * bs <= 64 -> 0 <= mask < 2 ^ m ->
  0 <= maskLoop tile mapped bs n mask < 2 ^ (m + Z.of_nat n * bs).
Proof.
  intros Hbs. induction n as [|n IH]; intros Hf m mask Hm Hle Hmask.
  - cbn [maskLoop]. by replace (m + Z.of_nat 0 * bs) with m by lia.
  - cbn [maskLoop].
    assert (Hv : 0 <= mapped !!! Z.to_nat (tile !!! n) < 2 ^ bs) by (apply Hf; lia).
    rewrite (mask_step mask _ bs m) by (done || lia).
    replace (m + Z.of_nat (S n) * bs) with ((m + bs) + Z.of_nat n * bs) by lia.
    apply IH; [intros; apply Hf; lia | lia | lia |].
    rewrite Z.pow_add_r by lia. nia.
Qed.

(** The palette that [Lookup] uses on a generated dictionary, for any
    tile: the distinct colors of the tile, each once. *)
Lemma Lookup_palette order tiles tile :
  (forall l, order l ≡ₚ l) -> Forall is_tile tiles -> Forall is_byte tile ->
  snd (fst (Lookup (Generate order (registerAll tiles)) tile))
    ≡ₚ buffer (keyOfColors tile).
Proof.
  intros Hperm Htiles Hbytes.
  pose proof (goodKeys_registerAll tiles Htiles) as Hgood.
  unfold Lookup.
  destruct (starts (Generate order (registerAll tiles)) !! keyOfColors tile)
    as [s|] eqn:Hs; cbn [fst snd]; [|done].
  by destruct (Generate_window order Hperm _ _ s Hgood Hs) as (_ & _ & Hw).
Qed.

Lemma Lookup_mask lookup tile :
  snd (Lookup lookup tile)
  = maskLoop tile (mappedOf (snd (fst (Lookup lookup tile))))
      (bitsLen (to_uint (size (keyOfColors tile) - 1)))
      (Z.to_nat PixelPerTile) 0.
Proof.
  unfold Lookup. generalize (starts lookup !! keyOfColors tile).
  intros [s|]; cbv beta iota zeta; cbn [fst snd]; reflexivity.
Qed.

(** X8. On a generated dictionary [Lookup] reproduces every tile,
    registered or not: the palette lists the distinct colors of the tile,
    each once, and the mask read through it gives back the tile. *)
Theorem lookup_any_tile_roundtrip
    (order : list tilePaletteKey -> list tilePaletteKey)
    (tiles : list (list Z)) (tile : list Z) :
  (forall l, order l ≡ₚ l) -> Forall is_tile tiles -> is_tile tile ->
  snd (fst (Lookup (Generate order (registerAll tiles)) tile))
    ≡ₚ buffer (keyOfColors tile)
  /\ reconstruct (snd (fst (Lookup (Generate order (registerAll tiles)) tile)))
       (snd (Lookup (Generate order (registerAll tiles)) tile))
       (bitsLen (size (keyOfColors tile) - 1))
     = Some tile.
Proof.
  intros Hperm Htiles Htile. pose proof Htile as [_ Hbytes].
  pose proof (Lookup_palette order tiles tile Hperm Htiles Hbytes) as Hpal.
  split; [done|]. rewrite Lookup_mask. apply mask_roundtrip.
  - done.
  - rewrite Hpal. apply NoDup_buffer.
  - rewrite Hpal. apply Forall_byte_buffer.
  - intros c Hc. rewrite Hpal. by apply elem_of_buffer_keyOfColors.
  - rewrite Hpal. symmetry. by apply wf_size_length, wf_keyOfColors.
Qed.

Lemma lookup_any_tile_roundtrip_witness :
  reconstruct
    (snd (fst (Lookup (Generate listedOrder (registerAll [tile379])) tile56)))
    (snd (Lookup (Generate listedOrder (registerAll [tile379])) tile56))
    (bitsLen (size (keyOfColors tile56) - 1))
  = Some tile56.
Proof.
  exact (proj2 (lookup_any_tile_roundtrip listedOrder [tile379] tile56
                  listedOrder_perm tiles379 is_tile_tile56)).
Defined.

(** X9. The mask of a lookup fits the bits that the tile needs:
    [PixelPerTile] fields of [bitLength(key.size - 1)] bits, at most 64
    bits in all; a tile of one color has the mask 0. *)
Theorem lookup_mask_fits
    (order : list tilePaletteKey -> list tilePaletteKey)
    (tiles : list (list Z)) (tile : list Z) :
  (forall l, order l ≡ₚ l) -> Forall is_tile tiles -> is_tile tile ->
  1 <= size (keyOfColors tile) <= PixelPerTile
  /\ PixelPerTile * bitsLen (size (keyOfColors tile) - 1) <= 64
  /\ 0 <= snd (Lookup (Generate order (registerAll tiles)) tile)
     < 2 ^ (PixelPerTile * bitsLen (size (keyOfColors tile) - 1))
  /\ (size (keyOfColors tile) = 1 ->
      snd (Lookup (Generate order (registerAll tiles)) tile) = 0).
Proof.
  intros Hperm Htiles Htile. pose proof Htile as [Hlen Hbytes].
  pose proof (Lookup_palette order tiles tile Hperm Htiles Hbytes) as Hpal.
  set (pal := snd (fst (Lookup (Generate order (registerAll tiles)) tile))) in *.
  set (s := size (keyOfColors tile)).
  pose proof (size_keyOfColors_le tile Hbytes) as Hle. fold s in Hle.
  pose proof (wf_size_length _ (wf_keyOfColors tile Hbytes)) as Hsz. fold s in Hsz.
  unfold PixelPerTile in *.
  assert (Hs1 : 1 <= s).
  { destruct tile as [|c tile]; [simpl in Hlen; lia|].
    assert (Hin : c ∈ buffer (keyOfColors (c :: tile)))
      by (apply elem_of_buffer_keyOfColors; [done | left]).
    destruct (buffer (keyOfColors (c :: tile)));
      [by apply elem_of_nil in Hin | simpl in Hsz; lia]. }
  set (bs := bitsLen (s - 1)).
  assert (Hbs0 : 0 <= bs) by apply bitsLen_nonneg.
  assert (Hbs4 : bs <= 4) by (apply bitsLen_le_4; lia).
  assert (Hpow : s - 1 < 2 ^ bs) by (apply bitsLen_lt_pow2; lia).
  assert (Hbound :
    0 <= snd (Lookup (Generate order (registerAll tiles)) tile) < 2 ^ (16 * bs)).
  { rewrite Lookup_mask. fold pal. fold s. rewrite to_uint_small by lia. fold bs.
    pose proof (maskLoop_bound tile (mappedOf pal) bs (Z.to_nat 16) Hbs0) as Hb.
    replace (16 * bs) with (0 + Z.of_nat (Z.to_nat 16) * bs) by lia.
    apply Hb; [|lia|lia|lia].
    intros i Hi. destruct (lookup_lt_is_Some_2 tile i ltac:(lia)) as [c Hc].
    assert (Hin : c ∈ pal).
    { rewrite Hpal. apply elem_of_buffer_keyOfColors; [done|].
      by eapply list_elem_of_lookup_2. }
    apply list_elem_of_lookup_1 in Hin as [j Hj].
    rewrite (list_lookup_total_correct _ _ _ Hc).
    rewrite (mappedOf_lookup pal j c).
    - apply lookup_lt_Some in Hj. rewrite Hpal in Hj. lia.
    - rewrite Hpal. apply NoDup_buffer.
    - rewrite Hpal. apply Forall_byte_buffer.
    - rewrite Hpal. lia.
    - done. }
  split; [lia|]. split; [lia|]. split; [done|].
  intros H1. subst bs. rewrite H1 in Hbound. change (2 ^ (16 * bitsLen (1 - 1))) with 1 in Hbound.
  lia.
Qed.

Lemma lookup_mask_fits_witness :
  0 <= snd (Lookup (Generate listedOrder (registerAll [tile379])) tile56)
  < 2 ^ (PixelPerTile * bitsLen (size (keyOfColors tile56) - 1)).
Proof.
  exact (proj1 (proj2 (proj2 (lookup_mask_fits listedOrder [tile379] tile56
                  listedOrder_perm tiles379 is_tile_tile56)))).
Defined.
(** ** More on nested entries *)

(** X10. What [extractBuffer] returns does not depend on the marker, on
    its state or on the start offset: it is [entry.buffer()]. The marker
    is called for the entry itself first, at the start offset, then for
    the children from left to right, each at the offset where the bytes
    of the children before it end. *)
Theorem extractBuffer_marker_independent {St : Type}
    (marker : tilePaletteKey -> Z -> St -> St) (entry : nestedEntry)
    (startOffset : Z) (st : St) :
  fst (extractBuffer entry startOffset marker st) = entryBuffer entry
  /\ snd (extractBuffer entry startOffset marker st)
     = foldl (fun st p => marker (fst p) (snd p) st) st
             (marksOf entry startOffset)
  /\ marksOf entry startOffset
     = (key entry, startOffset) :: childMarks (nested entry) startOffset
  /\ (forall n ns offset,
        childMarks (n :: ns) offset
        = marksOf n offset ++ childMarks ns (offset + size (key n))).
Proof.
  rewrite extractBuffer_spec, entryBuffer_bytesOf. cbn [fst snd].
  split; [done|]. split; [done|]. split; [apply marksOf_unfold | done].
Qed.

Lemma foldl_byteSize (ns : list nestedEntry) : forall a,
  foldl (fun nestedSize n => nestedSize + byteSize n) a ns
  = a + foldr (fun n acc => byteSize n + acc) 0 ns.
Proof.
  induction ns as [|n ns IH]; intros a; cbn [foldl foldr]; [lia|].
  rewrite IH. lia.
Qed.

Lemma byteSize_unfold e :
  byteSize e
  = size (key e) + foldr (fun n acc => byteSize n + acc) 0 (nested e).
Proof. destruct e as [k ns]. cbn [byteSize key nested]. by rewrite foldl_byteSize. Qed.

(** X11. [byteSize] is the sum of the sizes of the keys that extraction
    marks: the entry's own key and the keys of all entries below it. *)
Theorem byteSize_sums_marks (entry : nestedEntry) (startOffset : Z) :
  byteSize entry
  = foldr (fun p acc => size (fst p) + acc) 0 (marksOf entry startOffset).
Proof.
  revert startOffset.
  induction entry as [k ns IH] using nestedEntry_nested_ind. intros off.
  rewrite byteSize_unfold, marksOf_unfold. cbn [key nested foldr fst]. f_equal.
  revert off. induction IH as [|n ns Hn _ IHns]; intros off; [done|].
  cbn [foldr childMarks]. rewrite foldr_app, (Hn off), (IHns (off + size (key n))).
  generalize (foldr (fun p acc => size (fst p) + acc) 0
                (childMarks ns (off + size (key n)))).
  intros z. induction (marksOf n off) as [|p l IHl]; cbn [foldr]; [lia|].
  rewrite <- IHl. lia.
Qed.

Lemma byteSize_ge_size pool e : packed pool e -> size (key e) <= byteSize e.
Proof.
  induction e as [k ns IH] using nestedEntry_nested_ind. intros Hp.
  apply packed_inv in Hp as (Hk & Hns & _).
  rewrite byteSize_unfold. cbn [key nested].
  assert (0 <= foldr (fun n acc => byteSize n + acc) 0 ns); [|lia].
  induction IH as [|n ns Hn _ IHns]; [done|].
  apply Forall_cons in Hns as [Hpn Hns]. cbn [foldr].
  pose proof (Hn Hpn). pose proof (IHns Hns).
  pose proof (wf_size_length _ (packed_wf pool n Hpn)). lia.
Qed.

(** ** More on populate *)

(** X12. [populate] attaches nothing to a key of three colors or fewer,
    whatever the pool holds. *)
Theorem populate_small_key (order : list tilePaletteKey -> list tilePaletteKey)
    (pool : gset tilePaletteKey) (k : tilePaletteKey) :
  size k <= 3 ->
  populate order pool (NestedEntry k []) = NestedEntry k [].
Proof.
  intros Hk. unfold populate. cbn [key].
  destruct (Z.to_nat (size k)) as [|d] eqn:Hd; [done|].
  cbn [populateDepth key]. rewrite Hd. cbn [populateLoop].
  destruct (2 <? size k) eqn:H2; [|done]. apply Z.ltb_lt in H2.
  replace (size k - 1) with 2 by lia. cbn [andb].
  unfold populateRemaining.
  change (Z.to_nat 2) with 2%nat. cbn [populateRemainingLoop].
  change (2 <? 2) with false. cbn [andb snd].
  apply populateLoop_stopped.
Qed.

Lemma populate_small_key_witness :
  populate listedOrder (registered (registerAll [tile379; tile56]))
    (NestedEntry (keyOfColors tile379) [])
  = NestedEntry (keyOfColors tile379) [].
Proof.
  apply populate_small_key. vm_compute. discriminate.
Defined.

Section PopulateMore.

Variable order : list tilePaletteKey -> list tilePaletteKey.
Hypothesis order_perm : forall l, order l ≡ₚ l.
Variable keys : gset tilePaletteKey.
Hypothesis keys_wf : forall o, o ∈ keys -> wf o.

Lemma keep_largest_found (results : list nestedEntry) : forall acc n,
  n ∈ results -> fst acc < byteSize n ->
  exists n', n' ∈ results /\
    snd (foldl (fun '(maxByteSize, maxNested) n =>
                  let nestedSize := byteSize n in
                  if maxByteSize <? nestedSize then (nestedSize, Some n)
                  else (maxByteSize, maxNested)) acc results) = Some n'.
Proof.
  induction results as [|x results IH]; intros [mb mn] n Hn Hlt.
  - by apply elem_of_nil in Hn.
  - cbn [foldl fst] in *. destruct (mb <? byteSize x) eqn:Hx.
    + destruct (keep_largest_spec results (byteSize x, Some x))
        as [Heq|(n' & Hn' & Hs)].
      * exists x. split; [left|]. cbn zeta in Heq. by rewrite Heq.
      * exists n'. split; [by right | done].
    + apply Z.ltb_ge in Hx. apply elem_of_cons in Hn as [->|Hn]; [lia|].
      destruct (IH (mb, mn) n Hn Hlt) as (n' & Hn' & Hs).
      exists n'. split; [by right | done].
Qed.

Lemma collectResults_found query remainingKey keySize acc o :
  o ∈ keys -> size o = keySize -> contains remainingKey o = true ->
  fst acc < byteSize (query o) ->
  exists o', o' ∈ keys /\ size o' = keySize /\ contains remainingKey o' = true
    /\ snd (collectResults order keys query remainingKey keySize acc)
       = Some (query o').
Proof.
  intros Ho Hsz Hc Hlt. unfold collectResults.
  set (queried := filter _ (rangeKeys order keys)).
  assert (Hin : query o ∈ query <$> order queried).
  { apply list_elem_of_fmap_2, (elem_of_order order order_perm).
    apply list_elem_of_filter. split.
    - split; [done | by apply Is_true_true].
    - by apply (elem_of_rangeKeys order order_perm). }
  destruct (keep_largest_found _ acc _ Hin Hlt) as (n' & Hn' & Hs).
  apply list_elem_of_fmap in Hn' as (o' & -> & Ho').
  apply (elem_of_order order order_perm), list_elem_of_filter in Ho'
    as [[Hsz' Hc'] Ho'].
  apply (elem_of_rangeKeys order order_perm) in Ho'.
  apply Is_true_true in Hc'. by exists o'.
Qed.

Lemma populateRemainingLoop_finds query remainingKey o fuel : forall keySize,
  o ∈ keys -> 2 < size o <= keySize -> contains remainingKey o = true ->
  0 < byteSize (query o) -> keySize - 2 <= Z.of_nat fuel ->
  exists o', o' ∈ keys /\ size o <= size o' <= keySize
    /\ contains remainingKey o' = true
    /\ snd (populateRemainingLoop order keys query fuel remainingKey keySize
              (0, None)) = Some (query o').
Proof.
  induction fuel as [|fuel IH]; intros keySize Ho Hsz Hc Hpos Hf; [lia|].
  cbn [populateRemainingLoop snd].
  rewrite bool_decide_eq_false_2 by (by intros [? ?]).
  replace (2 <? keySize) with true by (symmetry; apply Z.ltb_lt; lia).
  cbn [andb negb].
  destruct (collectResults_spec order order_perm keys query remainingKey keySize
              (0, None)) as [Heq|(o' & Ho' & Hsz' & Hc' & Hs)].
  - rewrite Heq. destruct (decide (size o = keySize)) as [Hk|Hk].
    + destruct (collectResults_found query remainingKey keySize (0, None) o
                  Ho Hk Hc Hpos) as (o' & _ & _ & _ & Hs).
      cbn zeta in Heq. rewrite Heq in Hs. discriminate.
    + destruct (IH (keySize - 1) Ho ltac:(lia) Hc Hpos ltac:(lia))
        as (o' & Ho' & Hsz' & Hc' & Hs).
      exists o'. repeat split; try done; lia.
  - rewrite populateRemainingLoop_found by (by rewrite Hs).
    exists o'. repeat split; try done; lia.
Qed.

Lemma populateLoop_extends query fuel :
  forall entry remainingKey foundSomething keySearchSize,
  exists l,
    nested (populateLoop order keys query fuel entry remainingKey foundSomething
              keySearchSize) = nested entry ++ l.
Proof.
  induction fuel as [|fuel IH]; intros entry rk found ss.
  - exists []. by rewrite app_nil_r.
  - cbn [populateLoop]. destruct ((2 <? size rk) && found);
      [|exists []; by rewrite app_nil_r].
    destruct (populateRemaining_spec order order_perm keys query entry rk ss)
      as [->|(o & _ & _ & _ & ->)].
    + rewrite populateLoop_stopped. exists []. by rewrite app_nil_r.
    + destruct (IH (NestedEntry (key entry) (nested entry ++ [query o]))
                  (without rk (key (query o))) true
                  (size (without rk (key (query o))))) as [l Hl].
      cbn [nested] in Hl. exists ([query o] ++ l). by rewrite Hl, <- app_assoc.
Qed.

End PopulateMore.

(** X13. What [populate] builds for a well-formed key over a pool of
    well-formed keys: an entry of the same key whose bytes are the colors
    of the key, each once, and in which every key below the root is a key
    of the pool, smaller than the root and contained in it. *)
Theorem populate_packs (order : list tilePaletteKey -> list tilePaletteKey)
    (pool : gset tilePaletteKey) (k : tilePaletteKey) :
  (forall l, order l ≡ₚ l) -> (forall o, o ∈ pool -> wf o) -> wf k ->
  key (populate order pool (NestedEntry k [])) = k
  /\ packed pool (populate order pool (NestedEntry k []))
  /\ entryBuffer (populate order pool (NestedEntry k [])) ≡ₚ buffer k
  /\ (forall p offset,
        p ∈ marksOf (populate order pool (NestedEntry k [])) offset ->
        fst p = k
        \/ (fst p ∈ pool /\ size (fst p) < size k /\ contains k (fst p) = true)).
Proof.
  intros Hperm Hpool Hk.
  destruct (populate_packed order Hperm pool k Hpool Hk) as [Hp Hkey].
  set (e := populate order pool (NestedEntry k [])) in *.
  pose proof (bytesOf_perm pool e Hp) as Hb. rewrite Hkey in Hb.
  split; [done|]. split; [done|]. split; [by rewrite entryBuffer_bytesOf|].
  intros p off Hin.
  destruct (marksOf_good pool e Hp off p Hin) as (Hw & Hor & _ & _ & Hsl).
  rewrite Hkey in Hor. destruct Hor as [?|[Hin' Hlt]]; [by left|].
  right. split; [done|]. split; [done|].
  destruct Hw as [Hr _]. apply contains_spec; [done|]. intros c Hc Hcol.
  assert (Hcb : c ∈ buffer (fst p)) by (by apply elem_of_buffer).
  rewrite <- Hsl in Hcb. unfold slice in Hcb.
  apply subseteq_take, subseteq_drop in Hcb. rewrite Hb in Hcb.
  by apply elem_of_buffer in Hcb as [_ ?].
Qed.

Lemma wf_pool_example o :
  o ∈ registered (registerAll [tileK1; tileK2]) -> wf o.
Proof.
  intros Ho. apply (goodKeys_registerAll [tileK1; tileK2]); [|done].
  repeat constructor; (reflexivity || (unfold is_byte; lia)).
Qed.

Lemma wf_K1 : wf (keyOfColors tileK1).
Proof. apply wf_keyOfColors. repeat constructor; unfold is_byte; lia. Qed.

Lemma populate_packs_witness :
  key (populate listedOrder (registered (registerAll [tileK1; tileK2]))
         (NestedEntry (keyOfColors tileK1) []))
  = keyOfColors tileK1.
Proof.
  exact (proj1 (populate_packs listedOrder _ (keyOfColors tileK1)
                  listedOrder_perm wf_pool_example wf_K1)).
Defined.

(** X14. [populate] is greedy by size: when the pool holds a key of three
    colors or more that the key being populated contains and that is
    smaller than it, the entry gets a child, and the first child is a key
    of the pool contained in the key that is at least as large as any
    such key. *)
Theorem populate_takes_largest
    (order : list tilePaletteKey -> list tilePaletteKey)
    (pool : gset tilePaletteKey) (k o : tilePaletteKey) :
  (forall l, order l ≡ₚ l) -> (forall o, o ∈ pool -> wf o) -> wf k ->
  o ∈ pool -> 2 < size o < size k -> contains k o = true ->
  exists n ns,
    nested (populate order pool (NestedEntry k [])) = n :: ns
    /\ key n ∈ pool /\ contains k (key n) = true
    /\ size o <= size (key n) < size k.
Proof.
  intros Hperm Hpool Hk Ho Hsz Hc. unfold populate. cbn [key].
  destruct (Z.to_nat (size k)) as [|d] eqn:Hd; [lia|].
  cbn [populateDepth key]. rewrite Hd.
  set (query := fun k0 => populateDepth order d pool (NestedEntry k0 [])).
  assert (Hq : forall o', o' ∈ pool ->
            packed pool (query o') /\ key (query o') = o').
  { intros o' Ho'. apply populateDepth_packed; auto. }
  assert (Hpos : 0 < byteSize (query o)).
  { destruct (Hq o Ho) as [Hp Hkey].
    pose proof (byteSize_ge_size pool _ Hp). rewrite Hkey in *. lia. }
  destruct (populateRemainingLoop_finds order Hperm pool query k o
              (Z.to_nat (size k - 1)) (size k - 1) Ho ltac:(lia) Hc Hpos
              ltac:(lia)) as (o' & Ho' & Hsz' & Hc' & Hs).
  cbn [populateLoop].
  replace (2 <? size k) with true by (symmetry; apply Z.ltb_lt; lia).
  cbn [andb]. unfold populateRemaining. rewrite Hs.
  destruct (Hq o' Ho') as [_ Hkey'].
  destruct (populateLoop_extends order Hperm pool query d
              (NestedEntry (key (NestedEntry k [])) (nested (NestedEntry k []) ++ [query o']))
              (without k (key (query o'))) true
              (size (without k (key (query o'))))) as [l Hl].
  exists (query o'), l. split; [by rewrite Hl|].
  rewrite Hkey'. split; [done|]. split; [done | lia].
Qed.

Lemma populate_takes_largest_witness :
  exists n ns,
    nested (populate listedOrder (registered (registerAll [tileK1; tileK2]))
              (NestedEntry (keyOfColors tileK1) [])) = n :: ns
    /\ key n ∈ registered (registerAll [tileK1; tileK2])
    /\ contains (keyOfColors tileK1) (key n) = true
    /\ size (keyOfColors tileK2) <= size (key n) < size (keyOfColors tileK1).
Proof.
  apply (populate_takes_largest listedOrder _ (keyOfColors tileK1)
           (keyOfColors tileK2) listedOrder_perm wf_pool_example wf_K1).
  - apply elem_of_registerAll. exists tileK2.
    split; [right; left|]. split; [reflexivity | vm_compute; reflexivity].
  - vm_compute. split; reflexivity.
  - vm_compute. reflexivity.
Defined.
(** ** More on Add and Generate *)

Lemma registered_empty_iff tiles :
  registered (registerAll tiles) = ∅
  <-> Forall (fun t => size (keyOfColors t) <= 2) tiles.
Proof.
  split.
  - intros He. apply Forall_forall. intros t Ht.
    destruct (decide (size (keyOfColors t) <= 2)) as [|Hgt]; [done|].
    assert (Hin : keyOfColors t ∈ registered (registerAll tiles)).
    { apply elem_of_registerAll. exists t. split; [done|]. split; [done | lia]. }
    rewrite He in Hin. by apply elem_of_empty in Hin.
  - intros Hall. apply set_eq. intros k. split; [|by intros ?%elem_of_empty].
    intros (t & Ht & -> & Hsz)%elem_of_registerAll.
    eapply Forall_forall in Hall; [|done]. cbn beta in Hall. lia.
Qed.

Lemma sizePass_nothing order (lookup : PaletteLookup) sz :
  (forall l, order l ≡ₚ l) ->
  sizePass order (lookup, ∅) sz
  = ({| Buffer := Buffer lookup; starts := starts lookup |}, ∅).
Proof.
  intros Hperm. unfold sizePass, scavenge, rangeKeys. cbn [fst snd].
  rewrite elements_empty, (order_nil order Hperm). cbn [foldl].
  by rewrite elements_empty, (order_nil order Hperm).
Qed.

(** X15. With nothing registered, because no tile was added or because
    every tile added has two colors or fewer, [Generate] returns the empty
    dictionary: no bytes and no starts. *)
Theorem Generate_nothing_registered
    (order : list tilePaletteKey -> list tilePaletteKey)
    (tiles : list (list Z)) :
  (forall l, order l ≡ₚ l) ->
  Forall (fun t => size (keyOfColors t) <= 2) tiles ->
  Generate order (registerAll tiles) = {| Buffer := []; starts := ∅ |}.
Proof.
  intros Hperm Hall%registered_empty_iff.
  unfold Generate, generatePasses. unfold registered in Hall. rewrite Hall.
  assert (Hfold : forall l,
    foldl (sizePass order) ({| Buffer := []; starts := ∅ |}, ∅) l
    = ({| Buffer := []; starts := ∅ |}, ∅)).
  { induction l as [|sz l IH]; [done|].
    cbn [foldl]. by rewrite sizePass_nothing. }
  rewrite Hfold. unfold rangeKeys.
  by rewrite elements_empty, (order_nil order Hperm).
Qed.

Lemma Generate_nothing_registered_witness :
  Generate listedOrder (registerAll [tile56; tile56])
  = {| Buffer := []; starts := ∅ |}.
Proof.
  apply (Generate_nothing_registered listedOrder [tile56; tile56]
           listedOrder_perm).
  repeat constructor; vm_compute; discriminate.
Defined.

(** X16. The buffer of [Generate] is at least as long as every registered
    key is large; with a key registered it holds three bytes or more. *)
Theorem buffer_holds_largest_key
    (order : list tilePaletteKey -> list tilePaletteKey)
    (tiles : list (list Z)) (k : tilePaletteKey) :
  (forall l, order l ≡ₚ l) -> Forall is_tile tiles ->
  k ∈ registered (registerAll tiles) ->
  3 <= size k
  /\ size k <= Z.of_nat (length (Buffer (Generate order (registerAll tiles)))).
Proof.
  intros Hperm Htiles Hk.
  pose proof (goodKeys_registerAll tiles Htiles) as Hgood.
  destruct (Hgood k Hk) as [_ H3]. split; [done|].
  destruct (Generate_start order Hperm _ k Hgood Hk) as [s Hs].
  destruct (Generate_window order Hperm _ k s Hgood Hs) as (H0 & Hend & _).
  lia.
Qed.

Lemma buffer_holds_largest_key_witness :
  3 <= size (keyOfColors tile379)
  /\ size (keyOfColors tile379)
     <= Z.of_nat (length (Buffer (Generate listedOrder (registerAll [tile379])))).
Proof.
  exact (buffer_holds_largest_key listedOrder [tile379] (keyOfColors tile379)
           listedOrder_perm tiles379 registered_tile379).
Defined.

Lemma keyUses_Add gen delta k :
  keyUses (Add gen delta) !! k
  = if bool_decide (keyOfColors delta = k /\ 2 < size k)
    then Some (default 0 (keyUses gen !! k) + 1)
    else keyUses gen !! k.
Proof.
  unfold Add. destruct (2 <? size (keyOfColors delta)) eqn:Hsz.
  - apply Z.ltb_lt in Hsz. cbn [keyUses].
    destruct (decide (keyOfColors delta = k)) as [<-|Hne].
    + rewrite lookup_insert_eq. by rewrite bool_decide_eq_true_2.
    + rewrite lookup_insert_ne by done.
      by rewrite bool_decide_eq_false_2 by (intros [? _]; done).
  - apply Z.ltb_ge in Hsz.
    rewrite bool_decide_eq_false_2; [done|]. intros [<- ?]. lia.
Qed.

(** X17. [keyUses] counts: after adding tiles to a new generator, the
    entry of a key is the number of tiles added that have this key, and
    there is no entry when no tile has it or when the key has two colors
    or fewer. *)
Theorem keyUses_counts (tiles : list (list Z)) (k : tilePaletteKey) :
  keyUses (registerAll tiles) !! k
  = match length (filter (fun t => keyOfColors t = k /\ 2 < size k) tiles) with
    | O => None
    | S n => Some (Z.of_nat (S n))
    end.
Proof.
  unfold registerAll.
  assert (Hgen : forall gen,
    keyUses (foldl Add gen tiles) !! k
    = match length (filter (fun t => keyOfColors t = k /\ 2 < size k) tiles) with
      | O => keyUses gen !! k
      | S n => Some (default 0 (keyUses gen !! k) + Z.of_nat (S n))
      end).
  { induction tiles as [|t tiles IH]; intros gen; [done|].
    cbn [foldl]. rewrite IH, keyUses_Add, filter_cons.
    case_bool_decide as Hd.
    - rewrite decide_True by done. cbn [length default].
      destruct (length _); f_equal; unfold id; lia.
    - rewrite decide_False by done. done. }
  rewrite Hgen. unfold newGenerator. cbn [keyUses]. rewrite lookup_empty.
  destruct (length _); [done|]. f_equal.
Qed.


(** ** Generate places nothing foreign *)

Section OnlyRegistered.

Variable order : list tilePaletteKey -> list tilePaletteKey.
Hypothesis order_perm : forall l, order l ≡ₚ l.
Variable regs : gset tilePaletteKey.
Hypothesis regs_good : goodKeys regs.

Lemma scavenge_only lookup rem sz :
  generateInv regs (lookup, rem) -> onlyRegistered regs (lookup, rem) ->
  onlyRegistered regs (scavenge order lookup rem sz).
Proof.
  intros Hinv [Hst Hbuf]. cbn [fst snd] in *.
  pose proof (inv_remainder _ _ Hinv) as Hrem. cbn [snd] in Hrem.
  unfold scavenge.
  destruct (scavenge_fold (Buffer lookup) rem sz (rangeKeys order rem)
              ltac:(intros k; by rewrite (elem_of_rangeKeys order order_perm))
              ([], starts lookup)) as (_ & _ & H3).
  cbn zeta in H3.
  destruct (foldl _ ([], starts lookup) (rangeKeys order rem))
    as [earlyRemoved starts'].
  cbn [fst snd] in *. split; cbn [fst Buffer starts]; [|done].
  intros k [s Hs]. destruct (H3 k s Hs) as [Hold|[Hk _]].
  - apply Hst. by exists s.
  - by apply Hrem.
Qed.

Lemma placeKey_only lookup (rem : gset tilePaletteKey) k :
  generateInv regs (lookup, rem) -> k ∈ rem ->
  onlyRegistered regs (lookup, rem) ->
  onlyRegistered regs (placeKey order (lookup, rem) k).
Proof.
  intros Hinv Hk [Hst Hbuf]. cbn [fst snd] in *.
  pose proof (inv_remainder _ _ Hinv) as Hrem. cbn [snd] in Hrem.
  assert (Hpool : forall o, o ∈ rem -> wf o)
    by (intros o Ho; by apply (regs_wf regs regs_good), Hrem).
  destruct (populate_packed order order_perm rem k Hpool (Hpool k Hk))
    as [Hpacked Hkey].
  unfold placeKey. set (root := populate order rem (NestedEntry k [])) in *.
  rewrite extractBuffer_spec, foldl_markPlaced. cbn [fst snd app].
  pose proof (bytesOf_perm rem root Hpacked) as Hbperm. rewrite Hkey in Hbperm.
  split; cbn [fst Buffer starts].
  - intros k' [s Hs]. apply lookup_marks in Hs as [Hs|Hs].
    + destruct (marksOf_good rem root Hpacked _ _ Hs) as (_ & Hor & _).
      cbn [fst] in Hor. rewrite Hkey in Hor.
      destruct Hor as [->|[Hin _]]; by apply Hrem.
    + apply Hst. by exists s.
  - intros c [Hc|Hc]%elem_of_app; [by apply Hbuf|].
    exists k. split; [by apply Hrem | by rewrite <- Hbperm].
Qed.

Lemma foldl_placeKey_only sz (l : list tilePaletteKey) : forall st,
  generateInv regs st -> onlyRegistered regs st -> NoDup l ->
  (forall k, k ∈ l -> k ∈ snd st /\ size k = sz) ->
  onlyRegistered regs (foldl (placeKey order) st l).
Proof.
  induction l as [|k l IH]; intros [lookup rem] Hinv Honly Hnd Hl;
    cbn [foldl]; [done|].
  apply NoDup_cons in Hnd as [Hnk Hnd].
  destruct (Hl k ltac:(left)) as [Hk Hsz]. cbn [snd] in Hk.
  destruct (placeKey_inv order order_perm regs regs_good lookup rem k Hinv Hk)
    as [Hinv' Hkeep].
  apply IH; [done | by apply placeKey_only | done |].
  intros k' Hk'. destruct (Hl k' ltac:(by right)) as [Hin Hsz'].
  split; [|done]. apply Hkeep; [done | | lia]. intros ->. done.
Qed.

Lemma sizePass_only st sz :
  generateInv regs st -> onlyRegistered regs st ->
  onlyRegistered regs (sizePass order st sz).
Proof.
  intros Hinv Honly. unfold sizePass. destruct st as [lookup rem]. cbn [fst snd].
  pose proof (scavenge_only lookup rem sz Hinv Honly) as Honly1.
  destruct (scavenge_inv order order_perm regs regs_good lookup rem sz Hinv)
    as (Hinv1 & _ & _).
  destruct (scavenge order lookup rem sz) as [lookup1 rem1].
  apply (foldl_placeKey_only sz); [done | done | |].
  - apply NoDup_filter, NoDup_rangeKeys, order_perm.
  - intros k Hk. apply list_elem_of_filter in Hk as [Hsz Hk].
    apply (elem_of_rangeKeys order order_perm) in Hk; done.
Qed.

Lemma placeLeftover_only (l : list tilePaletteKey) :
  forall lookup (rem : gset tilePaletteKey),
  (forall k, k ∈ l -> k ∈ regs) ->
  onlyRegistered regs (lookup, rem) ->
  onlyRegistered regs (foldl placeLeftover lookup l, rem).
Proof.
  induction l as [|k l IH]; intros lookup rem Hl [Hst Hbuf]; cbn [foldl];
    [done|].
  cbn [fst snd] in *. apply IH; [intros; apply Hl; by right|].
  split; cbn [fst placeLeftover Buffer starts].
  - intros k' [s Hs]. apply lookup_insert_Some in Hs as [[<- _]|[_ Hs]].
    + apply Hl. left.
    + apply Hst. by exists s.
  - intros c [Hc|Hc]%elem_of_app; [by apply Hbuf|].
    exists k. split; [apply Hl; left | done].
Qed.

End OnlyRegistered.

Lemma Generate_only order gen :
  (forall l, order l ≡ₚ l) -> goodKeys (registered gen) ->
  onlyRegistered (registered gen) (Generate order gen, ∅).
Proof.
  intros Hperm Hgood.
  assert (Hfold : forall l st,
    generateInv (registered gen) st -> onlyRegistered (registered gen) st ->
    generateInv (registered gen) (foldl (sizePass order) st l)
    /\ onlyRegistered (registered gen) (foldl (sizePass order) st l)).
  { induction l as [|sz l IH]; intros st Hinv Honly; cbn [foldl]; [done|].
    apply IH; [by apply sizePass_inv | by apply sizePass_only]. }
  assert (Hinit : onlyRegistered (registered gen)
                    ({| Buffer := []; starts := ∅ |}, dom (keyUses gen))).
  { split; cbn [fst Buffer starts].
    - intros k [s Hs]. by rewrite lookup_empty in Hs.
    - intros c Hc. by apply elem_of_nil in Hc. }
  pose proof (generatePasses_inv order Hperm gen Hgood) as Hinv0.
  unfold Generate.
  assert (Honly : onlyRegistered (registered gen) (generatePasses order gen)).
  { unfold generatePasses. apply Hfold; [|done].
    constructor; cbn [fst snd Buffer starts].
    - intros k Hk. by left.
    - intros k s Hs. by rewrite lookup_empty in Hs.
    - done.
    - constructor.
    - change (Z.of_nat (length (@nil Z))) with 0. unfold registered. lia. }
  destruct (generatePasses order gen) as [lookup rem].
  pose proof (inv_remainder _ _ Hinv0) as Hrem. cbn [snd] in Hrem.
  destruct (placeLeftover_only (registered gen) (rangeKeys order rem) lookup rem
              ltac:(intros k Hk%(elem_of_rangeKeys order Hperm); by apply Hrem)
              Honly) as [H1 H2].
  split; done.
Qed.

(** X19. [Generate] gives a start to the registered keys and to no other
    key: the keys of [starts] are the registered keys. *)
Theorem starts_only_registered
    (order : list tilePaletteKey -> list tilePaletteKey)
    (tiles : list (list Z)) :
  (forall l, order l ≡ₚ l) -> Forall is_tile tiles ->
  dom (starts (Generate order (registerAll tiles)))
  = registered (registerAll tiles).
Proof.
  intros Hperm Htiles.
  pose proof (goodKeys_registerAll tiles Htiles) as Hgood.
  destruct (Generate_only order _ Hperm Hgood) as [Hst _]. cbn [fst] in Hst.
  apply set_eq. intros k. rewrite elem_of_dom. split; [apply Hst|].
  intros Hk. destruct (Generate_start order Hperm _ k Hgood Hk) as [s Hs].
  by exists s.
Qed.

Lemma starts_only_registered_witness :
  dom (starts (Generate listedOrder (registerAll [tile379])))
  = registered (registerAll [tile379]).
Proof.
  exact (starts_only_registered listedOrder [tile379] listedOrder_perm tiles379).
Defined.

(** X20. Every byte of the buffer of [Generate] is a color of a tile that
    was added, of a tile of three colors or more. *)
Theorem buffer_only_registered_colors
    (order : list tilePaletteKey -> list tilePaletteKey)
    (tiles : list (list Z)) (c : Z) :
  (forall l, order l ≡ₚ l) -> Forall is_tile tiles ->
  c ∈ Buffer (Generate order (registerAll tiles)) ->
  exists t, t ∈ tiles /\ c ∈ t /\ 3 <= size (keyOfColors t).
Proof.
  intros Hperm Htiles Hc.
  pose proof (goodKeys_registerAll tiles Htiles) as Hgood.
  destruct (Generate_only order _ Hperm Hgood) as [_ Hbuf]. cbn [fst] in Hbuf.
  destruct (Hbuf c Hc) as (k & (t & Ht & -> & Hsz)%elem_of_registerAll & Hin).
  exists t. split; [done|]. split; [|lia].
  assert (Hb : Forall is_byte t).
  { rewrite Forall_forall in Htiles. by destruct (Htiles t Ht). }
  by apply (elem_of_buffer_keyOfColors t c Hb).
Qed.

Lemma buffer_only_registered_colors_witness :
  exists t, t ∈ [tile379] /\ 3 ∈ t /\ 3 <= size (keyOfColors t).
Proof.
  apply (buffer_only_registered_colors listedOrder [tile379] 3
           listedOrder_perm tiles379).
  vm_compute. left.
Defined.
(** ** What the scan for windows claims *)

Lemma scavengeLoop_first buf k : forall fuel start st s0,
  start <= s0 < Z.of_nat (length buf) - size k ->
  (Z.to_nat (s0 - start) < fuel)%nat ->
  contains (keyOfColors (slice buf s0 (s0 + size k))) k = true ->
  (forall s, start <= s < s0 ->
     contains (keyOfColors (slice buf s (s + size k))) k = false) ->
  scavengeLoop buf k fuel start false st
  = (fst st ++ [k], <[k := s0]> (snd st)).
Proof.
  induction fuel as [|fuel IH]; intros start st s0 Hs Hfuel Hc Hbefore; [lia|].
  cbn [scavengeLoop negb]. rewrite andb_true_r.
  replace (start <? Z.of_nat (length buf) - size k) with true
    by (symmetry; apply Z.ltb_lt; lia).
  destruct (decide (start = s0)) as [->|Hne].
  - rewrite Hc. by rewrite scavengeLoop_stopped.
  - rewrite (Hbefore start) by lia. apply IH; [lia | lia | done |].
    intros s Hs'. apply Hbefore. lia.
Qed.

Lemma scavengeLoop_none buf k fuel start st :
  (forall s, start <= s < Z.of_nat (length buf) - size k ->
     contains (keyOfColors (slice buf s (s + size k))) k = false) ->
  scavengeLoop buf k fuel start false st = st.
Proof.
  intros Hnone.
  destruct (scavengeLoop_spec buf k fuel start st) as [H|(s & Hs & Hc & _)];
    [done|].
  rewrite (Hnone s Hs) in Hc. discriminate.
Qed.

Section ScavengeMore.

Variable buf : list Z.
Variable sz : Z.

(** The body of the scan, [if key.size == size { ... }] for one key. *)
Variable scan : list tilePaletteKey * gmap tilePaletteKey Z -> tilePaletteKey
                -> list tilePaletteKey * gmap tilePaletteKey Z.
Hypothesis scan_eq : forall st k,
  scan st k
  = if size k =? sz then scavengeLoop buf k (length buf) 0 false st else st.

(** The scan for one key changes nothing of another key. *)
Lemma scan_other st k' k :
  k <> k' ->
  snd (scan st k') !! k = snd st !! k
  /\ (k ∈ fst (scan st k') <-> k ∈ fst st).
Proof.
  intros Hne. rewrite scan_eq. destruct (size k' =? sz); [|done].
  destruct (scavengeLoop_spec buf k' (length buf) 0 st)
    as [->|(s & _ & _ & ->)]; [done|].
  cbn [fst snd]. split.
  - by rewrite lookup_insert_ne.
  - rewrite elem_of_app, list_elem_of_singleton. naive_solver.
Qed.

Lemma scan_others (l : list tilePaletteKey) k : forall st,
  k ∉ l ->
  snd (foldl scan st l) !! k = snd st !! k
  /\ (k ∈ fst (foldl scan st l) <-> k ∈ fst st).
Proof.
  induction l as [|k' l IH]; intros st Hk; cbn [foldl]; [done|].
  apply not_elem_of_cons in Hk as [Hne Hk].
  destruct (IH (scan st k') Hk) as [H1 H2].
  destruct (scan_other st k' k Hne) as [H3 H4].
  split; [congruence | tauto].
Qed.

(** In a scan of keys without repetition, what happens to a key is what
    its own scan does. *)
Lemma scan_own (l : list tilePaletteKey) k st :
  NoDup l -> k ∈ l ->
  exists st1,
    snd st1 !! k = snd st !! k
    /\ (k ∈ fst st1 <-> k ∈ fst st)
    /\ snd (foldl scan st l) !! k = snd (scan st1 k) !! k
    /\ (k ∈ fst (foldl scan st l) <-> k ∈ fst (scan st1 k)).
Proof.
  intros Hnd Hk.
  apply list_elem_of_split in Hk as (l1 & l2 & ->).
  apply NoDup_app in Hnd as (_ & Hl1 & Hl2).
  apply NoDup_cons in Hl2 as [Hl2 _].
  assert (Hk1 : k ∉ l1) by (intros Hin; apply (Hl1 k Hin); left).
  rewrite foldl_app. cbn [foldl].
  exists (foldl scan st l1).
  destruct (scan_others l1 k st Hk1) as [H1 H2].
  destruct (scan_others l2 k (scan (foldl scan st l1) k) Hl2) as [H3 H4].
  done.
Qed.

End ScavengeMore.

(** X21. The scan for windows of a size pass claims a key of the size of
    the pass at the first start, below [len(buffer) - key.size], whose
    window holds the colors of the key: the key gets this start and leaves
    the remainder. *)
Theorem scavenge_claims_first_window
    (order : list tilePaletteKey -> list tilePaletteKey)
    (lookup : PaletteLookup) (rem : gset tilePaletteKey)
    (k : tilePaletteKey) (s0 : Z) :
  (forall l, order l ≡ₚ l) ->
  k ∈ rem -> 0 <= size k ->
  0 <= s0 < Z.of_nat (length (Buffer lookup)) - size k ->
  contains (keyOfColors (slice (Buffer lookup) s0 (s0 + size k))) k = true ->
  (forall s, 0 <= s < s0 ->
     contains (keyOfColors (slice (Buffer lookup) s (s + size k))) k = false) ->
  starts (fst (scavenge order lookup rem (size k))) !! k = Some s0
  /\ (k ∉ snd (scavenge order lookup rem (size k)))
  /\ Buffer (fst (scavenge order lookup rem (size k))) = Buffer lookup.
Proof.
  intros Hperm Hk Hsz Hs0 Hc Hbefore. unfold scavenge.
  destruct (scan_own (Buffer lookup) (size k)
              (fun st k' => if size k' =? size k
                            then scavengeLoop (Buffer lookup) k'
                                   (length (Buffer lookup)) 0 false st
                            else st)
              (fun _ _ => eq_refl)
              (rangeKeys order rem) k ([], starts lookup)
              (NoDup_rangeKeys order Hperm rem)
              (proj2 (elem_of_rangeKeys order Hperm rem k) Hk))
    as (st1 & _ & _ & H3 & H4).
  cbv beta in H3, H4.
  rewrite Z.eqb_refl in H3, H4.
  rewrite (scavengeLoop_first (Buffer lookup) k (length (Buffer lookup)) 0 st1 s0)
    in H3, H4 by (done || lia).
  cbn [fst snd] in H3, H4. rewrite lookup_insert_eq in H3.
  destruct (foldl _ ([], starts lookup) (rangeKeys order rem))
    as [earlyRemoved starts'].
  cbn [fst snd Buffer starts] in *. split; [done|]. split; [|done].
  rewrite elem_of_remove_all. intros [_ Hnot]. apply Hnot, H4.
  apply elem_of_app. right. left.
Qed.

Lemma scavenge_claims_first_window_witness :
  let lookup := {| Buffer := [1; 2; 3; 4; 5; 6]; starts := ∅ |} in
  let k := keyOfColors tile345 in
  starts (fst (scavenge listedOrder lookup {[k]} (size k))) !! k = Some 2.
Proof.
  intros lookup k.
  refine (proj1 (scavenge_claims_first_window listedOrder lookup {[k]} k 2
                   listedOrder_perm _ _ _ _ _)).
  - apply elem_of_singleton. reflexivity.
  - vm_compute. discriminate.
  - vm_compute. split; [discriminate | reflexivity].
  - vm_compute. reflexivity.
  - intros s Hs. assert (Hcase : s = 0 \/ s = 1) by lia.
    destruct Hcase as [-> | ->]; vm_compute; reflexivity.
Defined.

(** X22. The scan for windows of a size pass leaves a key of the remainder
    as it was, with the start it had or none and in the remainder, when the
    key is not of the size of the pass or when no window at a start below
    [len(buffer) - key.size] holds its colors. *)
Theorem scavenge_leaves_key
    (order : list tilePaletteKey -> list tilePaletteKey)
    (lookup : PaletteLookup) (rem : gset tilePaletteKey) (sz : Z)
    (k : tilePaletteKey) :
  (forall l, order l ≡ₚ l) ->
  k ∈ rem ->
  size k <> sz
  \/ (forall s, 0 <= s < Z.of_nat (length (Buffer lookup)) - size k ->
        contains (keyOfColors (slice (Buffer lookup) s (s + size k))) k = false) ->
  starts (fst (scavenge order lookup rem sz)) !! k = starts lookup !! k
  /\ k ∈ snd (scavenge order lookup rem sz).
Proof.
  intros Hperm Hk Hwhy. unfold scavenge.
  destruct (scan_own (Buffer lookup) sz
              (fun st k => if size k =? sz
                           then scavengeLoop (Buffer lookup) k
                                  (length (Buffer lookup)) 0 false st
                           else st)
              (fun _ _ => eq_refl)
              (rangeKeys order rem) k ([], starts lookup)
              (NoDup_rangeKeys order Hperm rem)
              (proj2 (elem_of_rangeKeys order Hperm rem k) Hk))
    as (st1 & H1 & H2 & H3 & H4).
  cbv beta in H3, H4.
  assert (Hsame : (if size k =? sz
                   then scavengeLoop (Buffer lookup) k
                          (length (Buffer lookup)) 0 false st1
                   else st1) = st1).
  { destruct Hwhy as [Hne|Hnone].
    - by apply Z.eqb_neq in Hne as ->.
    - destruct (size k =? sz); [|done]. by apply scavengeLoop_none. }
  rewrite Hsame in H3, H4.
  destruct (foldl _ ([], starts lookup) (rangeKeys order rem))
    as [earlyRemoved starts'].
  cbn [fst snd Buffer starts] in *. split; [congruence|].
  rewrite elem_of_remove_all. split; [done|].
  intros Hin. apply H4, H2 in Hin. by apply elem_of_nil in Hin.
Qed.

Lemma scavenge_leaves_key_witness :
  let lookup := {| Buffer := [1; 2; 3; 4; 5]; starts := ∅ |} in
  let k := keyOfColors tile345 in
  starts (fst (scavenge listedOrder lookup {[k]} 3)) !! k = None
  /\ k ∈ snd (scavenge listedOrder lookup {[k]} 3).
Proof.
  intros lookup k.
  refine (scavenge_leaves_key listedOrder lookup {[k]} 3 k
            listedOrder_perm _ _).
  - apply elem_of_singleton. reflexivity.
  - right. intros s Hs.
    assert (Hcase : s = 0 \/ s = 1)
      by (change (Z.of_nat (length (Buffer lookup)) - size k) with 2 in Hs; lia).
    destruct Hcase as [-> | ->]; vm_compute; reflexivity.
Defined.
(** ** Keys that share no color are not packed *)

Lemma filter_within {A} (P Q : A -> Prop)
    `{!forall x, Decision (P x)} `{!forall x, Decision (Q x)} (l : list A) :
  (forall x, x ∈ l -> P x -> Q x) ->
  filter P (filter Q l) = filter P l.
Proof.
  induction l as [|x l IH]; intros Himp; [done|].
  assert (IH' : filter P (filter Q l) = filter P l)
    by (apply IH; intros y Hy; apply Himp; by right).
  rewrite (filter_cons Q). destruct (decide (Q x)) as [HQ|HQ].
  - rewrite !filter_cons. destruct (decide (P x)); by rewrite IH'.
  - rewrite (filter_cons P). destruct (decide (P x)) as [HP|HP]; [|done].
    destruct HQ. apply Himp; [left | done].
Qed.

Lemma filter_all {A} (P : A -> Prop) `{!forall x, Decision (P x)} (l : list A) :
  Forall P l -> filter P l = l.
Proof.
  induction 1 as [|x l Hx Hl IH]; [done|].
  rewrite filter_cons. destruct (decide (P x)); [by rewrite IH | done].
Qed.

Lemma length_filter_slice (P : Z -> Prop) `{!forall x, Decision (P x)}
    (l : list Z) lo hi :
  (length (filter P (slice l lo hi)) <= length (filter P l))%nat.
Proof.
  unfold slice.
  rewrite <- (take_drop (Z.to_nat lo) l) at 2.
  rewrite <- (take_drop (Z.to_nat (hi - lo)) (drop (Z.to_nat lo) l)) at 2.
  rewrite !filter_app, !length_app. lia.
Qed.

(** Bytes of the colors of keys that share no color are different bytes:
    a buffer that holds [size k] bytes of every key [k] is as long as the
    sizes together. *)
Lemma count_disjoint (ks : list tilePaletteKey) :
  NoDup ks -> forall buf : list Z,
  (forall k1 k2 c, k1 ∈ ks -> k2 ∈ ks -> c ∈ buf ->
     hasColor k1 c = true -> hasColor k2 c = true -> k1 = k2) ->
  (forall k, k ∈ ks ->
     size k <= Z.of_nat (length (filter (fun c => hasColor k c = true) buf))) ->
  foldr (fun k acc => size k + acc) 0 ks <= Z.of_nat (length buf).
Proof.
  induction ks as [|k ks IH]; intros Hnd buf Hdis Hcnt; cbn [foldr]; [lia|].
  apply NoDup_cons in Hnd as [Hk Hnd].
  set (buf' := filter (fun c => ~ hasColor k c = true) buf).
  assert (Hsplit : (length (filter (fun c => hasColor k c = true) buf)
                    + length buf' = length buf)%nat).
  { rewrite <- length_app. apply Permutation_length, filter_app_complement. }
  assert (Hrest : foldr (fun k acc => size k + acc) 0 ks
                  <= Z.of_nat (length buf')).
  { apply IH; [done | |].
    - intros k1 k2 c H1 H2 Hc. apply Hdis; [by right | by right |].
      by apply list_elem_of_filter in Hc as [_ Hc].
    - intros k' Hk'. subst buf'. rewrite filter_within.
      + apply Hcnt. by right.
      + intros c Hc Hh' Hh. apply Hk.
        rewrite (Hdis k k' c); [done | left | by right | done | done | done]. }
  pose proof (Hcnt k ltac:(left)). lia.
Qed.

(** X23. When no two registered keys share a color, [Generate] packs
    nothing: the buffer is as long as the sizes of the registered keys
    taken together, the length of the layout that writes every key
    apart. *)
Theorem disjoint_keys_not_packed
    (order : list tilePaletteKey -> list tilePaletteKey)
    (tiles : list (list Z)) :
  (forall l, order l ≡ₚ l) -> Forall is_tile tiles ->
  (forall k1 k2, k1 ∈ registered (registerAll tiles) ->
     k2 ∈ registered (registerAll tiles) -> k1 <> k2 ->
     commonColors k1 k2 = []) ->
  Z.of_nat (length (Buffer (Generate order (registerAll tiles))))
  = sumSizes (registered (registerAll tiles)).
Proof.
  intros Hperm Htiles Hdis.
  pose proof (goodKeys_registerAll tiles Htiles) as Hgood.
  set (gen := registerAll tiles) in *.
  pose proof (Generate_inv order Hperm gen Hgood) as [_ Hwin _ Hbytes Hlen].
  cbn [fst snd] in *.
  assert (Hle : Z.of_nat (length (Buffer (Generate order gen)))
                <= sumSizes (registered gen)).
  { assert (sumSizes (∅ : gset tilePaletteKey) = 0) as Hempty by done. lia. }
  apply Z.le_antisymm; [done|]. unfold sumSizes.
  apply count_disjoint; [apply NoDup_elements | |].
  - intros k1 k2 c Hk1%elem_of_elements Hk2%elem_of_elements Hc Hh1 Hh2.
    destruct (decide (k1 = k2)) as [|Hne]; [done|]. exfalso.
    assert (Hin : c ∈ commonColors k1 k2).
    { unfold commonColors. apply list_elem_of_filter. split.
      - rewrite Hh1, Hh2. done.
      - rewrite Forall_forall in Hbytes. apply Hbytes in Hc.
        apply elem_of_seqZ. unfold is_byte in Hc. lia. }
    rewrite (Hdis k1 k2 Hk1 Hk2 Hne) in Hin. by apply elem_of_nil in Hin.
  - intros k Hk%elem_of_elements.
    destruct (Generate_start order Hperm gen k Hgood Hk) as [s Hs].
    destruct (Hwin k s Hs) as (_ & _ & Hw).
    destruct (Hgood k Hk) as [Hwf _].
    rewrite (wf_size_length k Hwf).
    apply inj_le.
    etransitivity;
      [|apply (length_filter_slice (fun c => hasColor k c = true)
                 (Buffer (Generate order gen)) s (s + size k))].
    unfold window in Hw. rewrite Hw.
    rewrite filter_all; [done|].
    apply Forall_forall. intros c Hc. by apply elem_of_buffer in Hc as [_ Hc].
Qed.

Lemma disjoint_keys_not_packed_witness :
  Z.of_nat (length (Buffer (Generate listedOrder (registerAll [tile379; tileK1]))))
  = sumSizes (registered (registerAll [tile379; tileK1])).
Proof.
  apply (disjoint_keys_not_packed listedOrder [tile379; tileK1] listedOrder_perm).
  - repeat constructor; (reflexivity || (unfold is_byte; lia)).
  - intros k1 k2 (t1 & Ht1 & -> & _)%elem_of_registerAll
                 (t2 & Ht2 & -> & _)%elem_of_registerAll Hne.
    apply elem_of_cons in Ht1 as [-> | Ht1];
      [|apply list_elem_of_singleton in Ht1 as ->];
      (apply elem_of_cons in Ht2 as [-> | Ht2];
         [|apply list_elem_of_singleton in Ht2 as ->]);
      try (by destruct Hne); vm_compute; reflexivity.
Defined.
(** ** The language of a resource file *)

Lemma localize_entries lang loc :
  (lang, loc) ∈ map_to_list localizedFilenames ->
  (lang = LangDefault /\ cybstrng loc = "cybstrng.res"%string)
  \/ (lang = LangFrench /\ cybstrng loc = "frnstrng.res"%string)
  \/ (lang = LangGerman /\ cybstrng loc = "gerstrng.res"%string).
Proof.
  intros Hin%elem_of_map_to_list. unfold localizedFilenames in Hin.
  apply lookup_insert_Some in Hin as [[<- <-]|[_ Hin]]; [by left|].
  apply lookup_insert_Some in Hin as [[<- <-]|[_ Hin]]; [right; by left|].
  apply lookup_insert_Some in Hin as [[<- <-]|[_ Hin]]; [right; by right|].
  by rewrite lookup_empty in Hin.
Qed.

Lemma localize_fold {P : Type} (name : String.string)
    (l : list (Z * languageSpecificFilenames)) :
  forall res : LocalizedResources P,
  let r := foldl (fun res entry =>
                    if hasFilename (snd entry) name
                    then {| ID := ID res; Language := fst entry;
                            Provider := Provider res |}
                    else res) res l in
  ID r = ID res /\ Provider r = Provider res
  /\ ((Language r = Language res
       /\ forall e, e ∈ l -> hasFilename (snd e) name = false)
      \/ exists e, e ∈ l /\ hasFilename (snd e) name = true
                   /\ Language r = fst e).
Proof.
  induction l as [|e l IH] using rev_ind; intros res; cbn zeta.
  - cbn [foldl]. split; [done|]. split; [done|]. left. split; [done|].
    intros e He. by apply elem_of_nil in He.
  - rewrite foldl_app. cbn [foldl].
    destruct (IH res) as (HID & HP & Hlang). cbn zeta in *.
    destruct (hasFilename (snd e) name) eqn:He.
    + cbn [ID Provider Language]. split; [done|]. split; [done|].
      right. exists e. rewrite elem_of_app, list_elem_of_singleton. by auto.
    + split; [done|]. split; [done|].
      destruct Hlang as [[Hl Hnone]|(e' & He' & Hhit & Hl)].
      * left. split; [done|]. intros e' [He'|He']%elem_of_app; [by apply Hnone|].
        by apply list_elem_of_singleton in He' as ->.
      * right. exists e'. rewrite elem_of_app. by auto.
Qed.

(** X24. [LocalizeResourcesByFilename] tells the language from the name
    of the strings file alone, whatever the order in which the map of
    file names is visited: the lowercased name [cybstrng.res] gives the
    default language, [frnstrng.res] French, [gerstrng.res] German, every
    other name [LangAny], so that the language is [LangAny] or one of
    [Languages]; the identifier is the name as it was given and the
    provider is the one given. *)
Theorem LocalizeResourcesByFilename_language
    (resourceProvider : Type) (ToLower : String.string -> String.string)
    (rangeOrder : list (Z * languageSpecificFilenames)
                  -> list (Z * languageSpecificFilenames))
    (provider : resourceProvider) (filename : String.string) :
  (forall l, rangeOrder l ≡ₚ l) ->
  let res := LocalizeResourcesByFilename resourceProvider ToLower rangeOrder
               provider filename in
  ID res = filename /\ Provider res = provider
  /\ Language res
     = (if String.eqb (ToLower filename) "cybstrng.res"%string then LangDefault
        else if String.eqb (ToLower filename) "frnstrng.res"%string then LangFrench
        else if String.eqb (ToLower filename) "gerstrng.res"%string then LangGerman
        else LangAny)
  /\ Language res ∈ LangAny :: Languages.
Proof.
  intros Hperm. cbn zeta. unfold LocalizeResourcesByFilename.
  destruct (localize_fold (ToLower filename)
              (rangeOrder (map_to_list localizedFilenames))
              {| ID := filename; Language := LangAny; Provider := provider |})
    as (HID & HP & Hlang).
  cbn zeta in *. cbn [ID Provider Language] in *.
  split; [done|]. split; [done|].
  match goal with
  | |- ?x = ?y /\ _ =>
      assert (Heq : x = y);
      [|split; [done|]; rewrite Heq;
        repeat (destruct (String.eqb _ _));
        unfold Languages; rewrite !elem_of_cons; by auto]
  end.
  assert (Hin : forall lang loc,
    localizedFilenames !! lang = Some loc ->
    (lang, loc) ∈ rangeOrder (map_to_list localizedFilenames)).
  { intros lang loc Hl. rewrite Hperm. by apply elem_of_map_to_list. }
  destruct Hlang as [[-> Hnone]|([lang loc] & He & Hhit & ->)].
  - pose proof (Hnone _ (Hin LangDefault _ eq_refl)) as H0.
    pose proof (Hnone _ (Hin LangFrench _ eq_refl)) as H1.
    pose proof (Hnone _ (Hin LangGerman _ eq_refl)) as H2.
    unfold hasFilename in H0, H1, H2. cbn [snd cybstrng] in H0, H1, H2.
    rewrite String.eqb_sym in H0. rewrite String.eqb_sym in H1.
    rewrite String.eqb_sym in H2. by rewrite H0, H1, H2.
  - rewrite Hperm in He. cbn [fst snd] in *. unfold hasFilename in Hhit.
    apply String.eqb_eq in Hhit.
    destruct (localize_entries lang loc He)
      as [[-> Hn]|[[-> Hn]|[-> Hn]]]; rewrite <- Hhit, Hn; reflexivity.
Qed.

Lemma LocalizeResourcesByFilename_language_witness :
  Language (LocalizeResourcesByFilename unit id id tt "frnstrng.res"%string)
  = LangFrench.
Proof.
  exact (proj1 (proj2 (proj2 (LocalizeResourcesByFilename_language unit id id tt
                                "frnstrng.res"%string (fun l => reflexivity l))))).
Defined.
